(** * The VLC object core: reference counting and the ownership tree

    A shallow embedding of [src/misc/objects.c] ([vlc_object_t] handling):
    object creation and destruction, [vlc_object_hold] and
    [vlc_object_release], the flat list of child objects guarded by
    [tree_lock], and the two debug commands of the root object.

    The embedding is sequential: one thread runs a function from entry to
    return, and every atomic operation acts on the current memory.  Memory
    is a finite map from addresses to object headers; the order of the side
    effects of a run is recorded in a trace of events. *)

From stdpp Require Import gmap strings list fin_maps.
From Stdlib Require Import ZArith Lia.

(** ** Data model *)

(** Addresses are natural numbers; the null pointer is address zero. *)
Definition NULL : N := 0%N.

(** [unsigned] is a 32-bit type: arithmetic on the reference count wraps. *)
Definition UINT_MAX : Z := 4294967295%Z.
Definition uint (z : Z) : Z := (z mod (UINT_MAX + 1))%Z.

(** The variable callbacks this file registers (function pointers). *)
Inductive vlc_callback_t :=
| TreeCommand_cb
| VarsCommand_cb
| other_cb (f : N).

Global Instance vlc_callback_eq_dec : EqDecision vlc_callback_t.
Proof. solve_decision. Defined.

(** A variable of the per-object store: name, type flags, and the list of
    registered callbacks with their opaque data pointer. *)
Record variable_t := {
  psz_name : string;
  i_type : Z;
  callbacks : list (vlc_callback_t * N)
}.

(** The object header [vlc_object_internals_t], followed by the common
    public members of [vlc_object_t] and the type-specific payload. *)
Record vlc_object_internals_t := {
  typename : string;
  var_root : list variable_t;
  refs : Z;
  pf_destructor : option N;
  resources : N;
  parent : N;
  logger : N;
  no_interact : bool;
  force : bool;
  payload : list Byte.byte
}.

Definition set_refs (r : Z) (o : vlc_object_internals_t) :=
  {| typename := typename o; var_root := var_root o; refs := r;
     pf_destructor := pf_destructor o; resources := resources o;
     parent := parent o; logger := logger o; no_interact := no_interact o;
     force := force o; payload := payload o |}.

Definition set_var_root (v : list variable_t) (o : vlc_object_internals_t) :=
  {| typename := typename o; var_root := v; refs := refs o;
     pf_destructor := pf_destructor o; resources := resources o;
     parent := parent o; logger := logger o; no_interact := no_interact o;
     force := force o; payload := payload o |}.

Definition set_pf_destructor (d : option N) (o : vlc_object_internals_t) :=
  {| typename := typename o; var_root := var_root o; refs := refs o;
     pf_destructor := d; resources := resources o;
     parent := parent o; logger := logger o; no_interact := no_interact o;
     force := force o; payload := payload o |}.

Definition set_parent (p : N) (o : vlc_object_internals_t) :=
  {| typename := typename o; var_root := var_root o; refs := refs o;
     pf_destructor := pf_destructor o; resources := resources o;
     parent := p; logger := logger o; no_interact := no_interact o;
     force := force o; payload := payload o |}.

Definition set_logger (l : N) (o : vlc_object_internals_t) :=
  {| typename := typename o; var_root := var_root o; refs := refs o;
     pf_destructor := pf_destructor o; resources := resources o;
     parent := parent o; logger := l; no_interact := no_interact o;
     force := force o; payload := payload o |}.

Definition set_no_interact (b : bool) (o : vlc_object_internals_t) :=
  {| typename := typename o; var_root := var_root o; refs := refs o;
     pf_destructor := pf_destructor o; resources := resources o;
     parent := parent o; logger := logger o; no_interact := b;
     force := force o; payload := payload o |}.

(** Severity of a log message. *)
Inductive msg_level := MSG_ERR | MSG_WARN.

Global Instance msg_level_eq_dec : EqDecision msg_level.
Proof. solve_decision. Defined.

(** Observable side effects, in the order the code performs them. *)
Inductive event :=
| EvMutexLock                       (* vlc_mutex_lock(&tree_lock) *)
| EvMutexUnlock                     (* vlc_mutex_unlock(&tree_lock) *)
| EvListAppend (p : N)              (* vlc_list_append(&priv->list, &tree_list) *)
| EvListRemove (p : N)              (* vlc_list_remove(&priv->list) *)
| EvFetchAdd (p : N) (old : Z)      (* atomic_fetch_add on refs *)
| EvFetchSub (p : N) (old : Z)      (* atomic_fetch_sub on refs *)
| EvCasDec (p : N) (old : Z)        (* successful compare-exchange old -> old-1 *)
| EvMalloc (p : N)
| EvFree (p : N)
| EvVarLockInit (p : N)             (* vlc_mutex_init(&priv->var_lock) *)
| EvVarWaitInit (p : N)             (* vlc_cond_init(&priv->var_wait) *)
| EvVarWaitDestroy (p : N)          (* vlc_cond_destroy(&priv->var_wait) *)
| EvVarLockDestroy (p : N)          (* vlc_mutex_destroy(&priv->var_lock) *)
| EvSaveCancel
| EvRestoreCancel
| EvDestructor (f : N) (p : N)      (* pf_destructor(p_this) *)
| EvVarCreate (p : N) (name : string) (ty : Z)
| EvVarAddCallback (p : N) (name : string) (cb : vlc_callback_t) (data : N)
| EvVarDelCallback (p : N) (name : string) (cb : vlc_callback_t) (data : N)
| EvVarDestroyAll (p : N)
| EvMsg (p : N) (lvl : msg_level) (text : string)
| EvPrintObject (p : N) (ty : string) (par : N)   (* printf(" o %p %s, parent %p\n") *)
| EvDumpVariables (p : N).

Global Instance event_eq_dec : EqDecision event.
Proof. solve_decision. Defined.

(** The whole memory the file acts on: allocated objects, the global list
    of objects that have a parent, its lock, and the trace so far. *)
Record state := {
  heap : gmap N vlc_object_internals_t;
  tree_list : list N;
  tree_lock : bool;
  trace : list event
}.

Definition set_heap (h : gmap N vlc_object_internals_t) (s : state) :=
  {| heap := h; tree_list := tree_list s; tree_lock := tree_lock s;
     trace := trace s |}.
Definition set_tree_list (l : list N) (s : state) :=
  {| heap := heap s; tree_list := l; tree_lock := tree_lock s;
     trace := trace s |}.
Definition set_tree_lock (b : bool) (s : state) :=
  {| heap := heap s; tree_list := tree_list s; tree_lock := b;
     trace := trace s |}.
Definition set_trace (t : list event) (s : state) :=
  {| heap := heap s; tree_list := tree_list s; tree_lock := tree_lock s;
     trace := t |}.

Definition init_state : state :=
  {| heap := ∅; tree_list := []; tree_lock := false; trace := [] |}.

(** ** Computations that may stop early *)

Inductive failure :=
| AssertionFailed     (* a failed assert(): the process aborts *)
| Undefined           (* access to memory that is not allocated, or
                         unlocking a mutex that is not held *)
| Deadlock            (* locking tree_lock while it is already held *)
| OutOfFuel.          (* the bound on loops and recursion was too small *)

Inductive outcome (A : Type) :=
| Done (a : A) (s : state)
| Abort (f : failure) (s : state).
Arguments Done {A} a s.
Arguments Abort {A} f s.

Definition M (A : Type) : Type := state → outcome A.

Definition ret {A} (a : A) : M A := λ s, Done a s.
Definition bind {A B} (m : M A) (k : A → M B) : M B :=
  λ s, match m s with
       | Done a s' => k a s'
       | Abort f s' => Abort f s'
       end.
Definition fail {A} (f : failure) : M A := λ s, Abort f s.

Declare Scope vlc_scope.
Delimit Scope vlc_scope with vlc.
Notation "'let*' x ':=' m 'in' k" := (bind m (λ x, k))
  (at level 10, x pattern, m at level 100, k at level 200) : vlc_scope.
Notation "m ';;' k" := (bind m (λ _, k))
  (at level 100, k at level 200, right associativity) : vlc_scope.
Local Open Scope vlc_scope.

Definition emit (e : event) : M unit :=
  λ s, Done tt (set_trace (trace s ++ [e]) s).

Definition assert (b : bool) : M unit :=
  if b then ret tt else fail AssertionFailed.

(** [vlc_internals(obj)]: the header of an allocated object. *)
Definition vlc_internals (obj : N) : M vlc_object_internals_t :=
  λ s, match heap s !! obj with
       | Some priv => Done priv s
       | None => Abort Undefined s
       end.

Definition store (obj : N) (priv : vlc_object_internals_t) : M unit :=
  λ s, Done tt (set_heap (<[obj := priv]> (heap s)) s).

Definition get_tree_list : M (list N) := λ s, Done (tree_list s) s.

Definition vlc_mutex_lock : M unit :=
  λ s, if tree_lock s then Abort Deadlock s
       else Done tt (set_trace (trace s ++ [EvMutexLock]) (set_tree_lock true s)).

Definition vlc_mutex_unlock : M unit :=
  λ s, if tree_lock s
       then Done tt (set_trace (trace s ++ [EvMutexUnlock]) (set_tree_lock false s))
       else Abort Undefined s.

(** [vlc_mutex_assert(&tree_lock)]: the lock is held. *)
Definition vlc_mutex_assert : M unit :=
  λ s, if tree_lock s then Done tt s else Abort AssertionFailed s.

(** ** Atomic operations on the reference count *)

Definition atomic_load (obj : N) : M Z :=
  let* priv := vlc_internals obj in ret (refs priv).

Definition atomic_fetch_add (obj : N) (n : Z) : M Z :=
  let* priv := vlc_internals obj in
  store obj (set_refs (uint (refs priv + n)) priv);;
  emit (EvFetchAdd obj (refs priv));;
  ret (refs priv).

Definition atomic_fetch_sub (obj : N) (n : Z) : M Z :=
  let* priv := vlc_internals obj in
  store obj (set_refs (uint (refs priv - n)) priv);;
  emit (EvFetchSub obj (refs priv));;
  ret (refs priv).

(** Compare-exchange: on success the count becomes [desired]; on failure
    the current count is handed back in place of [expected].  A spurious
    failure of the weak form only repeats the loop and is not modelled. *)
Definition atomic_compare_exchange_weak (obj : N) (expected desired : Z)
  : M (bool * Z) :=
  let* priv := vlc_internals obj in
  if (refs priv =? expected)%Z then
    store obj (set_refs desired priv);;
    emit (EvCasDec obj expected);;
    ret (true, expected)
  else ret (false, refs priv).

(** ** The global list of objects *)

Definition vlc_list_append (obj : N) : M unit :=
  λ s, Done tt (set_trace (trace s ++ [EvListAppend obj])
                          (set_tree_list (tree_list s ++ [obj]) s)).

(** Unlinking the node of [obj]: the list without that node. *)
Definition vlc_list_remove (obj : N) : M unit :=
  λ s, Done tt (set_trace (trace s ++ [EvListRemove obj])
                  (set_tree_list (filter (λ q, q ≠ obj) (tree_list s)) s)).

(** [vlc_children_foreach] with a body that returns at the first child. *)
Fixpoint has_child_loop (l : list N) (obj : N) : M bool :=
  match l with
  | [] => ret false
  | pos :: l' =>
      let* priv := vlc_internals pos in
      if (parent priv =? obj)%N then ret true else has_child_loop l' obj
  end.

Definition ObjectHasChildLocked (obj : N) : M bool :=
  let* l := get_tree_list in has_child_loop l obj.

Definition ObjectHasChild (obj : N) : M bool :=
  vlc_mutex_lock;;
  let* r := ObjectHasChildLocked obj in
  vlc_mutex_unlock;;
  ret r.

(** ** Hold *)

Definition vlc_object_hold (p_this : N) : M N :=
  let* refs := atomic_fetch_add p_this 1 in
  assert (0 <? refs)%Z;;
  ret p_this.

(** ** The variable store, as far as this file uses it *)

Definition has_var (name : string) (vars : list variable_t) : bool :=
  existsb (λ v, String.eqb (psz_name v) name) vars.

Definition add_callback (name : string) (cb : vlc_callback_t) (data : N)
    (vars : list variable_t) : list variable_t :=
  map (λ v, if String.eqb (psz_name v) name
            then {| psz_name := psz_name v; i_type := i_type v;
                    callbacks := callbacks v ++ [(cb, data)] |}
            else v) vars.

Fixpoint remove_first (e : vlc_callback_t * N) (l : list (vlc_callback_t * N))
  : list (vlc_callback_t * N) :=
  match l with
  | [] => []
  | x :: l' => if decide (x = e) then l' else x :: remove_first e l'
  end.

Definition del_callback (name : string) (cb : vlc_callback_t) (data : N)
    (vars : list variable_t) : list variable_t :=
  map (λ v, if String.eqb (psz_name v) name
            then {| psz_name := psz_name v; i_type := i_type v;
                    callbacks := remove_first (cb, data) (callbacks v) |}
            else v) vars.

(** Modelled from the spec: [var_Create] of variables.c, which is not part
    of this file (spec 4.3, [create(obj, name, kind)]): the named variable
    is added to the object's store unless it is there already. *)
Definition var_Create (obj : N) (name : string) (ty : Z) : M unit :=
  let* priv := vlc_internals obj in
  store obj (set_var_root
               (if has_var name (var_root priv) then var_root priv
                else var_root priv ++
                     [{| psz_name := name; i_type := ty; callbacks := [] |}])
               priv);;
  emit (EvVarCreate obj name ty).

(** Modelled from the spec: [var_AddCallback] of variables.c (spec 4.3,
    [addCallback(obj, name, fn, opaque)]): the callback is registered on
    the named variable. *)
Definition var_AddCallback (obj : N) (name : string) (cb : vlc_callback_t)
    (data : N) : M unit :=
  let* priv := vlc_internals obj in
  store obj (set_var_root (add_callback name cb data (var_root priv)) priv);;
  emit (EvVarAddCallback obj name cb data).

(** Modelled from the spec: [var_DelCallback] of variables.c (spec 4.3,
    [removeCallback(obj, name, fn, opaque)]): one registration of the
    callback is removed from the named variable. *)
Definition var_DelCallback (obj : N) (name : string) (cb : vlc_callback_t)
    (data : N) : M unit :=
  let* priv := vlc_internals obj in
  store obj (set_var_root (del_callback name cb data (var_root priv)) priv);;
  emit (EvVarDelCallback obj name cb data).

(** Modelled from the spec: [var_DestroyAll] of variables.c (spec 3 and
    4.3): every variable of the object is destroyed. *)
Definition var_DestroyAll (obj : N) : M unit :=
  let* priv := vlc_internals obj in
  store obj (set_var_root [] priv);;
  emit (EvVarDestroyAll obj).

(** Modelled from the spec: [DumpVariables] of variables.c, which is not
    part of this file (spec 4.5, the variable dump of the [vars] command):
    it prints the store of an allocated object and changes nothing. *)
Definition DumpVariables (obj : N) : M unit :=
  let* _ := vlc_internals obj in
  emit (EvDumpVariables obj).

(** Modelled from the spec: [msg_Err], the logging macro of the headers
    (spec 6, the logger service): one message at error severity. *)
Definition msg_Err (obj : N) (text : string) : M unit :=
  emit (EvMsg obj MSG_ERR text).

Definition free (obj : N) : M unit :=
  λ s, Done tt (set_trace (trace s ++ [EvFree obj])
                          (set_heap (delete obj (heap s)) s)).

Definition vlc_object_set_destructor (p_this : N) (pf : option N) : M unit :=
  let* p_priv := vlc_internals p_this in
  store p_this (set_pf_destructor pf p_priv).

Definition vlc_object_typename (obj : N) : M string :=
  let* priv := vlc_internals obj in ret (typename priv).

Definition vlc_object_parent (obj : N) : M N :=
  let* priv := vlc_internals obj in ret (parent priv).

(** ** Destruction *)

(** The teardown hook is caller-supplied code: its call is recorded, what
    it does to memory is outside this model. *)
Definition vlc_object_destroy (p_this : N) : M unit :=
  let* p_priv := vlc_internals p_this in
  assert (resources p_priv =? NULL)%N;;
  emit EvSaveCancel;;
  match pf_destructor p_priv with
  | Some f => emit (EvDestructor f p_this)
  | None => ret tt
  end;;
  (if (parent p_priv =? NULL)%N then
     var_DelCallback p_this "vars" VarsCommand_cb NULL;;
     var_DelCallback p_this "tree" TreeCommand_cb NULL
   else ret tt);;
  var_DestroyAll p_this;;
  emit EvRestoreCancel;;
  emit (EvVarWaitDestroy p_this);;
  emit (EvVarLockDestroy p_this);;
  free p_this.

(** ** Release *)

(** The fast path: [while (refs > 1)] around the compare-exchange.  The
    result says whether the function has returned from inside the loop, and
    carries the last value of the local [refs]. *)
Fixpoint fast_path (fuel : nat) (obj : N) (refs : Z) : M (bool * Z) :=
  if (1 <? refs)%Z then
    match fuel with
    | O => fail OutOfFuel
    | S fuel' =>
        let* (ok, refs') :=
          atomic_compare_exchange_weak obj refs (uint (refs - 1)) in
        if ok then ret (true, refs')
        else assert (0 <? refs')%Z;; fast_path fuel' obj refs'
    end
  else ret (false, refs).

(** [fuel] bounds the iterations of the fast-path loop and the depth of the
    recursion into parents; the number of allocated objects is enough
    ([release_preserves_inv]). *)
Fixpoint vlc_object_release (fuel : nat) (obj : N) : M unit :=
  match fuel with
  | O => fail OutOfFuel
  | S fuel' =>
      let* refs := atomic_load obj in
      (* Fast path *)
      let* (returned, _) := fast_path fuel obj refs in
      if returned then ret tt
      else
        let* parent := vlc_object_parent obj in
        if (parent =? NULL)%N then
          (* Destroying the root object *)
          let* refs := atomic_fetch_sub obj 1 in
          assert (refs =? 1)%Z;;
          let* has_child := ObjectHasChild obj in
          assert (negb has_child);;
          vlc_object_destroy obj
        else
          (* Slow path *)
          vlc_mutex_lock;;
          let* refs := atomic_fetch_sub obj 1 in
          assert (0 <? refs)%Z;;
          (if (refs =? 1)%Z then vlc_list_remove obj else ret tt);;
          vlc_mutex_unlock;;
          if (refs =? 1)%Z then
            let* has_child := ObjectHasChild obj in
            assert (negb has_child);;
            vlc_object_destroy obj;;
            vlc_object_release fuel' parent
          else ret tt
  end.

(** ** Validation of an untrusted pointer *)

(** The loop of [ObjectExists] over the global list: each child of [root]
    is searched by [search]; the first match ends the loop. *)
Fixpoint exists_loop (search : N → M N) (root : N) (l : list N) : M N :=
  match l with
  | [] => ret NULL
  | pos :: l' =>
      let* priv := vlc_internals pos in
      if (parent priv =? root)%N then
        let* r := search pos in
        if (r =? NULL)%N then exists_loop search root l' else ret r
      else exists_loop search root l'
  end.

(** [ObjectExists(root, obj)]: depth-first search of [obj] below [root]
    through the children found in the global list; the match is held. *)
Fixpoint ObjectExists (fuel : nat) (root obj : N) : M N :=
  if (root =? obj)%N then vlc_object_hold root
  else
    match fuel with
    | O => fail OutOfFuel
    | S fuel' =>
        vlc_mutex_assert;;
        let* l := get_tree_list in
        exists_loop (λ pos, ObjectExists fuel' pos obj) root l
    end.

(** ** Listing children *)

(** [tab[count] = x] on the caller's table; writing past its end is
    undefined. *)
Definition tab_write (tab : list N) (count : N) (x : N) : M (list N) :=
  if (N.to_nat count <? length tab)%nat
  then ret (<[N.to_nat count := x]> tab)
  else fail Undefined.

Fixpoint list_children_loop (l : list N) (obj : N) (max : N)
    (count : N) (tab : list N) : M (N * list N) :=
  match l with
  | [] => ret (count, tab)
  | pos :: l' =>
      let* priv := vlc_internals pos in
      if (parent priv =? obj)%N then
        let* tab' :=
          (if (count <? max)%N then
             let* h := vlc_object_hold pos in tab_write tab count h
           else ret tab) in
        list_children_loop l' obj max (count + 1)%N tab'
      else list_children_loop l' obj max count tab
  end.

(** The result pairs the returned count with the table after the call. *)
Definition vlc_list_children (obj : N) (tab : list N) (max : N)
  : M (N * list N) :=
  vlc_mutex_lock;;
  let* l := get_tree_list in
  let* r := list_children_loop l obj max 0%N tab in
  vlc_mutex_unlock;;
  ret r.

(** Modelled from the spec: the return codes of vlc_common.h that the
    [vars] command uses (spec 6: success, and a distinct "no such object"
    status). *)
Inductive vlc_status := VLC_SUCCESS | VLC_ENOOBJ.

Section Platform.

(** What the build provides and this file only uses: the size of the
    public object structure, the two variable type flags, and the result
    of [sscanf(text, "%p", &p)] (a pointer when exactly one item was
    converted). *)
Variable sizeof_vlc_object_t : N.
Variables VLC_VAR_STRING VLC_VAR_ISCOMMAND : Z.
Variable sscanf_p : string → option N.

(** ** Creation *)

(** [m] is the answer of [malloc]: [NULL] on failure, else the address of
    the new block.  Members that the code leaves unset hold [NULL]/[false]
    until they are assigned. *)
Definition vlc_custom_create (m : N) (parent : N) (length : N)
    (typename : string) : M N :=
  assert (sizeof_vlc_object_t <=? length)%N;;
  if (m =? NULL)%N then ret NULL
  else
    emit (EvMalloc m);;
    store m {| typename := typename; var_root := []; refs := 1;
               pf_destructor := None; resources := NULL; parent := NULL;
               logger := NULL; no_interact := false; force := false;
               payload := repeat Byte.x00
                            (N.to_nat (length - sizeof_vlc_object_t)) |};;
    emit (EvVarLockInit m);;
    emit (EvVarWaitInit m);;
    if negb (parent =? NULL)%N then
      let* par := vlc_internals parent in
      let* priv := vlc_internals m in
      store m (set_no_interact (no_interact par)
                 (set_logger (logger par) priv));;
      (* Attach the child to its parent (no lock needed) *)
      let* held := vlc_object_hold parent in
      let* priv := vlc_internals m in
      store m (set_parent held priv);;
      (* Attach the parent to its child (structure lock needed) *)
      vlc_mutex_lock;;
      vlc_list_append m;;
      vlc_mutex_unlock;;
      ret m
    else
      let* priv := vlc_internals m in
      store m (set_parent NULL (set_no_interact false priv));;
      emit EvSaveCancel;;
      var_Create m "tree" (Z.lor VLC_VAR_STRING VLC_VAR_ISCOMMAND);;
      var_AddCallback m "tree" TreeCommand_cb NULL;;
      var_Create m "vars" (Z.lor VLC_VAR_STRING VLC_VAR_ISCOMMAND);;
      var_AddCallback m "vars" VarsCommand_cb NULL;;
      emit EvRestoreCancel;;
      ret m.

Definition vlc_object_create (m : N) (p_this : N) (i_size : N) : M N :=
  vlc_custom_create m p_this i_size "generic".

(** ** The [vars] command *)

(** The code after the [if]/[else] of [VarsCommand]. *)
Definition VarsCommand_dump (fuel : nat) (obj : N) : M vlc_status :=
  let* ty := vlc_object_typename obj in
  let* par := vlc_object_parent obj in
  emit (EvPrintObject obj ty par);;
  DumpVariables obj;;
  vlc_object_release fuel obj;;
  ret VLC_SUCCESS.

Definition VarsCommand (fuel : nat) (obj : N) (newval : string)
  : M vlc_status :=
  match sscanf_p newval with
  | Some p =>
      vlc_mutex_lock;;
      let* p := ObjectExists fuel obj p in
      vlc_mutex_unlock;;
      if (p =? NULL)%N then
        msg_Err obj ("no such object: " ++ newval);;
        ret VLC_ENOOBJ
      else VarsCommand_dump fuel p
  | None =>
      vlc_object_hold obj;;
      VarsCommand_dump fuel obj
  end.

End Platform.

(** ** States reached by a run *)

(** The state a run ends in, whether it returns or aborts. *)
Definition final {A} (o : outcome A) : state :=
  match o with Done _ s => s | Abort _ s => s end.

Definition add_trace (evs : list event) (s : state) : state :=
  set_trace (trace s ++ evs) s.

(** The object at [obj] with its reference count set to [r]. *)
Definition ref_update (obj : N) (priv : vlc_object_internals_t) (r : Z)
    (s : state) : state :=
  set_heap (<[obj := set_refs r priv]> (heap s)) s.

(** The events of [vlc_object_destroy], in order. *)
Definition destroy_events (p : N) (priv : vlc_object_internals_t)
  : list event :=
  [EvSaveCancel] ++
  match pf_destructor priv with
  | Some f => [EvDestructor f p]
  | None => []
  end ++
  (if (parent priv =? NULL)%N
   then [EvVarDelCallback p "vars" VarsCommand_cb NULL;
         EvVarDelCallback p "tree" TreeCommand_cb NULL]
   else []) ++
  [EvVarDestroyAll p; EvRestoreCancel;
   EvVarWaitDestroy p; EvVarLockDestroy p; EvFree p].

(** No entry of the list other than [obj] itself has [obj] as its parent,
    and every such entry is allocated. *)
Definition no_children (s : state) (obj : N) : Prop :=
  ∀ c, c ∈ tree_list s → c ≠ obj →
       ∃ o, heap s !! c = Some o ∧ parent o ≠ obj.

(** The state in which the last release of [obj] hands over to the release
    of its parent: [obj] is off the list and freed. *)
Definition after_last_release (obj : N) (priv : vlc_object_internals_t)
    (s : state) : state :=
  add_trace ([EvMutexLock; EvFetchSub obj 1; EvListRemove obj; EvMutexUnlock;
              EvMutexLock; EvMutexUnlock] ++ destroy_events obj priv)
    (set_tree_list (filter (λ q, q ≠ obj) (tree_list s))
       (set_heap (delete obj (heap s)) s)).

(** ** A small object tree

    The chain root → mid → leaf used to exercise the statements below,
    built by three creations on a platform with a 16-byte public object
    structure, and a pointer parser that accepts "0x2", "0x3" and "0x7". *)

Definition ex_sizeof : N := 16%N.
Definition ex_VAR_STRING : Z := 64%Z.
Definition ex_VAR_ISCOMMAND : Z := 8192%Z.
Definition ex_sscanf_p (text : string) : option N :=
  if String.eqb text "0x2" then Some 2%N
  else if String.eqb text "0x3" then Some 3%N
  else if String.eqb text "0x7" then Some 7%N
  else None.

Definition ex_create : N → N → N → string → M N :=
  vlc_custom_create ex_sizeof ex_VAR_STRING ex_VAR_ISCOMMAND.

Definition ex_root_state : state :=
  set_trace [] (final (ex_create 1%N NULL 16%N "libvlc" init_state)).
Definition ex_mid_state : state :=
  set_trace [] (final (ex_create 2%N 1%N 24%N "mid" ex_root_state)).
Definition ex_leaf_state : state :=
  set_trace [] (final (ex_create 3%N 2%N 16%N "leaf" ex_mid_state)).

Definition ex_root_vars : list variable_t :=
  [{| psz_name := "tree"; i_type := 8256;
      callbacks := [(TreeCommand_cb, NULL)] |};
   {| psz_name := "vars"; i_type := 8256;
      callbacks := [(VarsCommand_cb, NULL)] |}].

Definition ex_obj (ty : string) (vars : list variable_t) (r : Z) (par : N)
    (len : nat) : vlc_object_internals_t :=
  {| typename := ty; var_root := vars; refs := r; pf_destructor := None;
     resources := NULL; parent := par; logger := NULL; no_interact := false;
     force := false; payload := repeat Byte.x00 len |}.

(** The root after one more [vlc_object_hold]: two references. *)
Definition ex_root_held_state : state :=
  set_trace [] (final (vlc_object_hold 1%N ex_root_state)).

(** ** Counting destructions *)

(** How many times the block at [p] is freed in a stretch of trace. *)
Definition free_count (p : N) (evs : list event) : nat :=
  length (filter (λ e, e = EvFree p) evs).

(** From [s] to [s'] nothing was allocated, and the frees recorded in the
    trace are exactly the objects that were allocated in [s] and are not in
    [s']: one free each. *)
Definition frees_exact (s s' : state) : Prop :=
  ∃ evs, trace s' = trace s ++ evs ∧
    ∀ p, free_count p evs =
           match heap s !! p, heap s' !! p with
           | Some _, None => 1
           | _, _ => 0
           end
         ∧ (heap s !! p = None → heap s' !! p = None).

(** Events other than a free. *)
Definition is_free (e : event) : bool :=
  match e with EvFree _ => true | _ => false end.

(** Every run of [m] is related by [R] to the state it ends in. *)
Definition steps {A} (R : state → state → Prop) (m : M A) : Prop :=
  ∀ s, R s (final (m s)).

(** ** Newly created objects *)

(** The header a creation starts from. *)
Definition new_object (sizeof_obj : N) (length : N) (typename : string)
  : vlc_object_internals_t :=
  {| typename := typename; var_root := []; refs := 1;
     pf_destructor := None; resources := NULL; parent := NULL;
     logger := NULL; no_interact := false; force := false;
     payload := repeat Byte.x00 (N.to_nat (length - sizeof_obj)) |}.

(** The two command variables of a parentless object. *)
Definition command_variables (VAR_STRING VAR_ISCOMMAND : Z)
  : list variable_t :=
  [{| psz_name := "tree"; i_type := Z.lor VAR_STRING VAR_ISCOMMAND;
      callbacks := [(TreeCommand_cb, NULL)] |};
   {| psz_name := "vars"; i_type := Z.lor VAR_STRING VAR_ISCOMMAND;
      callbacks := [(VarsCommand_cb, NULL)] |}].

(** The state after the creation of a parentless object at [m]. *)
Definition created_root (sizeof_obj : N) (VAR_STRING VAR_ISCOMMAND : Z)
    (m length : N) (typename : string) (s : state) : state :=
  add_trace
    [EvMalloc m; EvVarLockInit m; EvVarWaitInit m; EvSaveCancel;
     EvVarCreate m "tree" (Z.lor VAR_STRING VAR_ISCOMMAND);
     EvVarAddCallback m "tree" TreeCommand_cb NULL;
     EvVarCreate m "vars" (Z.lor VAR_STRING VAR_ISCOMMAND);
     EvVarAddCallback m "vars" VarsCommand_cb NULL;
     EvRestoreCancel]
    (set_heap
       (<[m := set_var_root (command_variables VAR_STRING VAR_ISCOMMAND)
                 (new_object sizeof_obj length typename)]> (heap s)) s).

(** The state after the creation at [m] of a child of [parent], whose
    header was [par]. *)
Definition created_child (sizeof_obj : N) (m parent length : N)
    (typename : string) (par : vlc_object_internals_t) (s : state) : state :=
  add_trace
    [EvMalloc m; EvVarLockInit m; EvVarWaitInit m;
     EvFetchAdd parent (refs par);
     EvMutexLock; EvListAppend m; EvMutexUnlock]
    (set_tree_list (tree_list s ++ [m])
       (set_heap
          (<[m := set_parent parent
                    (set_no_interact (no_interact par)
                       (set_logger (logger par)
                          (new_object sizeof_obj length typename)))]>
             (<[parent := set_refs (uint (refs par + 1)) par]> (heap s)))
          s)).

(** ** Children, as the list scan sees them *)

(** The entries of [l] whose parent, read in [h], is [obj]. *)
Definition children_of (h : gmap N vlc_object_internals_t) (l : list N)
    (obj : N) : list N :=
  filter (λ c, parent <$> h !! c = Some obj) l.

(** One more reference on [c]; then on every entry of a list, in order. *)
Definition hold_one (c : N) (h : gmap N vlc_object_internals_t)
  : gmap N vlc_object_internals_t :=
  match h !! c with
  | Some o => <[c := set_refs (uint (refs o + 1)) o]> h
  | None => h
  end.

Definition hold_all (l : list N) (h : gmap N vlc_object_internals_t)
  : gmap N vlc_object_internals_t :=
  foldl (λ h c, hold_one c h) h l.

Definition refs_at (h : gmap N vlc_object_internals_t) (c : N) : Z :=
  match h !! c with Some o => refs o | None => 0%Z end.

Definition hold_events (h : gmap N vlc_object_internals_t) (l : list N)
  : list event :=
  map (λ c, EvFetchAdd c (refs_at h c)) l.

(** Writing [xs] into a table at consecutive indices from [count]. *)
Fixpoint tab_fill (tab : list N) (count : nat) (xs : list N) : list N :=
  match xs with
  | [] => tab
  | x :: xs' => tab_fill (<[count := x]> tab) (S count) xs'
  end.

(** Every entry of the list is allocated, and the children of [obj] among
    them have a positive count. *)
Definition children_live (s : state) (l : list N) (obj : N) : Prop :=
  ∀ c, c ∈ l → ∃ o, heap s !! c = Some o ∧ (parent o = obj → (0 < refs o)%Z).

(** The root with two children, 2 and 4. *)
Definition ex_siblings_state : state :=
  set_trace [] (final (ex_create 4%N 1%N 16%N "sib" ex_mid_state)).

(** ** The tree below an object *)

(** [obj] is [root] or is linked to it through parent pointers of entries
    of the global list. *)
Inductive in_tree (s : state) (root : N) : N → Prop :=
| in_tree_root : in_tree s root root
| in_tree_child c o :
    c ∈ tree_list s → heap s !! c = Some o →
    in_tree s root (parent o) → in_tree s root c.

(** The tree below [root] has at most [n] levels, [root] included. *)
Fixpoint height_le (n : nat) (s : state) (root : N) : bool :=
  match n with
  | O => false
  | S n' =>
      forallb (λ c, match heap s !! c with
                    | Some o => if (parent o =? root)%N
                                then height_le n' s c else true
                    | None => true
                    end) (tree_list s)
  end.

(** Every entry of the global list is a non-null allocated object with a
    positive count. *)
Definition tree_wf (s : state) : Prop :=
  ∀ c, c ∈ tree_list s →
       c ≠ NULL ∧ ∃ o, heap s !! c = Some o ∧ (0 < refs o)%Z.

(** The chain root → mid → leaf with the structural lock held. *)
Definition ex_leaf_locked_state : state := set_tree_lock true ex_leaf_state.

(** ** The ownership invariant *)

(** The number of allocated objects whose parent is [p]. *)
Definition children_count (h : gmap N vlc_object_internals_t) (p : N) : nat :=
  size (filter (λ kv, parent kv.2 = p) h).

(** The caller gives back a reference of its own: the count of [obj] exceeds
    the references that its children hold. *)
Definition owned (s : state) (obj : N) : Prop :=
  ∃ o, heap s !! obj = Some o ∧
       (Z.of_nat (children_count (heap s) obj) < refs o)%Z.

(** The invariant of the states between calls: the lock is free, address
    zero is not an object, the list holds allocated objects that have a
    parent, parents of allocated objects are allocated, no resource is
    attached, and each count is at least one, at least the number of the
    object's children, and in the range of its type. *)
Record tree_inv (s : state) : Prop := {
  inv_lock : tree_lock s = false;
  inv_null : heap s !! NULL = None;
  inv_list : ∀ c, c ∈ tree_list s →
                  ∃ o, heap s !! c = Some o ∧ parent o ≠ NULL;
  inv_parent : ∀ c o, heap s !! c = Some o → parent o ≠ NULL →
                      is_Some (heap s !! parent o);
  inv_resources : ∀ p o, heap s !! p = Some o → resources o = NULL;
  inv_refs : ∀ p o, heap s !! p = Some o →
                    (1 ≤ refs o ≤ UINT_MAX)%Z ∧
                    (Z.of_nat (children_count (heap s) p) ≤ refs o)%Z
}.

(** The states a client reaches from the empty one by creating objects at
    fresh addresses (without a parent, or below an allocated parent whose
    count is not at its maximum), holding allocated objects, and releasing
    references of its own, on a platform with the given sizes and flags. *)
Inductive reachable (sizeof_obj : N) (VAR_STRING VAR_ISCOMMAND : Z)
  : state → Prop :=
| reach_init : reachable sizeof_obj VAR_STRING VAR_ISCOMMAND init_state
| reach_create s m p len ty s' :
    reachable sizeof_obj VAR_STRING VAR_ISCOMMAND s →
    m ≠ NULL → heap s !! m = None → (sizeof_obj ≤ len)%N →
    (p = NULL ∨ ∃ po, heap s !! p = Some po ∧ (refs po < UINT_MAX)%Z) →
    vlc_custom_create sizeof_obj VAR_STRING VAR_ISCOMMAND m p len ty s
      = Done m s' →
    reachable sizeof_obj VAR_STRING VAR_ISCOMMAND s'
| reach_hold s obj o s' :
    reachable sizeof_obj VAR_STRING VAR_ISCOMMAND s →
    heap s !! obj = Some o → (refs o < UINT_MAX)%Z →
    vlc_object_hold obj s = Done obj s' →
    reachable sizeof_obj VAR_STRING VAR_ISCOMMAND s'
| reach_release s obj s' :
    reachable sizeof_obj VAR_STRING VAR_ISCOMMAND s →
    owned s obj →
    vlc_object_release (size (heap s)) obj s = Done tt s' →
    reachable sizeof_obj VAR_STRING VAR_ISCOMMAND s'.

(** The root, then the root with one child, with their full traces. *)
Definition ex_reach_root : state :=
  final (ex_create 1%N NULL 16%N "libvlc" init_state).
Definition ex_reach_mid : state :=
  final (ex_create 2%N 1%N 24%N "mid" ex_reach_root).

(** ** The tree dump *)

(** [ObjectIsLastChild(obj, parent)]: the walk starts at the list node of
    [obj] and follows [next] to the end of the list; it is true when no
    later entry has [parent] as its parent.  The node of an object that is
    not linked in the list has no defined [next]. *)
Fixpoint last_child_loop (l : list N) (par : N) : M bool :=
  match l with
  | [] => ret true
  | node :: l' =>
      let* priv := vlc_internals node in
      if (parent priv =? par)%N then ret false else last_child_loop l' par
  end.

(** The entries of the list after the node of [obj], when it is linked. *)
Fixpoint nodes_after (obj : N) (l : list N) : option (list N) :=
  match l with
  | [] => None
  | q :: l' => if (q =? obj)%N then Some l' else nodes_after obj l'
  end.

Definition ObjectIsLastChild (obj par : N) : M bool :=
  let* l := get_tree_list in
  match nodes_after obj l with
  | Some rest => last_child_loop rest par
  | None => fail Undefined
  end.

(** What the dump writes to the standard output is the value the
    functions return: the pieces of a prefix, and one record per line
    (connector, address, type name, count). *)
Record dump_line := {
  line_prefix : list string;
  line_has_child : bool;
  line_obj : N;
  line_typename : string;
  line_refs : Z
}.

(** [PrintObjectPrefix(obj, last)]: the prefixes of the ancestors, from the
    top, then the piece of [obj] itself. *)
Fixpoint PrintObjectPrefix (fuel : nat) (obj : N) (last : bool)
  : M (list string) :=
  let* parent := vlc_object_parent obj in
  if (parent =? NULL)%N then ret []
  else
    match fuel with
    | O => fail OutOfFuel
    | S fuel' =>
        let* pre := PrintObjectPrefix fuel' parent false in
        let* is_last := ObjectIsLastChild obj parent in
        let str := if is_last then (if last then " └" else "  ")
                   else (if last then " ├" else " │") in
        ret (pre ++ [str])
    end.

Definition PrintObject (fuel : nat) (obj : N) : M dump_line :=
  emit EvSaveCancel;;
  let* pre := PrintObjectPrefix fuel obj true in
  let* has_child := ObjectHasChildLocked obj in
  let* ty := vlc_object_typename obj in
  let* r := atomic_load obj in
  emit EvRestoreCancel;;
  ret {| line_prefix := pre; line_has_child := has_child; line_obj := obj;
         line_typename := ty; line_refs := r |}.

(** Modelled from the spec: [msg_Warn], the logging macro of the headers
    (spec 6, the logger service): one message at warning severity. *)
Definition msg_Warn (obj : N) (text : string) : M unit :=
  emit (EvMsg obj MSG_WARN text).

(** The loop of [DumpStructure] over the global list: each child of [obj]
    is dumped by [dump], in list order. *)
Fixpoint dump_loop (dump : N → M (list dump_line)) (obj : N) (l : list N)
  : M (list dump_line) :=
  match l with
  | [] => ret []
  | pos :: l' =>
      let* priv := vlc_internals pos in
      if (parent priv =? obj)%N then
        let* lines := dump pos in
        let* rest := dump_loop dump obj l' in
        ret (lines ++ rest)
      else dump_loop dump obj l'
  end.

(** [DumpStructure(obj, level)]; [level] is an [unsigned]. *)
Fixpoint DumpStructure (fuel : nat) (obj : N) (level : Z)
  : M (list dump_line) :=
  match fuel with
  | O => fail OutOfFuel
  | S fuel' =>
      let* line := PrintObject fuel obj in
      if (100 <? level)%Z then
        msg_Warn obj "structure tree is too deep";;
        ret [line]
      else
        vlc_mutex_assert;;
        let* l := get_tree_list in
        let* rest :=
          dump_loop (λ pos, DumpStructure fuel' pos (uint (level + 1))) obj l in
        ret (line :: rest)
  end.

(** [TreeCommand]: the status, with the lines printed. *)
Definition TreeCommand (fuel : nat) (obj : N) : M (vlc_status * list dump_line) :=
  vlc_mutex_lock;;
  let* lines := DumpStructure fuel obj 0 in
  vlc_mutex_unlock;;
  ret (VLC_SUCCESS, lines).

(** [vlc_object_find_name]: the search by name is disabled. *)
Definition vlc_object_find_name (p_this : N) (psz_name : string) : M N :=
  ret NULL.

(** The root with children 2 and 4, and 3 below 2 (root → A, root → B,
    A → C). *)
Definition ex_four_state : state :=
  set_trace [] (final (ex_create 3%N 2%N 16%N "leaf" ex_siblings_state)).

(** ** The list and the allocated children *)

(** No entry of the list is repeated, and every allocated object that has
    a parent is in the list. *)
Definition list_inv (s : state) : Prop :=
  NoDup (tree_list s) ∧
  ∀ c o, heap s !! c = Some o → parent o ≠ NULL → c ∈ tree_list s.

(** Every entry of a list is allocated. *)
Definition all_allocated (s : state) (l : list N) : Prop :=
  ∀ c, c ∈ l → is_Some (heap s !! c).

(** ** Reading runs *)

(** Two states with the same memory, list and lock: they differ by their
    trace only. *)
Definition mem_eq (s s' : state) : Prop :=
  heap s' = heap s ∧ tree_list s' = tree_list s ∧ tree_lock s' = tree_lock s.

(** From any state with the memory of [s], the run of [m] returns [a],
    records [evs], and changes nothing else. *)
Definition reads {A} (s : state) (m : M A) (a : A) (evs : list event) : Prop :=
  ∀ s', mem_eq s s' → m s' = Done a (add_trace evs s').

(** [obj] is allocated and has [d] ancestors, and every object on the way
    up that has a parent is linked in the list. *)
Inductive chain (s : state) : N → nat → Prop :=
| chain_root obj o :
    heap s !! obj = Some o → parent o = NULL → chain s obj 0
| chain_step obj o d :
    heap s !! obj = Some o → parent o ≠ NULL → obj ∈ tree_list s →
    chain s (parent o) d → chain s obj (S d).

(** The objects of the tree below [obj], parents before children, children
    in list order, down to [n] levels. *)
Fixpoint preorder (n : nat) (h : gmap N vlc_object_internals_t)
    (l : list N) (obj : N) : list N :=
  match n with
  | O => []
  | S n' => obj :: concat (map (preorder n' h l) (children_of h l obj))
  end.

(** What a line of the dump says about its object, in state [s]. *)
Definition line_ok (s : state) (line : dump_line) : Prop :=
  ∃ o, heap s !! line_obj line = Some o ∧
       line_typename line = typename o ∧
       line_refs line = refs o ∧
       line_has_child line =
         bool_decide (children_of (heap s) (tree_list s) (line_obj line) ≠ []) ∧
       chain s (line_obj line) (length (line_prefix line)).

(** The events of [n] printed lines. *)
Definition print_events (n : nat) : list event :=
  concat (replicate n [EvSaveCancel; EvRestoreCancel]).

(** ** What never changes *)

(** An object header without its count and its variables: the type name,
    the teardown hook, the resources, the parent, the logger, the flags
    and the payload. *)
Definition identity (o : vlc_object_internals_t) : vlc_object_internals_t :=
  set_var_root [] (set_refs 0 o).

(** Every object allocated in [s'] was allocated in [s] with the same
    identity, and the list of [s'] is the list of [s] with some entries
    removed. *)
Definition keeps_identity (s s' : state) : Prop :=
  (∀ p o', heap s' !! p = Some o' →
           ∃ o, heap s !! p = Some o ∧ identity o' = identity o) ∧
  tree_list s' `sublist_of` tree_list s.

(** ** Parents form no cycle *)

(** The allocated objects can be ranked below a bound so that every object
    ranks above its parent. *)
Definition ranked (h : gmap N vlc_object_internals_t) : Prop :=
  ∃ (rank : N → nat) (B : nat),
    ∀ c o, h !! c = Some o →
           rank c < B ∧ (parent o ≠ NULL → rank (parent o) < rank c).

(** ** Lock discipline *)

(** Started with the lock in state [b], a run of [m] that returns leaves
    the lock in state [b'], and no run of [m] locks the lock it holds. *)
Definition lock_trans {A} (b b' : bool) (m : M A) : Prop :=
  ∀ s, tree_lock s = b →
       match m s with
       | Done _ s' => tree_lock s' = b'
       | Abort f _ => f ≠ Deadlock
       end.

(** The lock after a run: in state [b'] if the run returns, and the run
    has not stopped on locking the lock it holds. *)
Definition lock_after {A} (b' : bool) (o : outcome A) : Prop :=
  match o with
  | Done _ s' => tree_lock s' = b'
  | Abort f _ => f ≠ Deadlock
  end.

(** ** What a release destroys *)

(** The objects that the release of a reference on [obj] destroys, read in
    the memory before the call: [obj] when its count is not above one,
    then its parent when that count is not above one either, and so on up
    to an object that keeps references or has no parent. *)
Fixpoint released (n : nat) (h : gmap N vlc_object_internals_t) (obj : N)
  : list N :=
  match n with
  | O => []
  | S n' =>
      match h !! obj with
      | Some o =>
          if (1 <? refs o)%Z then []
          else obj :: (if (parent o =? NULL)%N then []
                       else released n' h (parent o))
      | None => []
      end
  end.

(** The object above them that keeps references, if there is one. *)
Fixpoint survivor (n : nat) (h : gmap N vlc_object_internals_t) (obj : N)
  : option N :=
  match n with
  | O => None
  | S n' =>
      match h !! obj with
      | Some o =>
          if (1 <? refs o)%Z then Some obj
          else if (parent o =? NULL)%N then None
               else survivor n' h (parent o)
      | None => None
      end
  end.

(** The root held by its child only, after the client has released its
    own reference on the root. *)
Definition ex_orphan_state : state :=
  final (vlc_object_release 2 1%N ex_reach_mid).

(** ** The references that clients hold *)

(** One reference more, one reference fewer on [obj] in a table of the
    references that clients hold on each object. *)
Definition ext_add (obj : N) (ext : N → nat) : N → nat :=
  λ q, if decide (q = obj) then S (ext q) else ext q.
Definition ext_sub (obj : N) (ext : N → nat) : N → nat :=
  λ q, if decide (q = obj) then pred (ext q) else ext q.

(** The states that clients reach from the empty one, with the table of
    the references they hold: a creation at a fresh address (without a
    parent, or below an allocated parent whose count is not at its
    maximum) gives its caller one reference on the new object, a hold of
    an allocated object one more, and a release gives back a reference
    that a client holds. *)
Inductive client_run (sizeof_obj : N) (VAR_STRING VAR_ISCOMMAND : Z)
  : state → (N → nat) → Prop :=
| run_init : client_run sizeof_obj VAR_STRING VAR_ISCOMMAND init_state (λ _, 0)
| run_create s ext m p len ty s' :
    client_run sizeof_obj VAR_STRING VAR_ISCOMMAND s ext →
    m ≠ NULL → heap s !! m = None → (sizeof_obj ≤ len)%N →
    (p = NULL ∨ ∃ po, heap s !! p = Some po ∧ (refs po < UINT_MAX)%Z) →
    vlc_custom_create sizeof_obj VAR_STRING VAR_ISCOMMAND m p len ty s
      = Done m s' →
    client_run sizeof_obj VAR_STRING VAR_ISCOMMAND s' (ext_add m ext)
| run_hold s ext obj o s' :
    client_run sizeof_obj VAR_STRING VAR_ISCOMMAND s ext →
    heap s !! obj = Some o → (refs o < UINT_MAX)%Z →
    vlc_object_hold obj s = Done obj s' →
    client_run sizeof_obj VAR_STRING VAR_ISCOMMAND s' (ext_add obj ext)
| run_release s ext obj s' :
    client_run sizeof_obj VAR_STRING VAR_ISCOMMAND s ext →
    0 < ext obj →
    vlc_object_release (size (heap s)) obj s = Done tt s' →
    client_run sizeof_obj VAR_STRING VAR_ISCOMMAND s' (ext_sub obj ext).

(** The count of every allocated object is the number of references that
    clients hold on it plus one for each of its children; clients hold no
    reference on what is not allocated. *)
Definition counted (s : state) (ext : N → nat) : Prop :=
  ∀ p, match heap s !! p with
       | Some o =>
           refs o =
             (Z.of_nat (ext p) + Z.of_nat (children_count (heap s) p))%Z
       | None => ext p = 0
       end.

(** The root, a child of the root and a child of that child, after the
    client has given back its reference on the middle object. *)
Definition ex_client_leaf : state :=
  final (ex_create 3%N 2%N 16%N "leaf" ex_reach_mid).
Definition ex_client_state : state :=
  final (vlc_object_release 3 2%N ex_client_leaf).
Definition ex_client_ext : N → nat :=
  ext_sub 2%N (ext_add 3%N (ext_add 2%N (ext_add 1%N (λ _, 0)))).

(** * Properties *)

(** ** Basic facts *)

Lemma uint_small (z : Z) : (0 ≤ z ≤ UINT_MAX)%Z → uint z = z.
Proof. intros H. unfold uint. apply Z.mod_small. unfold UINT_MAX in *. lia. Qed.

Lemma vlc_internals_Some s obj priv :
  heap s !! obj = Some priv → vlc_internals obj s = Done priv s.
Proof. intros H. unfold vlc_internals. by rewrite H. Qed.

Lemma vlc_internals_None s obj :
  heap s !! obj = None → vlc_internals obj s = Abort Undefined s.
Proof. intros H. unfold vlc_internals. by rewrite H. Qed.

Lemma bind_Done {A B} (m : M A) (k : A → M B) s a s' :
  m s = Done a s' → bind m k s = k a s'.
Proof. intros H. unfold bind. by rewrite H. Qed.

Lemma bind_Abort {A B} (m : M A) (k : A → M B) s f s' :
  m s = Abort f s' → bind m k s = Abort f s'.
Proof. intros H. unfold bind. by rewrite H. Qed.

Lemma atomic_fetch_add_Some s obj priv n :
  heap s !! obj = Some priv →
  atomic_fetch_add obj n s =
    Done (refs priv)
         (add_trace [EvFetchAdd obj (refs priv)]
            (ref_update obj priv (uint (refs priv + n)) s)).
Proof.
  intros H. unfold atomic_fetch_add.
  rewrite (bind_Done _ _ _ _ _ (vlc_internals_Some _ _ _ H)). reflexivity.
Qed.

Lemma atomic_fetch_sub_Some s obj priv n :
  heap s !! obj = Some priv →
  atomic_fetch_sub obj n s =
    Done (refs priv)
         (add_trace [EvFetchSub obj (refs priv)]
            (ref_update obj priv (uint (refs priv - n)) s)).
Proof.
  intros H. unfold atomic_fetch_sub.
  rewrite (bind_Done _ _ _ _ _ (vlc_internals_Some _ _ _ H)). reflexivity.
Qed.

Lemma vlc_object_hold_Some s obj priv :
  heap s !! obj = Some priv → (0 < refs priv)%Z →
  vlc_object_hold obj s =
    Done obj (add_trace [EvFetchAdd obj (refs priv)]
                (ref_update obj priv (uint (refs priv + 1)) s)).
Proof.
  intros H Hr. unfold vlc_object_hold.
  rewrite (bind_Done _ _ _ _ _ (atomic_fetch_add_Some _ _ _ 1 H)).
  assert ((0 <? refs priv)%Z = true) as -> by (apply Z.ltb_lt; lia).
  reflexivity.
Qed.

Lemma vlc_object_hold_zero s obj priv :
  heap s !! obj = Some priv → (refs priv ≤ 0)%Z →
  vlc_object_hold obj s =
    Abort AssertionFailed
          (add_trace [EvFetchAdd obj (refs priv)]
             (ref_update obj priv (uint (refs priv + 1)) s)).
Proof.
  intros H Hr. unfold vlc_object_hold.
  rewrite (bind_Done _ _ _ _ _ (atomic_fetch_add_Some _ _ _ 1 H)).
  assert ((0 <? refs priv)%Z = false) as -> by (apply Z.ltb_ge; lia).
  reflexivity.
Qed.

Lemma vlc_object_destroy_Some s p priv :
  heap s !! p = Some priv → resources priv = NULL →
  vlc_object_destroy p s =
    Done tt (add_trace (destroy_events p priv)
               (set_heap (delete p (heap s)) s)).
Proof.
  intros H Hres. unfold vlc_object_destroy.
  rewrite (bind_Done _ _ _ _ _ (vlc_internals_Some _ _ _ H)).
  rewrite Hres. unfold destroy_events.
  destruct priv as [ty vars r d res par lg ni fo pl]; simpl in *.
  destruct s as [h l lk tr].
  unfold bind, assert, ret, emit, var_DelCallback, var_DestroyAll, store,
    vlc_internals, free, add_trace, set_trace, set_heap, bind; simpl.
  simpl in H.
  destruct d as [f|]; destruct (par =? NULL)%N; simpl;
    rewrite ?H; simpl;
    rewrite ?lookup_insert_eq; simpl;
    rewrite ?lookup_insert_eq; simpl;
    rewrite ?delete_insert_eq, <- ?app_assoc; reflexivity.
Qed.

Lemma vlc_object_destroy_resources s p priv :
  heap s !! p = Some priv → resources priv ≠ NULL →
  vlc_object_destroy p s = Abort AssertionFailed s.
Proof.
  intros H Hres. unfold vlc_object_destroy.
  rewrite (bind_Done _ _ _ _ _ (vlc_internals_Some _ _ _ H)).
  assert ((resources priv =? NULL)%N = false) as Hb by by apply N.eqb_neq.
  unfold bind, assert. by rewrite Hb.
Qed.

Lemma has_child_loop_false (l : list N) obj s :
  (∀ c, c ∈ l → ∃ o, heap s !! c = Some o ∧ parent o ≠ obj) →
  has_child_loop l obj s = Done false s.
Proof.
  induction l as [|c l IH]; intros H; simpl; [reflexivity|].
  destruct (H c) as (o & Ho & Hp); [left|].
  rewrite (bind_Done _ _ _ _ _ (vlc_internals_Some _ _ _ Ho)).
  assert ((parent o =? obj)%N = false) as -> by by apply N.eqb_neq.
  apply IH. intros c' Hc'. apply H. by right.
Qed.

Lemma ObjectHasChild_false s obj :
  tree_lock s = false →
  (∀ c, c ∈ tree_list s → ∃ o, heap s !! c = Some o ∧ parent o ≠ obj) →
  ObjectHasChild obj s = Done false (add_trace [EvMutexLock; EvMutexUnlock] s).
Proof.
  intros Hl H. unfold ObjectHasChild, ObjectHasChildLocked.
  unfold bind at 1. unfold vlc_mutex_lock. rewrite Hl.
  unfold bind at 1. unfold bind at 1. unfold get_tree_list at 1.
  rewrite has_child_loop_false by exact H.
  unfold vlc_mutex_unlock, bind, ret, add_trace, set_trace, set_tree_lock; simpl.
  destruct s; simpl in *; subst. by rewrite <- app_assoc.
Qed.

(** *** The fast path *)

Lemma fast_path_le n obj r s :
  (r ≤ 1)%Z → fast_path n obj r s = Done (false, r) s.
Proof.
  intros Hr. destruct n; simpl;
    (assert ((1 <? r)%Z = false) as -> by (apply Z.ltb_ge; lia)); reflexivity.
Qed.

Lemma fast_path_gt n obj priv s :
  heap s !! obj = Some priv → (1 < refs priv)%Z →
  fast_path (S n) obj (refs priv) s =
    Done (true, refs priv)
         (add_trace [EvCasDec obj (refs priv)]
            (ref_update obj priv (uint (refs priv - 1)) s)).
Proof.
  intros H Hr. simpl.
  assert ((1 <? refs priv)%Z = true) as -> by (apply Z.ltb_lt; lia).
  unfold atomic_compare_exchange_weak.
  unfold bind at 1. unfold bind at 1. rewrite (vlc_internals_Some _ _ _ H).
  rewrite Z.eqb_refl. reflexivity.
Qed.

Lemma vlc_object_release_unfold fuel obj :
  vlc_object_release (S fuel) obj =
  (let* refs := atomic_load obj in
   let* (returned, _) := fast_path (S fuel) obj refs in
   if returned then ret tt
   else
     let* parent := vlc_object_parent obj in
     if (parent =? NULL)%N then
       let* refs := atomic_fetch_sub obj 1 in
       assert (refs =? 1)%Z;;
       let* has_child := ObjectHasChild obj in
       assert (negb has_child);;
       vlc_object_destroy obj
     else
       vlc_mutex_lock;;
       let* refs := atomic_fetch_sub obj 1 in
       assert (0 <? refs)%Z;;
       (if (refs =? 1)%Z then vlc_list_remove obj else ret tt);;
       vlc_mutex_unlock;;
       if (refs =? 1)%Z then
         let* has_child := ObjectHasChild obj in
         assert (negb has_child);;
         vlc_object_destroy obj;;
         vlc_object_release fuel parent
       else ret tt).
Proof. reflexivity. Qed.

Lemma atomic_load_Some s obj priv :
  heap s !! obj = Some priv → atomic_load obj s = Done (refs priv) s.
Proof.
  intros H. unfold atomic_load.
  by rewrite (bind_Done _ _ _ _ _ (vlc_internals_Some _ _ _ H)).
Qed.

Lemma vlc_object_parent_Some s obj priv :
  heap s !! obj = Some priv → vlc_object_parent obj s = Done (parent priv) s.
Proof.
  intros H. unfold vlc_object_parent.
  by rewrite (bind_Done _ _ _ _ _ (vlc_internals_Some _ _ _ H)).
Qed.

(** A release of an object whose count is above one: the fast path. *)
Lemma release_fast s obj priv fuel :
  heap s !! obj = Some priv → (1 < refs priv)%Z →
  vlc_object_release (S fuel) obj s =
    Done tt (add_trace [EvCasDec obj (refs priv)]
               (ref_update obj priv (uint (refs priv - 1)) s)).
Proof.
  intros H Hr. rewrite vlc_object_release_unfold.
  rewrite (bind_Done _ _ _ _ _ (atomic_load_Some _ _ _ H)).
  rewrite (bind_Done _ _ _ _ _ (fast_path_gt fuel _ _ _ H Hr)).
  reflexivity.
Qed.

Lemma no_children_removed s obj priv r :
  no_children s obj →
  ∀ c, c ∈ filter (λ q, q ≠ obj) (tree_list s) →
       ∃ o, <[obj := set_refs r priv]> (heap s) !! c = Some o ∧ parent o ≠ obj.
Proof.
  intros H c Hc. apply list_elem_of_filter in Hc as [Hne Hc].
  destruct (H c Hc Hne) as (o & Ho & Hp). exists o.
  by rewrite lookup_insert_ne.
Qed.

Lemma vlc_mutex_lock_free s :
  tree_lock s = false →
  vlc_mutex_lock s = Done tt (add_trace [EvMutexLock] (set_tree_lock true s)).
Proof. intros H. unfold vlc_mutex_lock. by rewrite H. Qed.

Lemma vlc_mutex_unlock_held s :
  tree_lock s = true →
  vlc_mutex_unlock s =
    Done tt (add_trace [EvMutexUnlock] (set_tree_lock false s)).
Proof. intros H. unfold vlc_mutex_unlock. by rewrite H. Qed.

Lemma assert_true s : assert true s = Done tt s.
Proof. reflexivity. Qed.

Lemma assert_false s : assert false s = Abort AssertionFailed s.
Proof. reflexivity. Qed.

(** One step of a run: the first computation of a sequence returns. *)
Ltac mstep E := rewrite (bind_Done _ _ _ _ _ E); cbv beta.

(** The last release of a child: everything up to the release of the
    parent. *)
Lemma release_last_child s obj priv fuel :
  heap s !! obj = Some priv → refs priv = 1%Z → parent priv ≠ NULL →
  tree_lock s = false → resources priv = NULL → no_children s obj →
  vlc_object_release (S fuel) obj s =
    vlc_object_release fuel (parent priv) (after_last_release obj priv s).
Proof.
  intros H Hr Hp Hl Hres Hch. rewrite vlc_object_release_unfold.
  assert (refs priv ≤ 1)%Z as Hle by lia.
  mstep (atomic_load_Some _ _ _ H).
  mstep (fast_path_le (S fuel) obj _ s Hle).
  mstep (vlc_object_parent_Some _ _ _ H).
  assert ((parent priv =? NULL)%N = false) as -> by by apply N.eqb_neq.
  mstep (vlc_mutex_lock_free _ Hl).
  mstep (atomic_fetch_sub_Some (add_trace [EvMutexLock] (set_tree_lock true s))
           obj priv 1 H).
  rewrite Hr. change (0 <? 1)%Z with true. change (1 =? 1)%Z with true.
  cbv iota.
  mstep (assert_true (add_trace [EvFetchSub obj 1]
          (ref_update obj priv (uint (1 - 1))
             (add_trace [EvMutexLock] (set_tree_lock true s))))).
  erewrite bind_Done by reflexivity. cbv beta.
  erewrite bind_Done by (by apply vlc_mutex_unlock_held). cbv beta.
  erewrite bind_Done; cycle 1.
  { apply ObjectHasChild_false; [reflexivity|].
    simpl. apply (no_children_removed s obj priv). exact Hch. }
  cbv beta. simpl negb.
  erewrite bind_Done by apply assert_true. cbv beta.
  erewrite bind_Done; cycle 1.
  { apply (vlc_object_destroy_Some _ _ (set_refs (uint (1 - 1)) priv)).
    - simpl. apply lookup_insert_eq.
    - exact Hres. }
  cbv beta. f_equal.
  unfold after_last_release, add_trace, set_trace, set_heap,
    set_tree_list, set_tree_lock, ref_update. simpl.
  rewrite delete_insert_eq. rewrite <- !app_assoc. simpl.
  destruct s; simpl in *; subst.
  unfold destroy_events. simpl. reflexivity.
Qed.

Lemma has_child_loop_true (l1 l2 : list N) c o obj s :
  (∀ q, q ∈ l1 → ∃ oq, heap s !! q = Some oq ∧ parent oq ≠ obj) →
  heap s !! c = Some o → parent o = obj →
  has_child_loop (l1 ++ c :: l2) obj s = Done true s.
Proof.
  induction l1 as [|q l1 IH]; intros H Hc Hp; simpl.
  - mstep (vlc_internals_Some _ _ _ Hc). by rewrite Hp, N.eqb_refl.
  - destruct (H q) as (oq & Hq & Hpq); [left|].
    mstep (vlc_internals_Some _ _ _ Hq).
    assert ((parent oq =? obj)%N = false) as -> by by apply N.eqb_neq.
    apply IH; [|done..]. intros q' Hq'. apply H. by right.
Qed.

(** The last release of a parentless object. *)
Lemma release_last_root s obj priv fuel :
  heap s !! obj = Some priv → refs priv = 1%Z → parent priv = NULL →
  obj ≠ NULL → tree_lock s = false → resources priv = NULL →
  no_children s obj →
  vlc_object_release (S fuel) obj s =
    Done tt (add_trace ([EvFetchSub obj 1; EvMutexLock; EvMutexUnlock] ++
                        destroy_events obj priv)
               (set_heap (delete obj (heap s)) s)).
Proof.
  intros H Hr Hp Hnn Hl Hres Hch. rewrite vlc_object_release_unfold.
  assert (refs priv ≤ 1)%Z as Hle by lia.
  mstep (atomic_load_Some _ _ _ H).
  mstep (fast_path_le (S fuel) obj _ s Hle).
  mstep (vlc_object_parent_Some _ _ _ H).
  rewrite Hp. change (NULL =? NULL)%N with true. cbv iota.
  mstep (atomic_fetch_sub_Some s obj priv 1 H).
  rewrite Hr. change (1 =? 1)%Z with true.
  erewrite bind_Done by apply assert_true. cbv beta.
  erewrite bind_Done; cycle 1.
  { apply ObjectHasChild_false; [exact Hl|].
    simpl. intros c Hc. destruct (decide (c = obj)) as [->|Hne].
    - eexists. rewrite lookup_insert_eq. split; [reflexivity|].
      simpl. rewrite Hp. congruence.
    - destruct (Hch c Hc Hne) as (o & Ho & Hpo). exists o.
      by rewrite lookup_insert_ne. }
  cbv beta. simpl negb.
  erewrite bind_Done by apply assert_true. cbv beta.
  erewrite (vlc_object_destroy_Some _ _ (set_refs (uint (1 - 1)) priv));
    cycle 1.
  { simpl. apply lookup_insert_eq. }
  { exact Hres. }
  f_equal.
  unfold add_trace, set_trace, set_heap, ref_update. simpl.
  rewrite delete_insert_eq. rewrite <- !app_assoc. simpl.
  destruct s; simpl in *; subst. reflexivity.
Qed.

(** A parentless object released at count zero fails the assertion. *)
Lemma release_root_zero s obj priv fuel :
  heap s !! obj = Some priv → refs priv = 0%Z → parent priv = NULL →
  vlc_object_release (S fuel) obj s =
    Abort AssertionFailed
      (add_trace [EvFetchSub obj 0] (ref_update obj priv UINT_MAX s)).
Proof.
  intros H Hr Hp. rewrite vlc_object_release_unfold.
  assert (refs priv ≤ 1)%Z as Hle by lia.
  mstep (atomic_load_Some _ _ _ H).
  mstep (fast_path_le (S fuel) obj _ s Hle).
  mstep (vlc_object_parent_Some _ _ _ H).
  rewrite Hp. change (NULL =? NULL)%N with true. cbv iota.
  mstep (atomic_fetch_sub_Some s obj priv 1 H).
  rewrite Hr. reflexivity.
Qed.

(** ** Hold and release *)

(** C4: on an allocated object whose count is at least one,
    [vlc_object_hold] adds one to the count (an [unsigned] addition, exact
    below [UINT_MAX]) and returns the pointer it was given; on an object
    whose count is zero it fails its assertion. *)
Theorem vlc_object_hold_spec s p_this priv :
  heap s !! p_this = Some priv → (0 ≤ refs priv)%Z →
  vlc_object_hold p_this s =
    (if (0 <? refs priv)%Z then Done p_this else Abort AssertionFailed)
      (add_trace [EvFetchAdd p_this (refs priv)]
         (ref_update p_this priv (uint (refs priv + 1)) s))
  ∧ ((refs priv < UINT_MAX)%Z → uint (refs priv + 1) = (refs priv + 1)%Z).
Proof.
  intros H Hr. split.
  - destruct (0 <? refs priv)%Z eqn:E.
    + apply vlc_object_hold_Some; [done|]. by apply Z.ltb_lt.
    + apply vlc_object_hold_zero; [done|]. by apply Z.ltb_ge.
  - intros Hm. apply uint_small. lia.
Qed.

Lemma vlc_object_hold_spec_witness :
  heap ex_leaf_state !! 2%N = Some (ex_obj "mid" [] 2 1%N 8) ∧
  vlc_object_hold 2%N ex_leaf_state =
    Done 2%N (add_trace [EvFetchAdd 2%N 2]
                (ref_update 2%N (ex_obj "mid" [] 2 1%N 8) 3 ex_leaf_state)).
Proof.
  split; [by vm_compute|].
  apply (vlc_object_hold_spec ex_leaf_state 2%N (ex_obj "mid" [] 2 1%N 8));
    [by vm_compute | simpl; lia].
Defined.

(** C2: a release of an object whose count is above one takes the fast
    path: one compare-exchange lowers the count by one and the function
    returns; the lock, the global list and every other object are left as
    they were, and nothing is destroyed. *)
Theorem release_above_one_decrements s obj priv fuel :
  heap s !! obj = Some priv → (1 < refs priv ≤ UINT_MAX)%Z →
  vlc_object_release (S fuel) obj s =
    Done tt (add_trace [EvCasDec obj (refs priv)]
               (ref_update obj priv (refs priv - 1) s)).
Proof.
  intros H [Hr Hm]. rewrite (release_fast s obj priv fuel H Hr).
  rewrite uint_small by lia. reflexivity.
Qed.

Lemma release_above_one_decrements_witness :
  heap ex_leaf_state !! 2%N = Some (ex_obj "mid" [] 2 1%N 8) ∧
  vlc_object_release 1 2%N ex_leaf_state =
    Done tt (add_trace [EvCasDec 2%N 2]
               (ref_update 2%N (ex_obj "mid" [] 2 1%N 8) 1 ex_leaf_state)).
Proof.
  split; [by vm_compute|].
  apply (release_above_one_decrements ex_leaf_state 2%N
           (ex_obj "mid" [] 2 1%N 8) 0); [by vm_compute|].
  simpl. unfold UINT_MAX. lia.
Defined.

(** C1: the release of a child.  When the count is one, the run is: lock,
    decrement, removal from the global list, unlock, the assertion that no
    child is left (which takes the lock once more), the destruction, and
    then one release of the parent from the state so reached.  When the
    count is above one, the run is the single compare-exchange: no removal,
    no destruction, no release of the parent. *)
Theorem release_child_steps s obj priv fuel :
  heap s !! obj = Some priv → parent priv ≠ NULL →
  (1 ≤ refs priv ≤ UINT_MAX)%Z → tree_lock s = false →
  (refs priv = 1%Z → resources priv = NULL ∧ no_children s obj) →
  vlc_object_release (S fuel) obj s =
    if (refs priv =? 1)%Z
    then vlc_object_release fuel (parent priv)
           (after_last_release obj priv s)
    else Done tt (add_trace [EvCasDec obj (refs priv)]
                    (ref_update obj priv (refs priv - 1) s)).
Proof.
  intros H Hp [Hr Hm] Hl Hlast.
  destruct (refs priv =? 1)%Z eqn:E.
  - apply Z.eqb_eq in E. destruct (Hlast E) as [Hres Hch].
    by apply release_last_child.
  - apply Z.eqb_neq in E.
    rewrite (release_fast s obj priv fuel H) by lia.
    rewrite uint_small by lia. reflexivity.
Qed.

Lemma ex_leaf_no_children : no_children ex_leaf_state 3%N.
Proof.
  intros c Hc Hne. change (tree_list ex_leaf_state) with [2%N; 3%N] in Hc.
  apply elem_of_cons in Hc as [->|Hc].
  - exists (ex_obj "mid" [] 2 1%N 8). split; [by vm_compute | done].
  - apply list_elem_of_singleton in Hc. congruence.
Qed.

Lemma release_child_steps_witness :
  heap ex_leaf_state !! 3%N = Some (ex_obj "leaf" [] 1 2%N 0) ∧
  vlc_object_release 2 3%N ex_leaf_state =
    vlc_object_release 1 2%N
      (after_last_release 3%N (ex_obj "leaf" [] 1 2%N 0) ex_leaf_state).
Proof.
  split; [by vm_compute|].
  pose proof (release_child_steps ex_leaf_state 3%N
                (ex_obj "leaf" [] 1 2%N 0) 1) as H.
  assert (heap ex_leaf_state !! 3%N = Some (ex_obj "leaf" [] 1 2%N 0)) as H1
    by by vm_compute.
  assert (parent (ex_obj "leaf" [] 1 2%N 0) ≠ NULL) as H2 by done.
  assert (1 ≤ refs (ex_obj "leaf" [] 1 2%N 0) ≤ UINT_MAX)%Z as H3
    by (simpl; unfold UINT_MAX; lia).
  assert (tree_lock ex_leaf_state = false) as H4 by reflexivity.
  specialize (H H1 H2 H3 H4
                (λ _, conj eq_refl ex_leaf_no_children)).
  vm_compute in H. vm_compute. exact H.
Defined.

(** ** Each object is destroyed once *)

Lemma free_count_app p evs1 evs2 :
  free_count p (evs1 ++ evs2) = free_count p evs1 + free_count p evs2.
Proof. unfold free_count. by rewrite filter_app, length_app. Qed.

Lemma free_count_destroy_events q p priv :
  free_count q (destroy_events p priv) = if decide (q = p) then 1 else 0.
Proof.
  unfold destroy_events, free_count.
  destruct (pf_destructor priv); destruct (parent priv =? NULL)%N; simpl;
    repeat (rewrite filter_cons; case_decide; [congruence|]);
    rewrite filter_cons; repeat case_decide; simpl; congruence.
Qed.

Lemma frees_exact_refl s : frees_exact s s.
Proof.
  exists []. split; [by rewrite app_nil_r|].
  intros p. split; [|done]. by destruct (heap s !! p).
Qed.

Lemma frees_exact_trans s1 s2 s3 :
  frees_exact s1 s2 → frees_exact s2 s3 → frees_exact s1 s3.
Proof.
  intros (e1 & Ht1 & H1) (e2 & Ht2 & H2). exists (e1 ++ e2). split.
  - by rewrite Ht2, Ht1, app_assoc.
  - intros p. destruct (H1 p) as [Hc1 Hm1]. destruct (H2 p) as [Hc2 Hm2].
    rewrite free_count_app, Hc1, Hc2. split.
    + destruct (heap s1 !! p), (heap s2 !! p) eqn:E2, (heap s3 !! p) eqn:E3;
        try reflexivity; try (by specialize (Hm2 eq_refl));
        try (by specialize (Hm1 eq_refl)).
    + auto.
Qed.

(** A step that keeps the set of allocated addresses and records no free. *)
Lemma frees_exact_same_dom s s' evs :
  trace s' = trace s ++ evs → (∀ p, free_count p evs = 0) →
  (∀ p, heap s !! p = None ↔ heap s' !! p = None) →
  frees_exact s s'.
Proof.
  intros Ht Hc Hd. exists evs. split; [done|]. intros p. rewrite Hc.
  split; [|apply Hd].
  destruct (heap s !! p) eqn:E1, (heap s' !! p) eqn:E2; try done.
  apply Hd in E2. congruence.
Qed.

Lemma insert_same_dom (h : gmap N vlc_object_internals_t) obj o x p :
  h !! obj = Some o → h !! p = None ↔ <[obj := x]> h !! p = None.
Proof.
  intros H. destruct (decide (p = obj)) as [->|Hne].
  - rewrite lookup_insert_eq, H. split; intros; discriminate.
  - by rewrite lookup_insert_ne.
Qed.

Lemma steps_bind {A B} (R : state → state → Prop) (m : M A) (k : A → M B) :
  (∀ s1 s2 s3, R s1 s2 → R s2 s3 → R s1 s3) →
  steps R m → (∀ a, steps R (k a)) → steps R (bind m k).
Proof.
  intros Htr Hm Hk s. unfold bind. specialize (Hm s).
  destruct (m s) as [a s1|f s1]; simpl in *; [|done].
  eapply Htr; [exact Hm | apply Hk].
Qed.

Lemma steps_then {A B} (m : M A) (k : A → M B) :
  steps frees_exact m → (∀ a, steps frees_exact (k a)) →
  steps frees_exact (bind m k).
Proof. apply steps_bind, frees_exact_trans. Qed.

Lemma steps_ret {A} (a : A) : steps frees_exact (ret a).
Proof. intros s. apply frees_exact_refl. Qed.

Lemma steps_fail {A} f : steps frees_exact (@fail A f).
Proof. intros s. apply frees_exact_refl. Qed.

Lemma steps_assert b : steps frees_exact (assert b).
Proof. destruct b; [apply steps_ret | apply steps_fail]. Qed.

Lemma steps_vlc_internals obj : steps frees_exact (vlc_internals obj).
Proof.
  intros s. unfold vlc_internals.
  destruct (heap s !! obj); apply frees_exact_refl.
Qed.

Lemma steps_get_tree_list : steps frees_exact get_tree_list.
Proof. intros s. apply frees_exact_refl. Qed.

Lemma free_count_single p e : is_free e = false → free_count p [e] = 0.
Proof.
  intros H. unfold free_count. rewrite filter_cons.
  case_decide; [subst; discriminate | reflexivity].
Qed.

Lemma steps_emit e : is_free e = false → steps frees_exact (emit e).
Proof.
  intros H s. apply (frees_exact_same_dom _ _ [e]); [done| |done].
  intros p. by apply free_count_single.
Qed.

Lemma steps_vlc_mutex_lock : steps frees_exact vlc_mutex_lock.
Proof.
  intros s. unfold vlc_mutex_lock. destruct (tree_lock s);
    [apply frees_exact_refl|].
  apply (frees_exact_same_dom _ _ [EvMutexLock]); [done| |done].
  intros p. by apply free_count_single.
Qed.

Lemma steps_vlc_mutex_unlock : steps frees_exact vlc_mutex_unlock.
Proof.
  intros s. unfold vlc_mutex_unlock. destruct (tree_lock s);
    [|apply frees_exact_refl].
  apply (frees_exact_same_dom _ _ [EvMutexUnlock]); [done| |done].
  intros p. by apply free_count_single.
Qed.

Lemma steps_vlc_list_remove obj : steps frees_exact (vlc_list_remove obj).
Proof.
  intros s. apply (frees_exact_same_dom _ _ [EvListRemove obj]); [done| |done].
  intros p. by apply free_count_single.
Qed.

(** Reading a header and writing it back changed: the shape of every
    update in this file. *)
Lemma steps_update {A} obj (g : vlc_object_internals_t → vlc_object_internals_t)
    (k : vlc_object_internals_t → M A) :
  (∀ priv, steps frees_exact (k priv)) →
  steps frees_exact
    (bind (vlc_internals obj) (λ priv, bind (store obj (g priv)) (λ _, k priv))).
Proof.
  intros Hk s. unfold bind at 1. unfold vlc_internals.
  destruct (heap s !! obj) as [priv|] eqn:E; [|apply frees_exact_refl].
  unfold bind, store.
  eapply frees_exact_trans; [|apply Hk].
  apply (frees_exact_same_dom _ _ []); simpl.
  - by rewrite app_nil_r.
  - done.
  - intros p. by apply insert_same_dom with priv.
Qed.

Lemma steps_atomic_load obj : steps frees_exact (atomic_load obj).
Proof.
  apply steps_then; [apply steps_vlc_internals | intros; apply steps_ret].
Qed.

Lemma steps_atomic_fetch_add obj n : steps frees_exact (atomic_fetch_add obj n).
Proof.
  apply steps_update. intros priv.
  apply steps_then; [by apply steps_emit | intros; apply steps_ret].
Qed.

Lemma steps_atomic_fetch_sub obj n : steps frees_exact (atomic_fetch_sub obj n).
Proof.
  apply steps_update. intros priv.
  apply steps_then; [by apply steps_emit | intros; apply steps_ret].
Qed.

Lemma steps_atomic_compare_exchange_weak obj e d :
  steps frees_exact (atomic_compare_exchange_weak obj e d).
Proof.
  intros s. unfold atomic_compare_exchange_weak, bind at 1, vlc_internals.
  destruct (heap s !! obj) as [priv|] eqn:E; [|apply frees_exact_refl].
  destruct (refs priv =? e)%Z; [|apply frees_exact_refl].
  apply (frees_exact_same_dom _ _ [EvCasDec obj e]); simpl; [done| |].
  - intros p. by apply free_count_single.
  - intros p. by apply insert_same_dom with priv.
Qed.

Lemma steps_vlc_object_hold obj : steps frees_exact (vlc_object_hold obj).
Proof.
  apply steps_then; [apply steps_atomic_fetch_add | intros r].
  apply steps_then; [apply steps_assert | intros; apply steps_ret].
Qed.

Lemma steps_has_child_loop l obj : steps frees_exact (has_child_loop l obj).
Proof.
  induction l as [|c l IH]; simpl; [apply steps_ret|].
  apply steps_then; [apply steps_vlc_internals | intros priv].
  destruct (parent priv =? obj)%N; [apply steps_ret | apply IH].
Qed.

Lemma steps_ObjectHasChild obj : steps frees_exact (ObjectHasChild obj).
Proof.
  apply steps_then; [apply steps_vlc_mutex_lock | intros _].
  apply steps_then.
  - apply steps_then; [apply steps_get_tree_list | intros l].
    apply steps_has_child_loop.
  - intros r. apply steps_then; [apply steps_vlc_mutex_unlock | intros _].
    apply steps_ret.
Qed.

Lemma steps_vlc_object_destroy p : steps frees_exact (vlc_object_destroy p).
Proof.
  intros s. destruct (heap s !! p) as [priv|] eqn:E.
  - destruct (decide (resources priv = NULL)) as [Hres|Hres].
    + rewrite (vlc_object_destroy_Some _ _ _ E Hres). simpl.
      exists (destroy_events p priv). split; [done|]. intros q. simpl.
      rewrite free_count_destroy_events.
      destruct (decide (q = p)) as [->|Hne].
      * rewrite E, lookup_delete_eq. by split.
      * rewrite lookup_delete_ne by done. split; [|done].
        by destruct (heap s !! q).
    + rewrite (vlc_object_destroy_resources _ _ _ E Hres).
      apply frees_exact_refl.
  - unfold vlc_object_destroy.
    rewrite (bind_Abort _ _ _ _ _ (vlc_internals_None _ _ E)).
    apply frees_exact_refl.
Qed.

Lemma steps_fast_path fuel obj r : steps frees_exact (fast_path fuel obj r).
Proof.
  revert r. induction fuel as [|fuel IH]; intros r; simpl.
  - destruct (1 <? r)%Z; [apply steps_fail | apply steps_ret].
  - destruct (1 <? r)%Z; [|apply steps_ret].
    apply steps_then; [apply steps_atomic_compare_exchange_weak|].
    intros [ok r']. destruct ok; [apply steps_ret|].
    apply steps_then; [apply steps_assert | intros _; apply IH].
Qed.

(** Whatever a release does, down the whole chain of parents, every object
    it removes from memory is freed exactly once, and nothing else is. *)
Lemma steps_vlc_object_release fuel obj :
  steps frees_exact (vlc_object_release fuel obj).
Proof.
  revert obj. induction fuel as [|fuel IH]; intros obj.
  { apply steps_fail. }
  rewrite vlc_object_release_unfold.
  apply steps_then; [apply steps_atomic_load | intros r].
  apply steps_then; [apply steps_fast_path | intros [returned r']].
  destruct returned; [apply steps_ret|].
  apply steps_then.
  { apply steps_then; [apply steps_vlc_internals | intros; apply steps_ret]. }
  intros par. destruct (par =? NULL)%N.
  - apply steps_then; [apply steps_atomic_fetch_sub | intros r1].
    apply steps_then; [apply steps_assert | intros _].
    apply steps_then; [apply steps_ObjectHasChild | intros hc].
    apply steps_then; [apply steps_assert | intros _].
    apply steps_vlc_object_destroy.
  - apply steps_then; [apply steps_vlc_mutex_lock | intros _].
    apply steps_then; [apply steps_atomic_fetch_sub | intros r1].
    apply steps_then; [apply steps_assert | intros _].
    apply steps_then.
    { destruct (r1 =? 1)%Z; [apply steps_vlc_list_remove | apply steps_ret]. }
    intros _.
    apply steps_then; [apply steps_vlc_mutex_unlock | intros _].
    destruct (r1 =? 1)%Z; [|apply steps_ret].
    apply steps_then; [apply steps_ObjectHasChild | intros hc].
    apply steps_then; [apply steps_assert | intros _].
    apply steps_then; [apply steps_vlc_object_destroy | intros _].
    apply IH.
Qed.

(** ** The release of a parentless object *)

Lemma ObjectHasChild_true s (l1 l2 : list N) c o obj :
  tree_lock s = false → tree_list s = l1 ++ c :: l2 →
  (∀ q, q ∈ l1 → ∃ oq, heap s !! q = Some oq ∧ parent oq ≠ obj) →
  heap s !! c = Some o → parent o = obj →
  ObjectHasChild obj s = Done true (add_trace [EvMutexLock; EvMutexUnlock] s).
Proof.
  intros Hl Hlist H1 Hc Hp. unfold ObjectHasChild, ObjectHasChildLocked.
  mstep (vlc_mutex_lock_free _ Hl).
  erewrite bind_Done; cycle 1.
  { erewrite bind_Done by reflexivity. cbv beta. simpl tree_list.
    rewrite Hlist. by apply has_child_loop_true with o. }
  cbv beta. erewrite bind_Done by (by apply vlc_mutex_unlock_held).
  unfold ret, add_trace, set_trace, set_tree_lock; simpl.
  destruct s; simpl in *; subst. by rewrite <- app_assoc.
Qed.

(** A parentless object released for the last time while the list still
    has a child of it: the assertion fails, nothing is destroyed. *)
Lemma release_root_with_child s obj priv fuel (l1 l2 : list N) c o :
  heap s !! obj = Some priv → refs priv = 1%Z → parent priv = NULL →
  obj ≠ NULL → tree_lock s = false →
  tree_list s = l1 ++ c :: l2 →
  (∀ q, q ∈ l1 → ∃ oq, heap s !! q = Some oq ∧ parent oq ≠ obj) →
  heap s !! c = Some o → parent o = obj →
  vlc_object_release (S fuel) obj s =
    Abort AssertionFailed
      (add_trace [EvFetchSub obj 1; EvMutexLock; EvMutexUnlock]
         (ref_update obj priv 0 s)).
Proof.
  intros H Hr Hp Hnn Hl Hlist H1 Hc Hpc. rewrite vlc_object_release_unfold.
  assert (refs priv ≤ 1)%Z as Hle by lia.
  mstep (atomic_load_Some _ _ _ H).
  mstep (fast_path_le (S fuel) obj _ s Hle).
  mstep (vlc_object_parent_Some _ _ _ H).
  rewrite Hp. change (NULL =? NULL)%N with true. cbv iota.
  mstep (atomic_fetch_sub_Some s obj priv 1 H).
  rewrite Hr. change (1 =? 1)%Z with true.
  erewrite bind_Done by apply assert_true. cbv beta.
  assert (c ≠ obj) as Hco.
  { intros ->. rewrite H in Hc. injection Hc as <-. congruence. }
  erewrite bind_Done; cycle 1.
  { apply (ObjectHasChild_true _ l1 l2 c o); [exact Hl|exact Hlist| |..].
    - simpl. intros q Hq. destruct (H1 q Hq) as (oq & Hoq & Hpq).
      destruct (decide (q = obj)) as [->|Hne].
      + eexists. rewrite lookup_insert_eq. split; [reflexivity|].
        simpl. rewrite Hp. congruence.
      + exists oq. by rewrite lookup_insert_ne.
    - simpl. by rewrite lookup_insert_ne.
    - exact Hpc. }
  cbv beta. simpl negb. rewrite (bind_Abort _ _ _ _ _ (assert_false _)).
  f_equal. unfold add_trace, set_trace, ref_update, set_heap. simpl.
  by rewrite <- app_assoc.
Qed.

(** C5 (as amended): the release of an allocated parentless object.  With
    a count above one it is the fast path, whatever the lock, the list and
    the children of the object: one compare-exchange, nothing destroyed.
    With a count of one it decrements without the lock, passes the
    assertion on the fetched value, checks under the lock that the list
    holds no child of the object, and destroys it; the list itself is left
    as it is.  With a count of zero the assertion on the fetched value
    fails.  With a count of one and a child in the list, the assertion on
    children fails. *)
Theorem release_root_steps s obj priv fuel :
  heap s !! obj = Some priv → parent priv = NULL →
  (0 ≤ refs priv ≤ UINT_MAX)%Z →
  ((1 < refs priv)%Z →
   vlc_object_release (S fuel) obj s =
     Done tt (add_trace [EvCasDec obj (refs priv)]
                (ref_update obj priv (refs priv - 1) s)))
  ∧ (refs priv = 1%Z → obj ≠ NULL → tree_lock s = false →
     resources priv = NULL → no_children s obj →
     vlc_object_release (S fuel) obj s =
       Done tt (add_trace ([EvFetchSub obj 1; EvMutexLock; EvMutexUnlock] ++
                           destroy_events obj priv)
                  (set_heap (delete obj (heap s)) s)))
  ∧ (refs priv = 0%Z →
     vlc_object_release (S fuel) obj s =
       Abort AssertionFailed
         (add_trace [EvFetchSub obj 0] (ref_update obj priv UINT_MAX s)))
  ∧ (∀ (l1 l2 : list N) c o,
       refs priv = 1%Z → obj ≠ NULL → tree_lock s = false →
       tree_list s = l1 ++ c :: l2 →
       (∀ q, q ∈ l1 → ∃ oq, heap s !! q = Some oq ∧ parent oq ≠ obj) →
       heap s !! c = Some o → parent o = obj →
       vlc_object_release (S fuel) obj s =
         Abort AssertionFailed
           (add_trace [EvFetchSub obj 1; EvMutexLock; EvMutexUnlock]
              (ref_update obj priv 0 s))).
Proof.
  intros H Hp [Hr Hm]. repeat split.
  - intros E1. rewrite (release_fast s obj priv fuel H E1).
    rewrite uint_small by lia. reflexivity.
  - intros E2 Hnn Hl Hres Hch. by apply release_last_root.
  - intros E0. by apply release_root_zero.
  - intros l1 l2 c o Hr1 Hnn Hl Hlist H1 Hc Hpc.
    by apply (release_root_with_child s obj priv fuel l1 l2 c o).
Qed.

Lemma ex_root_no_children : no_children ex_root_state 1%N.
Proof. intros c Hc. by apply elem_of_nil in Hc. Qed.

Lemma ex_leaf_root_has_child : ¬ no_children ex_leaf_state 1%N.
Proof.
  intros Hnc. destruct (Hnc 2%N) as (o & Ho & Hp); [left | done |].
  vm_compute in Ho. injection Ho as <-. by apply Hp.
Qed.

Lemma release_root_steps_witness :
  (heap ex_root_state !! 1%N = Some (ex_obj "libvlc" ex_root_vars 1 NULL 0) ∧
   vlc_object_release 1 1%N ex_root_state =
     Done tt (add_trace [EvFetchSub 1%N 1; EvMutexLock; EvMutexUnlock;
                         EvSaveCancel;
                         EvVarDelCallback 1%N "vars" VarsCommand_cb NULL;
                         EvVarDelCallback 1%N "tree" TreeCommand_cb NULL;
                         EvVarDestroyAll 1%N; EvRestoreCancel;
                         EvVarWaitDestroy 1%N; EvVarLockDestroy 1%N;
                         EvFree 1%N]
                (set_heap (delete 1%N (heap ex_root_state)) ex_root_state)))
  ∧ (heap ex_leaf_state !! 1%N = Some (ex_obj "libvlc" ex_root_vars 2 NULL 0) ∧
     ¬ no_children ex_leaf_state 1%N ∧
     vlc_object_release 1 1%N ex_leaf_state =
       Done tt (add_trace [EvCasDec 1%N 2]
                  (ref_update 1%N (ex_obj "libvlc" ex_root_vars 2 NULL 0) 1
                     ex_leaf_state))).
Proof.
  split.
  - split; [by vm_compute|].
    assert ((0 ≤ 1 ≤ UINT_MAX)%Z) as Hrange by (unfold UINT_MAX; lia).
    apply (proj1 (proj2 (release_root_steps ex_root_state 1%N
                           (ex_obj "libvlc" ex_root_vars 1 NULL 0) 0
                           ltac:(by vm_compute) eq_refl Hrange)));
      [reflexivity | done | reflexivity | reflexivity
      | apply ex_root_no_children].
  - split; [by vm_compute|]. split; [apply ex_leaf_root_has_child|].
    assert ((0 ≤ 2 ≤ UINT_MAX)%Z) as Hrange by (unfold UINT_MAX; lia).
    apply (proj1 (release_root_steps ex_leaf_state 1%N
                    (ex_obj "libvlc" ex_root_vars 2 NULL 0) 0
                    ltac:(by vm_compute) eq_refl Hrange)).
    simpl. lia.
Defined.

(** C5, where the statement of the spec fails: the root holding two
    references is parentless, yet its release is the fast path; the count
    is never fetched-and-subtracted, and the object is not destroyed. *)
Lemma release_root_counterexample :
  parent <$> heap ex_root_held_state !! 1%N = Some NULL ∧
  refs <$> heap ex_root_held_state !! 1%N = Some 2%Z ∧
  ∃ s', vlc_object_release 4 1%N ex_root_held_state = Done tt s' ∧
        trace s' = [EvCasDec 1%N 2] ∧
        refs <$> heap s' !! 1%N = Some 1%Z ∧
        ¬ (EvFree 1%N ∈ trace s').
Proof.
  split; [by vm_compute|]. split; [by vm_compute|].
  eexists. split; [by vm_compute|]. split; [reflexivity|].
  split; [by vm_compute|].
  simpl. intros Hin. apply list_elem_of_singleton in Hin. discriminate.
Qed.

(** ** Creation *)

Lemma create_root_Done sz vs vc m length ty s :
  m ≠ NULL → (sz ≤ length)%N →
  vlc_custom_create sz vs vc m NULL length ty s =
    Done m (created_root sz vs vc m length ty s).
Proof.
  intros Hm Hlen. unfold vlc_custom_create.
  assert ((sz <=? length)%N = true) as -> by by apply N.leb_le.
  assert ((m =? NULL)%N = false) as Hmb by by apply N.eqb_neq.
  destruct s as [h l lk tr].
  unfold created_root, add_trace, set_trace, set_heap.
  rewrite Hmb. simpl.
  repeat (progress (unfold bind, assert, ret, emit, store, vlc_internals,
                      var_Create, var_AddCallback; simpl;
                    rewrite ?lookup_insert_eq; simpl)).
  rewrite !insert_insert_eq, <- !app_assoc. reflexivity.
Qed.

Lemma create_child_Done sz vs vc m parent length ty par s :
  m ≠ NULL → (sz ≤ length)%N → parent ≠ NULL →
  heap s !! m = None → heap s !! parent = Some par →
  (0 < refs par)%Z → tree_lock s = false →
  vlc_custom_create sz vs vc m parent length ty s =
    Done m (created_child sz m parent length ty par s).
Proof.
  intros Hm Hlen Hp Hfresh Hpar Hr Hl. unfold vlc_custom_create.
  assert ((sz <=? length)%N = true) as -> by by apply N.leb_le.
  assert ((m =? NULL)%N = false) as Hmb by by apply N.eqb_neq.
  assert ((parent =? NULL)%N = false) as Hpb by by apply N.eqb_neq.
  assert ((0 <? refs par)%Z = true) as Hrb by by apply Z.ltb_lt.
  assert (m ≠ parent) as Hne by (intros ->; congruence).
  destruct s as [h l lk tr]. simpl in *. subst lk.
  unfold created_child, add_trace, set_trace, set_heap, set_tree_list.
  rewrite Hmb, Hpb. simpl.
  repeat (progress (unfold bind, assert, ret, emit, store, vlc_internals,
                      vlc_object_hold, atomic_fetch_add, vlc_mutex_lock,
                      vlc_mutex_unlock, vlc_list_append, set_trace, set_heap,
                      set_tree_list, set_tree_lock; simpl;
                    rewrite ?lookup_insert_eq;
                    rewrite ?(lookup_insert_ne _ m parent) by done;
                    rewrite ?(lookup_insert_ne _ parent m) by done;
                    rewrite ?Hpar, ?Hrb; simpl)).
  rewrite !insert_insert_eq.
  rewrite (insert_insert_ne _ parent m) by done.
  rewrite !insert_insert_eq, <- !app_assoc. reflexivity.
Qed.

(** C7 (as amended): a successful creation.  Without a parent, the new
    object has its no-interaction flag cleared (interaction is not
    suppressed) and carries the command variables "tree" and "vars", each
    with its callback, registered while cancellation is saved.  With a
    parent, the new object inherits the parent's flag and logger, holds
    the parent, joins the global list, and has no variable at all. *)
Theorem create_command_variables sz vs vc m p length ty par s :
  m ≠ NULL → (sz ≤ length)%N → heap s !! m = None → tree_lock s = false →
  (p ≠ NULL → heap s !! p = Some par ∧ (0 < refs par)%Z) →
  vlc_custom_create sz vs vc m p length ty s =
    Done m (if (p =? NULL)%N
            then created_root sz vs vc m length ty s
            else created_child sz m p length ty par s)
  ∧ (∃ o, heap (created_root sz vs vc m length ty s) !! m = Some o ∧
          no_interact o = false ∧ parent o = NULL ∧
          var_root o = command_variables vs vc)
  ∧ (∃ o, heap (created_child sz m p length ty par s) !! m = Some o ∧
          no_interact o = no_interact par ∧ parent o = p ∧
          var_root o = []).
Proof.
  intros Hm Hlen Hfresh Hl Hp. split; [|split].
  - destruct (p =? NULL)%N eqn:E.
    + apply N.eqb_eq in E. subst p. by apply create_root_Done.
    + apply N.eqb_neq in E. destruct (Hp E) as [Hpar Hr].
      by apply create_child_Done.
  - eexists. split; [apply lookup_insert_eq|]. by simpl.
  - eexists. split; [apply lookup_insert_eq|]. by simpl.
Qed.

Lemma create_command_variables_witness :
  heap init_state !! 1%N = None ∧
  ex_create 1%N NULL 16%N "libvlc" init_state =
    Done 1%N (created_root ex_sizeof ex_VAR_STRING ex_VAR_ISCOMMAND
                1%N 16%N "libvlc" init_state) ∧
  heap ex_root_state !! 2%N = None ∧
  ex_create 2%N 1%N 24%N "mid" ex_root_state =
    Done 2%N (created_child ex_sizeof 2%N 1%N 24%N "mid"
                (ex_obj "libvlc" ex_root_vars 1 NULL 0) ex_root_state).
Proof.
  split; [by vm_compute|]. split.
  - apply (create_command_variables ex_sizeof ex_VAR_STRING ex_VAR_ISCOMMAND
             1%N NULL 16%N "libvlc" (ex_obj "" [] 0 NULL 0) init_state);
      [done | by vm_compute | by vm_compute | reflexivity | done].
  - split; [by vm_compute|].
    apply (create_command_variables ex_sizeof ex_VAR_STRING ex_VAR_ISCOMMAND
             2%N 1%N 24%N "mid" (ex_obj "libvlc" ex_root_vars 1 NULL 0)
             ex_root_state);
      [done | by vm_compute | by vm_compute | reflexivity |].
    intros _. split; [by vm_compute | simpl; lia].
Defined.

(** C7, where the statement of the spec fails: the parentless object just
    created does not suppress interaction; its [no_interact] flag is
    false. *)
Lemma create_root_counterexample :
  ∃ s', ex_create 1%N NULL 16%N "libvlc" init_state = Done 1%N s' ∧
        no_interact <$> heap s' !! 1%N = Some false ∧
        no_interact <$> heap s' !! 1%N ≠ Some true.
Proof.
  eexists. split; [by vm_compute|]. split; [by vm_compute|].
  by vm_compute.
Qed.

(** ** Listing children *)

Lemma tab_fill_app (xs tab : list N) n :
  n + length xs ≤ length tab →
  tab_fill tab n xs = take n tab ++ xs ++ drop (n + length xs) tab.
Proof.
  revert tab n. induction xs as [|x xs IH]; intros tab n Hlen; simpl in *.
  - rewrite Nat.add_0_r. by rewrite take_drop.
  - rewrite IH by (rewrite length_insert; lia).
    rewrite (take_S_r _ _ x) by (apply list_lookup_insert_eq; lia).
    rewrite take_insert_ge by lia.
    rewrite drop_insert_lt by lia.
    rewrite <- app_assoc. simpl.
    by replace (n + S (length xs)) with (S (n + length xs)) by lia.
Qed.

Lemma children_of_cons h c l obj o :
  h !! c = Some o →
  children_of h (c :: l) obj =
    if (parent o =? obj)%N then c :: children_of h l obj
    else children_of h l obj.
Proof.
  intros H. unfold children_of. rewrite filter_cons, H. simpl.
  destruct (parent o =? obj)%N eqn:E.
  - apply N.eqb_eq in E. subst. by rewrite decide_True.
  - apply N.eqb_neq in E. rewrite decide_False; [done|]. congruence.
Qed.

Lemma children_of_hold_one h c l obj :
  children_of (hold_one c h) l obj = children_of h l obj.
Proof.
  unfold children_of. apply list_filter_iff. intros q.
  unfold hold_one. destruct (h !! c) as [o|] eqn:E; [|done].
  destruct (decide (q = c)) as [->|Hne].
  - by rewrite lookup_insert_eq, E.
  - by rewrite lookup_insert_ne.
Qed.

Lemma children_of_elem h l obj c :
  c ∈ children_of h l obj → c ∈ l.
Proof. unfold children_of. rewrite list_elem_of_filter. tauto. Qed.

Lemma hold_events_hold_one h c l :
  c ∉ l → hold_events (hold_one c h) l = hold_events h l.
Proof.
  intros Hc. unfold hold_events. apply map_ext_in. intros q Hq.
  apply list_elem_of_In in Hq. f_equal. unfold refs_at, hold_one.
  destruct (h !! c) as [o|] eqn:E; [|done].
  rewrite lookup_insert_ne; [done|]. intros ->. done.
Qed.

Lemma state_eta s : add_trace [] (set_heap (heap s) s) = s.
Proof.
  destruct s. unfold add_trace, set_trace, set_heap. simpl.
  by rewrite app_nil_r.
Qed.

Lemma children_live_hold s c o l obj evs :
  heap s !! c = Some o → c ∉ l → children_live s l obj →
  children_live (add_trace evs (ref_update c o (uint (refs o + 1)) s)) l obj.
Proof.
  intros Ho Hc H q Hq. destruct (H q Hq) as (oq & Hoq & Hrq).
  exists oq. split; [|done]. simpl.
  rewrite lookup_insert_ne; [done|]. intros ->. done.
Qed.

Lemma list_children_loop_spec obj max (l : list N) :
  ∀ s count (tab : list N),
    NoDup l → children_live s l obj → N.to_nat max ≤ length tab →
    list_children_loop l obj max count tab s =
      Done ((count + N.of_nat (length (children_of (heap s) l obj)))%N,
            tab_fill tab (N.to_nat count)
              (take (N.to_nat max - N.to_nat count)
                 (children_of (heap s) l obj)))
           (add_trace
              (hold_events (heap s)
                 (take (N.to_nat max - N.to_nat count)
                    (children_of (heap s) l obj)))
              (set_heap
                 (hold_all (take (N.to_nat max - N.to_nat count)
                              (children_of (heap s) l obj)) (heap s)) s)).
Proof.
  induction l as [|c l IH]; intros s count tab Hnd Hlive Htab.
  - simpl. unfold children_of. rewrite filter_nil, take_nil. simpl.
    rewrite state_eta, N.add_0_r. reflexivity.
  - apply NoDup_cons in Hnd as [Hc Hnd].
    destruct (Hlive c) as (o & Ho & Hr); [left|].
    assert (children_live s l obj) as Hlive'.
    { intros q Hq. apply Hlive. by right. }
    simpl list_children_loop.
    mstep (vlc_internals_Some _ _ _ Ho).
    rewrite (children_of_cons _ _ _ _ _ Ho).
    destruct (parent o =? obj)%N eqn:Ep; [|by apply IH].
    apply N.eqb_eq in Ep. specialize (Hr Ep).
    destruct (count <? max)%N eqn:Ec.
    + apply N.ltb_lt in Ec.
      erewrite bind_Done; cycle 1.
      { mstep (vlc_object_hold_Some _ _ _ Ho Hr). unfold tab_write.
        assert ((N.to_nat count <? length tab)%nat = true) as ->
          by (apply Nat.ltb_lt; lia).
        reflexivity. }
      cbv beta. rewrite IH; cycle 1.
      { done. }
      { by apply children_live_hold. }
      { rewrite length_insert. lia. }
      simpl heap.
      change (<[c:=set_refs (uint (refs o + 1)) o]> (heap s))
        with (<[c:=set_refs (uint (refs o + 1)) o]> (heap s)).
      assert (<[c:=set_refs (uint (refs o + 1)) o]> (heap s)
              = hold_one c (heap s)) as ->.
      { unfold hold_one. by rewrite Ho. }
      rewrite children_of_hold_one.
      replace (N.to_nat max - N.to_nat count)
        with (S (N.to_nat max - N.to_nat (count + 1))) by lia.
      rewrite firstn_cons. simpl length. simpl tab_fill.
      replace (N.to_nat (count + 1)) with (S (N.to_nat count)) by lia.
      rewrite hold_events_hold_one; cycle 1.
      { intros Hin. apply subseteq_take in Hin.
        by apply children_of_elem in Hin. }
      f_equal; [f_equal; lia|].
      unfold add_trace, set_trace, set_heap, ref_update, hold_events,
        refs_at. simpl. rewrite Ho. rewrite <- app_assoc. reflexivity.
    + apply N.ltb_ge in Ec. unfold ret at 1.
      erewrite bind_Done by reflexivity. cbv beta.
      rewrite IH by done.
      replace (N.to_nat max - N.to_nat (count + 1)) with 0 by lia.
      replace (N.to_nat max - N.to_nat count) with 0 by lia.
      rewrite !take_0. simpl. f_equal. f_equal. lia.
Qed.

Lemma hold_one_lookup_ne h c q : q ≠ c → hold_one c h !! q = h !! q.
Proof.
  intros Hne. unfold hold_one. destruct (h !! c); [|done].
  by rewrite lookup_insert_ne.
Qed.

Lemma hold_all_cons q (l : list N) h :
  hold_all (q :: l) h = hold_all l (hold_one q h).
Proof. reflexivity. Qed.

Lemma hold_all_lookup_notin (l : list N) h c :
  c ∉ l → hold_all l h !! c = h !! c.
Proof.
  revert h. induction l as [|q l IH]; intros h Hc; [done|].
  apply not_elem_of_cons in Hc as [Hne Hc].
  rewrite hold_all_cons, IH by done. by apply hold_one_lookup_ne.
Qed.

Lemma hold_all_lookup_in (l : list N) h c o :
  NoDup l → c ∈ l → h !! c = Some o →
  hold_all l h !! c = Some (set_refs (uint (refs o + 1)) o).
Proof.
  revert h. induction l as [|q l IH]; intros h Hnd Hc Ho.
  { by apply elem_of_nil in Hc. }
  apply NoDup_cons in Hnd as [Hq Hnd]. rewrite hold_all_cons.
  apply elem_of_cons in Hc as [->|Hc].
  - rewrite hold_all_lookup_notin by done.
    unfold hold_one. rewrite Ho. apply lookup_insert_eq.
  - apply IH; [done..|].
    rewrite hold_one_lookup_ne; [done|]. intros ->. done.
Qed.

(** C8 (as amended): under the lock, [vlc_list_children] holds each child
    that it stores in the table, that is the first [max] children in list
    order, before it unlocks; it returns the number of all children, also
    when that exceeds [max]; the table receives at most [max] entries, and
    the children past [max] are counted but not held. *)
Theorem list_children_holds_stored s obj (tab : list N) max :
  tree_lock s = false → NoDup (tree_list s) →
  children_live s (tree_list s) obj → N.to_nat max ≤ length tab →
  vlc_list_children obj tab max s =
    Done (N.of_nat (length (children_of (heap s) (tree_list s) obj)),
          take (N.to_nat max) (children_of (heap s) (tree_list s) obj) ++
          drop (length (take (N.to_nat max)
                          (children_of (heap s) (tree_list s) obj))) tab)
         (add_trace
            ([EvMutexLock] ++
             hold_events (heap s)
               (take (N.to_nat max) (children_of (heap s) (tree_list s) obj))
             ++ [EvMutexUnlock])
            (set_heap
               (hold_all
                  (take (N.to_nat max)
                     (children_of (heap s) (tree_list s) obj)) (heap s)) s))
  ∧ length (take (N.to_nat max) (children_of (heap s) (tree_list s) obj))
      ≤ N.to_nat max
  ∧ (∀ c o, c ∈ take (N.to_nat max) (children_of (heap s) (tree_list s) obj) →
            heap s !! c = Some o →
            hold_all (take (N.to_nat max)
                        (children_of (heap s) (tree_list s) obj)) (heap s) !! c
            = Some (set_refs (uint (refs o + 1)) o))
  ∧ (∀ c, c ∉ take (N.to_nat max) (children_of (heap s) (tree_list s) obj) →
          hold_all (take (N.to_nat max)
                      (children_of (heap s) (tree_list s) obj)) (heap s) !! c
          = heap s !! c).
Proof.
  intros Hl Hnd Hlive Htab.
  set (ch := children_of (heap s) (tree_list s) obj).
  set (held := take (N.to_nat max) ch).
  split; [|split; [|split]].
  - unfold vlc_list_children.
    mstep (vlc_mutex_lock_free _ Hl).
    erewrite bind_Done by reflexivity. cbv beta.
    erewrite bind_Done; cycle 1.
    { apply list_children_loop_spec; [exact Hnd| |exact Htab].
      intros c Hc. exact (Hlive c Hc). }
    cbv beta.
    erewrite bind_Done by (by apply vlc_mutex_unlock_held).
    simpl heap. simpl tree_list. fold ch.
    change (N.to_nat max - N.to_nat 0) with (N.to_nat max - 0).
    rewrite Nat.sub_0_r. fold held.
    rewrite tab_fill_app; cycle 1.
    { simpl. unfold held. rewrite length_take. lia. }
    unfold ret. f_equal.
    unfold add_trace, set_trace, set_heap, set_tree_lock. simpl.
    destruct s; simpl in *; subst. rewrite <- !app_assoc. reflexivity.
  - unfold held. rewrite length_take. lia.
  - intros c o Hc Ho. apply hold_all_lookup_in; [|done..].
    eapply sublist_NoDup; [|apply sublist_take].
    by apply NoDup_filter.
  - intros c Hc. by apply hold_all_lookup_notin.
Qed.

Lemma ex_siblings_children_live :
  children_live ex_siblings_state (tree_list ex_siblings_state) 1%N.
Proof.
  intros c Hc. change (tree_list ex_siblings_state) with [2%N; 4%N] in Hc.
  apply elem_of_cons in Hc as [->|Hc].
  - exists (ex_obj "mid" [] 1 1%N 8). split; [by vm_compute | simpl; lia].
  - apply list_elem_of_singleton in Hc as ->.
    exists (ex_obj "sib" [] 1 1%N 0). split; [by vm_compute | simpl; lia].
Qed.

Lemma ex_siblings_NoDup : NoDup (tree_list ex_siblings_state).
Proof.
  change (tree_list ex_siblings_state) with [2%N; 4%N].
  apply NoDup_cons. split.
  - intros Hin. apply list_elem_of_singleton in Hin. discriminate.
  - apply NoDup_singleton.
Qed.

Lemma list_children_holds_stored_witness :
  tree_lock ex_siblings_state = false ∧
  vlc_list_children 1%N [0%N] 1%N ex_siblings_state =
    Done (2%N, [2%N])
         (add_trace [EvMutexLock; EvFetchAdd 2%N 1; EvMutexUnlock]
            (set_heap (hold_all [2%N] (heap ex_siblings_state))
               ex_siblings_state)).
Proof.
  split; [reflexivity|].
  refine (eq_trans
            (proj1 (list_children_holds_stored ex_siblings_state 1%N [0%N] 1%N
                      eq_refl ex_siblings_NoDup ex_siblings_children_live _))
            _).
  - simpl. lia.
  - by vm_compute.
Defined.

(** C8, where the statement of the spec fails: with two children and a
    table of one entry, both children are counted, the first is stored and
    held, and the second, a child as well, is not held: its count is what
    it was. *)
Lemma list_children_counterexample :
  children_of (heap ex_siblings_state) (tree_list ex_siblings_state) 1%N
    = [2%N; 4%N] ∧
  ∃ s', vlc_list_children 1%N [0%N] 1%N ex_siblings_state
          = Done (2%N, [2%N]) s' ∧
        refs <$> heap ex_siblings_state !! 2%N = Some 1%Z ∧
        refs <$> heap s' !! 2%N = Some 2%Z ∧
        refs <$> heap ex_siblings_state !! 4%N = Some 1%Z ∧
        refs <$> heap s' !! 4%N = Some 1%Z.
Proof.
  split; [by vm_compute|].
  eexists. split; [by vm_compute|].
  repeat split; by vm_compute.
Qed.

(** ** Validation of an untrusted pointer *)

Lemma in_tree_step_down s root c o cand :
  c ∈ tree_list s → heap s !! c = Some o → parent o = root →
  in_tree s c cand → in_tree s root cand.
Proof.
  intros Hc Ho Hp H. induction H as [|c' o' Hc' Ho' _ IH].
  - apply (in_tree_child s root c o Hc Ho). rewrite Hp. constructor.
  - by apply (in_tree_child s root c' o').
Qed.

Lemma in_tree_first_child s root cand :
  in_tree s root cand → root ≠ cand →
  ∃ c o, c ∈ tree_list s ∧ heap s !! c = Some o ∧ parent o = root ∧
         in_tree s c cand.
Proof.
  intros H. induction H as [|c o Hc Ho Hpar IH]; intros Hne; [done|].
  destruct (decide (parent o = root)) as [Hp|Hp].
  - exists c, o. repeat split; try done. constructor.
  - destruct IH as (c' & o' & Hc' & Ho' & Hp' & Hin); [congruence|].
    exists c', o'. repeat split; try done.
    by apply (in_tree_child s c' c o).
Qed.

Lemma in_tree_live s root ro cand :
  tree_wf s → heap s !! root = Some ro → (0 < refs ro)%Z →
  in_tree s root cand →
  ∃ o, heap s !! cand = Some o ∧ (0 < refs o)%Z.
Proof.
  intros Hwf Hr Hrr H. destruct H as [|c o Hc Ho _]; [by exists ro|].
  destruct (Hwf c Hc) as [_ Hlive]. exact Hlive.
Qed.

Lemma in_tree_nonnull s root cand :
  tree_wf s → root ≠ NULL → in_tree s root cand → cand ≠ NULL.
Proof.
  intros Hwf Hr H. destruct H as [|c o Hc _ _]; [done|].
  by destruct (Hwf c Hc).
Qed.

Lemma ObjectExists_unfold fuel root obj :
  ObjectExists (S fuel) root obj =
    if (root =? obj)%N then vlc_object_hold root
    else (vlc_mutex_assert;;
          let* l := get_tree_list in
          exists_loop (λ pos, ObjectExists fuel pos obj) root l).
Proof. reflexivity. Qed.

Lemma vlc_mutex_assert_held s :
  tree_lock s = true → vlc_mutex_assert s = Done tt s.
Proof. intros H. unfold vlc_mutex_assert. by rewrite H. Qed.

Lemma height_le_child n s root c o :
  height_le (S n) s root = true → c ∈ tree_list s →
  heap s !! c = Some o → parent o = root → height_le n s c = true.
Proof.
  intros H Hc Ho Hp. simpl in H. rewrite forallb_forall in H.
  specialize (H c). rewrite Ho, Hp, N.eqb_refl in H. apply H.
  by apply list_elem_of_In.
Qed.

(** The search either finds the candidate in the tree and holds it, or
    establishes that it is not there and changes nothing. *)
Lemma ObjectExists_search s cand fuel :
  tree_lock s = true → tree_wf s →
  ∀ root ro, heap s !! root = Some ro → (0 < refs ro)%Z →
    height_le fuel s root = true →
    (in_tree s root cand ∧
     ObjectExists fuel root cand s = vlc_object_hold cand s)
    ∨ (¬ in_tree s root cand ∧ ObjectExists fuel root cand s = Done NULL s).
Proof.
  intros Hl Hwf. induction fuel as [|fuel IH]; intros root ro Hr Hrr Hh.
  { discriminate. }
  rewrite ObjectExists_unfold.
  destruct (root =? cand)%N eqn:E.
  { apply N.eqb_eq in E. subst. left. split; [constructor | done]. }
  apply N.eqb_neq in E.
  mstep (vlc_mutex_assert_held _ Hl).
  erewrite bind_Done by reflexivity. cbv beta.
  assert (∀ l : list N, l ⊆ tree_list s →
    ((∃ c o, c ∈ l ∧ heap s !! c = Some o ∧ parent o = root ∧
             in_tree s c cand) ∧
     exists_loop (λ pos, ObjectExists fuel pos cand) root l s
       = vlc_object_hold cand s)
    ∨ ((∀ c o, c ∈ l → heap s !! c = Some o → parent o = root →
               ¬ in_tree s c cand) ∧
       exists_loop (λ pos, ObjectExists fuel pos cand) root l s
         = Done NULL s)) as Hloop.
  { induction l as [|c l IHl]; intros Hsub.
    { right. split; [|done]. intros c o Hc. by apply elem_of_nil in Hc. }
    assert (c ∈ tree_list s) as Hc by (apply Hsub; left).
    assert (l ⊆ tree_list s) as Hsub' by (intros q Hq; apply Hsub; by right).
    destruct (Hwf c Hc) as [Hcnn (o & Ho & Hro)].
    simpl exists_loop. mstep (vlc_internals_Some _ _ _ Ho).
    destruct (parent o =? root)%N eqn:Ep.
    - apply N.eqb_eq in Ep.
      pose proof (height_le_child _ _ _ _ _ Hh Hc Ho Ep) as Hhc.
      destruct (IH c o Ho Hro Hhc) as [[Hin Heq]|[Hnin Heq]].
      + left. split.
        { exists c, o. repeat split; try done. left. }
        destruct (in_tree_live s c o cand Hwf Ho Hro Hin) as (oc & Hoc & Hrc).
        rewrite (vlc_object_hold_Some _ _ _ Hoc Hrc) in Heq |- *.
        mstep Heq.
        pose proof (in_tree_nonnull s c cand Hwf Hcnn Hin) as Hcn.
        assert ((cand =? NULL)%N = false) as -> by by apply N.eqb_neq.
        reflexivity.
      + mstep Heq. change (NULL =? NULL)%N with true. cbv iota.
        destruct (IHl Hsub') as [[(c' & o' & Hc' & Hrest) Hf]|[Hall Hf]].
        * left. split; [|done]. exists c', o'. split; [by right|done].
        * right. split; [|done]. intros c' o' Hc' Ho' Hp'.
          apply elem_of_cons in Hc' as [->|Hc']; [done|].
          by apply (Hall c' o').
    - apply N.eqb_neq in Ep.
      destruct (IHl Hsub') as [[(c' & o' & Hc' & Hrest) Hf]|[Hall Hf]].
      + left. split; [|done]. exists c', o'. split; [by right|done].
      + right. split; [|done]. intros c' o' Hc' Ho' Hp'.
        apply elem_of_cons in Hc' as [->|Hc'].
        * congruence.
        * by apply (Hall c' o'). }
  destruct (Hloop (tree_list s)) as [[(c & o & Hc & Ho & Hp & Hin) Hf]|[Hall Hf]].
  { done. }
  - left. split; [|done]. by apply (in_tree_step_down s root c o).
  - right. split; [|done]. intros Hin.
    destruct (in_tree_first_child s root cand Hin E)
      as (c & o & Hc & Ho & Hp & Hin').
    by apply (Hall c o).
Qed.

Lemma ObjectExists_found s root ro cand fuel :
  tree_lock s = true → tree_wf s → root ≠ NULL →
  heap s !! root = Some ro → (0 < refs ro)%Z →
  height_le fuel s root = true → in_tree s root cand →
  cand ≠ NULL ∧
  ∃ o, heap s !! cand = Some o ∧
       ObjectExists fuel root cand s =
         Done cand (add_trace [EvFetchAdd cand (refs o)]
                      (ref_update cand o (uint (refs o + 1)) s)).
Proof.
  intros Hl Hwf Hrn Hr Hrr Hh Hin.
  split; [by apply (in_tree_nonnull s root)|].
  destruct (in_tree_live s root ro cand Hwf Hr Hrr Hin) as (o & Ho & Hro).
  exists o. split; [done|].
  destruct (ObjectExists_search s cand fuel Hl Hwf root ro Hr Hrr Hh)
    as [[_ Heq]|[Hnin _]]; [|done].
  by rewrite Heq, (vlc_object_hold_Some _ _ _ Ho Hro).
Qed.

(** C6: with the structural lock held, on a well-formed list and a tree of
    bounded height below an allocated, referenced root: when the candidate
    is in the tree below the root, [ObjectExists] returns the candidate
    itself (not [NULL]) with its count raised by one and nothing else
    changed; when it is not, [ObjectExists] returns [NULL] and changes
    nothing; a candidate that is not allocated, as after its destruction,
    is never in the tree. *)
Theorem ObjectExists_iff_in_tree s root ro cand fuel :
  tree_lock s = true → tree_wf s → root ≠ NULL →
  heap s !! root = Some ro → (0 < refs ro)%Z →
  height_le fuel s root = true →
  (in_tree s root cand →
   cand ≠ NULL ∧
   ∃ o, heap s !! cand = Some o ∧
        ObjectExists fuel root cand s =
          Done cand (add_trace [EvFetchAdd cand (refs o)]
                       (ref_update cand o (uint (refs o + 1)) s)))
  ∧ (¬ in_tree s root cand → ObjectExists fuel root cand s = Done NULL s)
  ∧ (heap s !! cand = None → ObjectExists fuel root cand s = Done NULL s).
Proof.
  intros Hl Hwf Hrn Hr Hrr Hh.
  pose proof (ObjectExists_search s cand fuel Hl Hwf root ro Hr Hrr Hh)
    as Hsearch.
  assert (¬ in_tree s root cand → ObjectExists fuel root cand s = Done NULL s)
    as Hnot.
  { intros Hnin. by destruct Hsearch as [[Hin _]|[_ Heq]]. }
  split; [|split; [exact Hnot|]].
  - intros Hin. by apply (ObjectExists_found s root ro).
  - intros Hnone. apply Hnot. intros Hin.
    destruct (in_tree_live s root ro cand Hwf Hr Hrr Hin) as (o & Ho & _).
    congruence.
Qed.

Lemma ex_leaf_locked_wf : tree_wf ex_leaf_locked_state.
Proof.
  intros c Hc. change (tree_list ex_leaf_locked_state) with [2%N; 3%N] in Hc.
  apply elem_of_cons in Hc as [->|Hc].
  - split; [done|]. exists (ex_obj "mid" [] 2 1%N 8).
    split; [by vm_compute | simpl; lia].
  - apply list_elem_of_singleton in Hc as ->.
    split; [done|]. exists (ex_obj "leaf" [] 1 2%N 0).
    split; [by vm_compute | simpl; lia].
Qed.

Lemma ex_leaf_in_tree : in_tree ex_leaf_locked_state 1%N 3%N.
Proof.
  apply (in_tree_child _ _ 3%N (ex_obj "leaf" [] 1 2%N 0)).
  - change (tree_list ex_leaf_locked_state) with [2%N; 3%N].
    right. left.
  - by vm_compute.
  - apply (in_tree_child _ _ 2%N (ex_obj "mid" [] 2 1%N 8)).
    + change (tree_list ex_leaf_locked_state) with [2%N; 3%N]. left.
    + by vm_compute.
    + constructor.
Qed.

Lemma ObjectExists_iff_in_tree_witness :
  height_le 3 ex_leaf_locked_state 1%N = true ∧
  ∃ o, heap ex_leaf_locked_state !! 3%N = Some o ∧
       ObjectExists 3 1%N 3%N ex_leaf_locked_state =
         Done 3%N (add_trace [EvFetchAdd 3%N (refs o)]
                     (ref_update 3%N o (uint (refs o + 1))
                        ex_leaf_locked_state)).
Proof.
  split; [by vm_compute|].
  apply (proj1 (ObjectExists_iff_in_tree ex_leaf_locked_state 1%N
                  (ex_obj "libvlc" ex_root_vars 2 NULL 0) 3%N 3
                  eq_refl ex_leaf_locked_wf ltac:(done) ltac:(by vm_compute)
                  ltac:(simpl; lia) ltac:(by vm_compute)) ex_leaf_in_tree).
Defined.

(** ** The [vars] command *)

Lemma in_tree_ext s s' root cand :
  heap s' = heap s → tree_list s' = tree_list s →
  in_tree s root cand → in_tree s' root cand.
Proof.
  intros Hh Hl H. induction H as [|c o Hc Ho _ IH]; [constructor|].
  apply (in_tree_child s' root c o); [by rewrite Hl | by rewrite Hh | done].
Qed.

Lemma height_le_ext n s s' root :
  heap s' = heap s → tree_list s' = tree_list s →
  height_le n s' root = height_le n s root.
Proof.
  intros Hh Hl. revert root. induction n as [|n IH]; intros root; [done|].
  simpl. rewrite Hl, Hh. clear Hl.
  induction (tree_list s) as [|c l IHl]; [done|]. simpl. rewrite IHl.
  destruct (heap s !! c) as [o|]; [|done].
  destruct (parent o =? root)%N; [|done]. by rewrite IH.
Qed.

Lemma height_le_pos n s root : height_le n s root = true → ∃ n', n = S n'.
Proof. destruct n; [discriminate | by eexists]. Qed.

Lemma set_refs_back o r : set_refs (refs o) (set_refs r o) = o.
Proof. by destruct o. Qed.

(** A pointer that does not resolve: the error path. *)
Lemma VarsCommand_no_object sscanf_p s obj ro newval p fuel :
  tree_lock s = false → tree_wf s →
  heap s !! obj = Some ro → (0 < refs ro)%Z →
  height_le fuel s obj = true →
  sscanf_p newval = Some p → ¬ in_tree s obj p →
  VarsCommand sscanf_p fuel obj newval s =
    Done VLC_ENOOBJ
      (add_trace [EvMutexLock; EvMutexUnlock;
                  EvMsg obj MSG_ERR ("no such object: " ++ newval)] s).
Proof.
  intros Hl Hwf Hr Hrr Hh Hscan Hnin. unfold VarsCommand. rewrite Hscan.
  mstep (vlc_mutex_lock_free _ Hl).
  set (s1 := add_trace [EvMutexLock] (set_tree_lock true s)).
  assert (ObjectExists fuel obj p s1 = Done NULL s1) as Hex.
  { destruct (ObjectExists_search s1 p fuel eq_refl Hwf obj ro Hr Hrr)
      as [[Hin _]|[_ Heq]]; [|by apply (in_tree_ext s1 s) in Hin|done].
    by rewrite (height_le_ext _ s s1). }
  mstep Hex.
  erewrite bind_Done by (by apply vlc_mutex_unlock_held).
  change (NULL =? NULL)%N with true. cbv iota.
  unfold msg_Err, emit, bind, ret, s1, add_trace, set_trace, set_tree_lock.
  simpl. destruct s; simpl in *; subst. by rewrite <- !app_assoc.
Qed.

(** A pointer that resolves: hold under the lock, dump, release. *)
Lemma VarsCommand_object sscanf_p s obj ro newval p o fuel :
  tree_lock s = false → tree_wf s → obj ≠ NULL →
  heap s !! obj = Some ro → (0 < refs ro)%Z →
  height_le fuel s obj = true →
  sscanf_p newval = Some p → in_tree s obj p →
  heap s !! p = Some o → (refs o < UINT_MAX)%Z →
  VarsCommand sscanf_p fuel obj newval s =
    Done VLC_SUCCESS
      (add_trace [EvMutexLock; EvFetchAdd p (refs o); EvMutexUnlock;
                  EvPrintObject p (typename o) (parent o);
                  EvDumpVariables p; EvCasDec p (refs o + 1)] s).
Proof.
  intros Hl Hwf Hon Hr Hrr Hh Hscan Hin Ho Hmax.
  unfold VarsCommand. rewrite Hscan.
  mstep (vlc_mutex_lock_free _ Hl).
  set (s1 := add_trace [EvMutexLock] (set_tree_lock true s)).
  assert (in_tree s1 obj p) as Hin1 by by apply (in_tree_ext s s1).
  assert (height_le fuel s1 obj = true) as Hh1
    by by rewrite (height_le_ext _ s s1).
  destruct (ObjectExists_found s1 obj ro p fuel eq_refl Hwf
              Hon Hr Hrr Hh1 Hin1) as (Hpn & o' & Ho' & Hex).
  assert (o' = o) as -> by (simpl in Ho'; congruence).
  assert (0 < refs o)%Z as Hro.
  { destruct (in_tree_live s obj ro p Hwf Hr Hrr Hin) as (o2 & Ho2 & Hr2).
    congruence. }
  mstep Hex.
  erewrite bind_Done by (by apply vlc_mutex_unlock_held).
  assert ((p =? NULL)%N = false) as -> by by apply N.eqb_neq.
  rewrite uint_small by lia.
  set (o1 := set_refs (refs o + 1) o).
  set (s2 := add_trace [EvMutexUnlock] (set_tree_lock false
               (add_trace [EvFetchAdd p (refs o)]
                  (ref_update p o (refs o + 1) s1)))).
  assert (heap s2 !! p = Some o1) as Ho1 by apply lookup_insert_eq.
  unfold VarsCommand_dump, vlc_object_typename, DumpVariables.
  erewrite bind_Done; cycle 1.
  { by rewrite (bind_Done _ _ _ _ _ (vlc_internals_Some _ _ _ Ho1)). }
  cbv beta.
  mstep (vlc_object_parent_Some _ _ _ Ho1).
  erewrite bind_Done by reflexivity. cbv beta.
  erewrite bind_Done; cycle 1.
  { erewrite bind_Done; [reflexivity|].
    apply vlc_internals_Some. exact Ho1. }
  cbv beta.
  destruct (height_le_pos _ _ _ Hh) as [fuel' ->].
  erewrite bind_Done; cycle 1.
  { apply (release_fast _ p o1 fuel'); [exact Ho1 | simpl; lia]. }
  unfold ret. f_equal.
  unfold o1, s2, s1, add_trace, set_trace, set_tree_lock, ref_update,
    set_heap. simpl.
  replace (refs o + 1 - 1)%Z with (refs o) by lia.
  rewrite uint_small by lia.
  rewrite insert_insert_eq, set_refs_back.
  destruct s; simpl in *; subst. rewrite <- !app_assoc. simpl.
  rewrite insert_id by done. reflexivity.
Qed.


(** C10: the [vars] command given a text that parses as a pointer, on a
    well-formed tree.  When the pointer is not in the tree below the
    object, the command logs "no such object" at error level and returns
    [VLC_ENOOBJ], a status other than [VLC_SUCCESS]; memory and the list
    are as before.  When it is, the object is held under the lock, printed
    and dumped, then released, and the command returns [VLC_SUCCESS]; the
    counts are as before. *)
Theorem VarsCommand_pointer sscanf_p s obj ro newval p fuel :
  tree_lock s = false → tree_wf s → obj ≠ NULL →
  heap s !! obj = Some ro → (0 < refs ro)%Z →
  height_le fuel s obj = true →
  sscanf_p newval = Some p →
  (∀ o, heap s !! p = Some o → (refs o < UINT_MAX)%Z) →
  (¬ in_tree s obj p →
   VarsCommand sscanf_p fuel obj newval s =
     Done VLC_ENOOBJ
       (add_trace [EvMutexLock; EvMutexUnlock;
                   EvMsg obj MSG_ERR ("no such object: " ++ newval)] s))
  ∧ (in_tree s obj p →
     ∃ o, heap s !! p = Some o ∧
       VarsCommand sscanf_p fuel obj newval s =
         Done VLC_SUCCESS
           (add_trace [EvMutexLock; EvFetchAdd p (refs o); EvMutexUnlock;
                       EvPrintObject p (typename o) (parent o);
                       EvDumpVariables p; EvCasDec p (refs o + 1)] s))
  ∧ VLC_ENOOBJ ≠ VLC_SUCCESS.
Proof.
  intros Hl Hwf Hon Hr Hrr Hh Hscan Hmax. split; [|split; [|done]].
  - intros Hnin. by apply (VarsCommand_no_object sscanf_p s obj ro newval p).
  - intros Hin.
    destruct (in_tree_live s obj ro p Hwf Hr Hrr Hin) as (o & Ho & _).
    exists o. split; [done|].
    apply (VarsCommand_object sscanf_p s obj ro newval p o); auto.
Qed.

Lemma ex_leaf_not_in_tree : ¬ in_tree ex_leaf_state 1%N 7%N.
Proof.
  intros H. inversion H as [|c o Hc Ho Hp]; subst.
  change (tree_list ex_leaf_state) with [2%N; 3%N] in Hc.
  apply elem_of_cons in Hc as [Hc|Hc]; [discriminate|].
  apply list_elem_of_singleton in Hc. discriminate.
Qed.


Lemma ex_leaf_wf : tree_wf ex_leaf_state.
Proof.
  intros c Hc. change (tree_list ex_leaf_state) with [2%N; 3%N] in Hc.
  apply elem_of_cons in Hc as [->|Hc].
  - split; [done|]. exists (ex_obj "mid" [] 2 1%N 8).
    split; [by vm_compute | simpl; lia].
  - apply list_elem_of_singleton in Hc as ->.
    split; [done|]. exists (ex_obj "leaf" [] 1 2%N 0).
    split; [by vm_compute | simpl; lia].
Qed.

Lemma VarsCommand_pointer_witness :
  ex_sscanf_p "0x7" = Some 7%N ∧
  VarsCommand ex_sscanf_p 3 1%N "0x7" ex_leaf_state =
    Done VLC_ENOOBJ
      (add_trace [EvMutexLock; EvMutexUnlock;
                  EvMsg 1%N MSG_ERR "no such object: 0x7"] ex_leaf_state).
Proof.
  split; [reflexivity|].
  assert (heap ex_leaf_state !! 1%N
          = Some (ex_obj "libvlc" ex_root_vars 2 NULL 0)) as H1
    by by vm_compute.
  assert (0 < refs (ex_obj "libvlc" ex_root_vars 2 NULL 0))%Z as H2
    by (simpl; lia).
  assert (height_le 3 ex_leaf_state 1%N = true) as H3 by by vm_compute.
  assert (∀ o, heap ex_leaf_state !! 7%N = Some o → (refs o < UINT_MAX)%Z)
    as H4 by (intros o Ho; vm_compute in Ho; discriminate).
  pose proof (proj1 (VarsCommand_pointer ex_sscanf_p ex_leaf_state 1%N
                       (ex_obj "libvlc" ex_root_vars 2 NULL 0) "0x7" 7%N 3
                       eq_refl ex_leaf_wf ltac:(done) H1 H2 H3 eq_refl H4)
                ex_leaf_not_in_tree) as H.
  vm_compute in H. vm_compute. exact H.
Defined.

(** ** Children hold their parent *)

Lemma children_count_insert_same (h : gmap N vlc_object_internals_t) p o o' q :
  h !! p = Some o → parent o' = parent o →
  children_count (<[p := o']> h) q = children_count h q.
Proof.
  intros Ho Hp. unfold children_count. rewrite map_filter_insert. simpl.
  destruct (decide (parent o' = q)) as [Hq|Hq].
  - apply map_size_insert_Some. exists o.
    apply map_lookup_filter_Some. split; [done|]. simpl. congruence.
  - rewrite map_filter_delete. apply map_size_delete_None.
    apply map_lookup_filter_None. right. intros x Hx. simpl.
    assert (x = o) as -> by congruence. congruence.
Qed.

Lemma children_count_delete_child (h : gmap N vlc_object_internals_t) c o :
  h !! c = Some o →
  children_count h (parent o) = S (children_count (delete c h) (parent o)).
Proof.
  intros Ho. unfold children_count. rewrite map_filter_delete.
  rewrite map_size_delete_Some.
  - assert (size (filter (λ kv, parent kv.2 = parent o) h) ≠ 0); [|lia].
    apply map_size_ne_0_lookup. exists c, o.
    by apply map_lookup_filter_Some.
  - exists o. by apply map_lookup_filter_Some.
Qed.

Lemma children_count_delete_other (h : gmap N vlc_object_internals_t) c o p :
  h !! c = Some o → parent o ≠ p →
  children_count (delete c h) p = children_count h p.
Proof.
  intros Ho Hp. unfold children_count. rewrite map_filter_delete.
  apply map_size_delete_None. apply map_lookup_filter_None. right.
  intros x Hx. simpl. congruence.
Qed.

Lemma children_count_zero (h : gmap N vlc_object_internals_t) p c o :
  children_count h p = 0 → h !! c = Some o → parent o ≠ p.
Proof.
  intros Hz Ho Hp. unfold children_count in Hz.
  apply map_size_empty_inv in Hz.
  assert (filter (λ kv, parent kv.2 = p) h !! c = Some o) as Hf
    by by apply map_lookup_filter_Some.
  rewrite Hz in Hf. by rewrite lookup_empty in Hf.
Qed.

Lemma children_count_insert_fresh (h : gmap N vlc_object_internals_t) c o p :
  h !! c = None →
  children_count (<[c := o]> h) p =
    if decide (parent o = p) then S (children_count h p)
    else children_count h p.
Proof.
  intros Hc. unfold children_count. rewrite map_filter_insert. simpl.
  destruct (decide (parent o = p)) as [Hp|Hp].
  - apply map_size_insert_None. apply map_lookup_filter_None. by left.
  - by rewrite delete_id.
Qed.

Lemma children_count_none (h : gmap N vlc_object_internals_t) p :
  (∀ c o, h !! c = Some o → parent o ≠ p) → children_count h p = 0.
Proof.
  intros H. unfold children_count. apply map_size_empty_iff.
  apply map_empty. intros c. apply map_lookup_filter_None. right.
  intros o Ho. simpl. by apply (H c).
Qed.

Lemma tree_inv_ref_update s obj o r evs :
  tree_inv s → heap s !! obj = Some o →
  (1 ≤ r ≤ UINT_MAX)%Z → (Z.of_nat (children_count (heap s) obj) ≤ r)%Z →
  tree_inv (add_trace evs (ref_update obj o r s)).
Proof.
  intros [Hlk Hnull Hlist Hpar Hres Hrefs] Ho Hr Hcc.
  assert (∀ q, children_count (<[obj := set_refs r o]> (heap s)) q
               = children_count (heap s) q) as Hsame.
  { intros q. by apply children_count_insert_same with o. }
  split; simpl.
  - done.
  - rewrite lookup_insert_ne; [done|]. intros ->. congruence.
  - intros c Hc. destruct (Hlist c Hc) as (oc & Hoc & Hpc).
    destruct (decide (c = obj)) as [->|Hne].
    + rewrite lookup_insert_eq. eexists. split; [done|]. simpl. congruence.
    + rewrite lookup_insert_ne by done. by exists oc.
  - intros c oc Hoc Hpc.
    assert (∃ oc0, heap s !! c = Some oc0 ∧ parent oc0 = parent oc)
      as (oc0 & Hoc0 & Hpeq).
    { destruct (decide (c = obj)) as [->|Hne].
      - rewrite lookup_insert_eq in Hoc. injection Hoc as <-. by exists o.
      - rewrite lookup_insert_ne in Hoc by done. by exists oc. }
    rewrite <- Hpeq in *. destruct (Hpar c oc0 Hoc0 Hpc) as [po Hpo].
    destruct (decide (parent oc0 = obj)) as [->|Hne].
    + rewrite lookup_insert_eq. by eexists.
    + rewrite lookup_insert_ne by done. by exists po.
  - intros p op Hop. destruct (decide (p = obj)) as [->|Hne].
    + rewrite lookup_insert_eq in Hop. injection Hop as <-. simpl.
      by apply (Hres obj).
    + rewrite lookup_insert_ne in Hop by done. by apply (Hres p).
  - intros p op Hop. rewrite Hsame.
    destruct (decide (p = obj)) as [->|Hne].
    + rewrite lookup_insert_eq in Hop. injection Hop as <-. simpl. done.
    + rewrite lookup_insert_ne in Hop by done. by apply Hrefs.
Qed.

Lemma children_count_delete_le (h : gmap N vlc_object_internals_t) c p :
  children_count (delete c h) p ≤ children_count h p.
Proof.
  destruct (h !! c) as [o|] eqn:E.
  - destruct (decide (parent o = p)) as [<-|Hne].
    + rewrite (children_count_delete_child h c o E). lia.
    + by rewrite (children_count_delete_other h c o p).
  - by rewrite delete_id.
Qed.

Lemma tree_inv_delete s obj o (l : list N) evs :
  tree_inv s → heap s !! obj = Some o →
  children_count (heap s) obj = 0 →
  (∀ c, c ∈ l → c ∈ tree_list s ∧ c ≠ obj) →
  tree_inv (add_trace evs
              (set_tree_list l (set_heap (delete obj (heap s)) s))).
Proof.
  intros [Hlk Hnull Hlist Hpar Hres Hrefs] Ho Hz Hl.
  split; simpl.
  - done.
  - destruct (decide (NULL = obj)) as [<-|Hne];
      [apply lookup_delete_eq | by rewrite lookup_delete_ne].
  - intros c Hc. destruct (Hl c Hc) as [Hin Hne].
    rewrite lookup_delete_ne by done. by apply Hlist.
  - intros c oc Hoc Hpc.
    apply lookup_delete_Some in Hoc as [Hne Hoc].
    rewrite lookup_delete_ne; [by apply (Hpar c)|].
    intros Heq. by apply (children_count_zero _ _ _ _ Hz Hoc).
  - intros p op Hop. apply lookup_delete_Some in Hop as [_ Hop].
    by apply (Hres p).
  - intros p op Hop. apply lookup_delete_Some in Hop as [_ Hop].
    destruct (Hrefs p op Hop) as [Hr Hcc]. split; [done|].
    pose proof (children_count_delete_le (heap s) obj p). lia.
Qed.

Lemma tree_inv_no_children s obj :
  tree_inv s → children_count (heap s) obj = 0 → no_children s obj.
Proof.
  intros Hinv Hz c Hc _. destruct (inv_list s Hinv c Hc) as (oc & Hoc & _).
  exists oc. split; [done|]. by apply (children_count_zero _ _ _ _ Hz Hoc).
Qed.

(** In a state that satisfies the invariant, the release of a reference
    that the caller owns returns, whatever the length of the chain of
    parents it destroys, and the invariant holds again. *)
Lemma release_preserves_inv fuel :
  ∀ s obj, tree_inv s → owned s obj → size (heap s) ≤ fuel →
    ∃ s', vlc_object_release fuel obj s = Done tt s' ∧ tree_inv s'.
Proof.
  induction fuel as [|fuel IH]; intros s obj Hinv (o & Ho & Hown) Hsize.
  { assert (size (heap s) ≠ 0); [|lia].
    apply map_size_ne_0_lookup. by exists obj, o. }
  destruct (inv_refs s Hinv obj o Ho) as [[Hr1 Hrm] Hcc].
  destruct (decide (1 < refs o)%Z) as [Hgt|Hle].
  { rewrite (release_fast s obj o fuel Ho Hgt). eexists. split; [done|].
    apply tree_inv_ref_update; try done; rewrite uint_small; lia. }
  assert (refs o = 1%Z) as Hone by lia.
  assert (children_count (heap s) obj = 0) as Hz by lia.
  pose proof (tree_inv_no_children s obj Hinv Hz) as Hnc.
  pose proof (inv_resources s Hinv obj o Ho) as Hres.
  pose proof (inv_lock s Hinv) as Hlk.
  destruct (decide (parent o = NULL)) as [Hp|Hp].
  - assert (obj ≠ NULL) as Hon.
    { intros ->. pose proof (inv_null s Hinv). congruence. }
    rewrite (release_last_root s obj o fuel Ho Hone Hp Hon Hlk Hres Hnc).
    eexists. split; [done|].
    change (set_heap (delete obj (heap s)) s)
      with (set_tree_list (tree_list s) (set_heap (delete obj (heap s)) s)).
    apply (tree_inv_delete s obj o); try done.
    intros c Hc. split; [done|]. intros ->.
    destruct (inv_list s Hinv obj Hc) as (o' & Ho' & Hp'). congruence.
  - rewrite (release_last_child s obj o fuel Ho Hone Hp Hlk Hres Hnc).
    destruct (inv_parent s Hinv obj o Ho Hp) as [po Hpo].
    assert (parent o ≠ obj) as Hne.
    { intros Heq. by apply (children_count_zero _ _ _ _ Hz Ho). }
    apply IH.
    + apply (tree_inv_delete s obj o); try done.
      intros c Hc. apply list_elem_of_filter in Hc as [Hc1 Hc2]. done.
    + exists po. simpl. split; [by rewrite lookup_delete_ne|].
      destruct (inv_refs s Hinv (parent o) po Hpo) as [_ Hccp].
      rewrite (children_count_delete_child (heap s) obj o Ho) in Hccp. lia.
    + simpl. rewrite map_size_delete_Some by by exists o. lia.
Qed.

Lemma tree_inv_same s s' :
  tree_inv s → heap s' = heap s → tree_list s' = tree_list s →
  tree_lock s' = tree_lock s → tree_inv s'.
Proof.
  intros [Hlk Hnull Hlist Hpar Hres Hrefs] Hh Hl Hk.
  split; rewrite ?Hh, ?Hl, ?Hk; done.
Qed.

(** A fresh object enters the heap: without a parent, or as one more child
    of an allocated parent whose count has room for it. *)
Lemma tree_inv_insert_fresh s m o (l : list N) evs :
  tree_inv s → m ≠ NULL → heap s !! m = None →
  resources o = NULL → refs o = 1%Z →
  (parent o = NULL ∧ l = tree_list s
   ∨ parent o ≠ NULL ∧ l = tree_list s ++ [m] ∧
     ∃ po, heap s !! parent o = Some po ∧
           (Z.of_nat (children_count (heap s) (parent o)) < refs po)%Z) →
  tree_inv (add_trace evs (set_tree_list l (set_heap (<[m := o]> (heap s)) s))).
Proof.
  intros [Hlk Hnull Hlist Hpar Hres Hrefs] Hm Hfresh Hro Hr1 Hcase.
  assert (∀ c oc, heap s !! c = Some oc → c ≠ m) as Hne
    by (intros c oc Hoc ->; congruence).
  assert (children_count (heap s) m = 0) as Hzm.
  { apply children_count_none. intros c oc Hoc Hp.
    destruct (Hpar c oc Hoc) as [x Hx]; [congruence|]. congruence. }
  split; simpl.
  - done.
  - by rewrite lookup_insert_ne.
  - intros c Hc.
    assert (c ∈ tree_list s ∨ (c = m ∧ parent o ≠ NULL)) as [Hin|[-> Hp]].
    { destruct Hcase as [[_ ->]|(Hp & -> & _)]; [by left|].
      apply elem_of_app in Hc as [Hc|Hc]; [by left|].
      apply list_elem_of_singleton in Hc. by right. }
    + destruct (Hlist c Hin) as (oc & Hoc & Hpc). exists oc.
      rewrite lookup_insert_ne; [done|]. intros ->. congruence.
    + exists o. by rewrite lookup_insert_eq.
  - intros c oc Hoc Hpc. destruct (decide (c = m)) as [->|Hcm].
    + rewrite lookup_insert_eq in Hoc. injection Hoc as <-.
      destruct Hcase as [[Hp _]|(_ & _ & po & Hpo & _)]; [done|].
      rewrite lookup_insert_ne; [by exists po|]. intros Heq.
      rewrite <- Heq in Hpo. congruence.
    + rewrite lookup_insert_ne in Hoc by done.
      destruct (Hpar c oc Hoc Hpc) as [x Hx].
      rewrite lookup_insert_ne; [by exists x|]. intros Heq.
      rewrite <- Heq in Hx. congruence.
  - intros p op Hop. destruct (decide (p = m)) as [->|Hpm].
    + rewrite lookup_insert_eq in Hop. by injection Hop as <-.
    + rewrite lookup_insert_ne in Hop by done. by apply (Hres p).
  - intros p op Hop. rewrite children_count_insert_fresh by done.
    destruct (decide (p = m)) as [->|Hpm].
    + rewrite lookup_insert_eq in Hop. injection Hop as <-.
      split; [unfold UINT_MAX; lia|].
      destruct (decide (parent o = m)) as [Heq|_]; [|lia].
      destruct Hcase as [[Hp _]|(_ & _ & po & Hpo & _)]; [congruence|].
      rewrite Heq in Hpo. congruence.
    + rewrite lookup_insert_ne in Hop by done.
      destruct (Hrefs p op Hop) as [Hr Hcc]. split; [done|].
      destruct (decide (parent o = p)) as [Heq|_]; [|done].
      destruct Hcase as [[Hp _]|(_ & _ & po & Hpo & Hlt)].
      * rewrite Hp in Heq. subst p. congruence.
      * rewrite Heq in Hpo, Hlt. assert (po = op) as -> by congruence. lia.
Qed.

Lemma tree_inv_created_root sz vs vc m len ty s :
  tree_inv s → m ≠ NULL → heap s !! m = None →
  tree_inv (created_root sz vs vc m len ty s).
Proof.
  intros Hinv Hm Hfresh. unfold created_root.
  change (set_heap ?h s) with (set_tree_list (tree_list s) (set_heap h s)).
  apply tree_inv_insert_fresh; try done. by left.
Qed.

Lemma tree_inv_created_child sz m p len ty par s :
  tree_inv s → m ≠ NULL → heap s !! m = None → p ≠ NULL →
  heap s !! p = Some par → (refs par < UINT_MAX)%Z →
  tree_inv (created_child sz m p len ty par s).
Proof.
  intros Hinv Hm Hfresh Hp Hpar Hmax.
  destruct (inv_refs s Hinv p par Hpar) as [[Hr1 _] Hcc].
  assert (m ≠ p) as Hmp by (intros ->; congruence).
  pose proof (tree_inv_ref_update s p par (uint (refs par + 1)) [] Hinv Hpar)
    as Hinv1.
  rewrite uint_small in Hinv1 by lia.
  specialize (Hinv1 ltac:(lia) ltac:(lia)).
  set (s1 := add_trace [] (ref_update p par (refs par + 1) s)) in *.
  set (child := set_parent p
                  (set_no_interact (no_interact par)
                     (set_logger (logger par) (new_object sz len ty)))).
  apply (tree_inv_same
           (add_trace [] (set_tree_list (tree_list s1 ++ [m])
                            (set_heap (<[m := child]> (heap s1)) s1))));
    [|unfold created_child; rewrite uint_small by lia; reflexivity..].
  apply tree_inv_insert_fresh; try done.
  - simpl. by rewrite lookup_insert_ne.
  - right. split; [done|]. split; [done|].
    exists (set_refs (refs par + 1) par). simpl.
    rewrite lookup_insert_eq. split; [done|].
    rewrite (children_count_insert_same _ _ par) by done. simpl. lia.
Qed.

Lemma tree_inv_init : tree_inv init_state.
Proof.
  split; simpl; try done.
  all: try (intros c Hc; by apply elem_of_nil in Hc).
  all: try (intros p o Ho; by rewrite lookup_empty in Ho).
Qed.

Lemma reachable_inv sz vs vc s : reachable sz vs vc s → tree_inv s.
Proof.
  induction 1 as [|s m p len ty s' _ IH Hm Hfresh Hlen Hp Hrun
                  |s obj o s' _ IH Ho Hmax Hrun
                  |s obj s' _ IH Hown Hrun].
  - apply tree_inv_init.
  - destruct Hp as [->|(po & Hpo & Hmax)].
    + rewrite create_root_Done in Hrun by done. injection Hrun as <-.
      by apply tree_inv_created_root.
    + assert (p ≠ NULL) as Hpn.
      { intros ->. pose proof (inv_null s IH). congruence. }
      destruct (inv_refs s IH p po Hpo) as [[Hr1 _] _].
      rewrite (create_child_Done sz vs vc m p len ty po) in Hrun;
        try done; [|lia|by apply inv_lock].
      injection Hrun as <-. by apply tree_inv_created_child.
  - destruct (inv_refs s IH obj o Ho) as [[Hr1 _] Hcc].
    rewrite (vlc_object_hold_Some s obj o Ho) in Hrun by lia.
    injection Hrun as <-.
    apply tree_inv_ref_update; try done; rewrite uint_small; lia.
  - destruct (release_preserves_inv (size (heap s)) s obj IH Hown)
      as (s'' & Hrun' & Hinv'); [done|].
    rewrite Hrun' in Hrun. by injection Hrun as <-.
Qed.

Lemma ex_reach_mid_reachable :
  reachable ex_sizeof ex_VAR_STRING ex_VAR_ISCOMMAND ex_reach_mid.
Proof.
  apply (reach_create _ _ _ ex_reach_root 2%N 1%N 24%N "mid").
  - apply (reach_create _ _ _ init_state 1%N NULL 16%N "libvlc").
    + apply reach_init.
    + done.
    + by vm_compute.
    + by vm_compute.
    + by left.
    + by vm_compute.
  - done.
  - by vm_compute.
  - by vm_compute.
  - right. exists (ex_obj "libvlc" ex_root_vars 1 NULL 0).
    split; [by vm_compute|]. simpl. unfold UINT_MAX. lia.
  - by vm_compute.
Qed.

(** ** Every child holds one reference on its parent *)

Lemma counted_lookup s ext p o :
  counted s ext → heap s !! p = Some o →
  refs o = (Z.of_nat (ext p) + Z.of_nat (children_count (heap s) p))%Z.
Proof. intros H Ho. specialize (H p). by rewrite Ho in H. Qed.

Lemma counted_held s ext p :
  counted s ext → 0 < ext p → is_Some (heap s !! p).
Proof.
  intros H Hp. specialize (H p). destruct (heap s !! p); [by eexists | lia].
Qed.

Lemma counted_ext s ext ext' :
  counted s ext → (∀ p, ext' p = ext p) → counted s ext'.
Proof. intros H He p. specialize (H p). by rewrite He. Qed.

Lemma counted_same s s' ext :
  counted s ext → heap s' = heap s → counted s' ext.
Proof. intros H Hh p. rewrite Hh. apply H. Qed.

Lemma ext_add_eq obj ext : ext_add obj ext obj = S (ext obj).
Proof. unfold ext_add. by rewrite decide_True. Qed.

Lemma ext_add_ne obj ext p : p ≠ obj → ext_add obj ext p = ext p.
Proof. intros H. unfold ext_add. by rewrite decide_False. Qed.

Lemma ext_sub_eq obj ext : ext_sub obj ext obj = pred (ext obj).
Proof. unfold ext_sub. by rewrite decide_True. Qed.

Lemma ext_sub_ne obj ext p : p ≠ obj → ext_sub obj ext p = ext p.
Proof. intros H. unfold ext_sub. by rewrite decide_False. Qed.

Lemma counted_init : counted init_state (λ _, 0).
Proof. intros p. simpl. by rewrite lookup_empty. Qed.

(** A change of the count of [obj] alone, matched in the table. *)
Lemma counted_ref_update s ext ext' obj o r evs :
  counted s ext → heap s !! obj = Some o →
  r = (Z.of_nat (ext' obj) + Z.of_nat (children_count (heap s) obj))%Z →
  (∀ p, p ≠ obj → ext' p = ext p) →
  counted (add_trace evs (ref_update obj o r s)) ext'.
Proof.
  intros Hcnt Ho Hr He p.
  change (heap (add_trace evs (ref_update obj o r s)))
    with (<[obj := set_refs r o]> (heap s)).
  destruct (decide (p = obj)) as [->|Hne].
  - rewrite lookup_insert_eq. simpl.
    by rewrite (children_count_insert_same _ _ o).
  - rewrite lookup_insert_ne by done. rewrite (He p Hne).
    specialize (Hcnt p). destruct (heap s !! p); [|done].
    by rewrite (children_count_insert_same _ _ o).
Qed.

(** The object [obj], without children and with one client reference,
    leaves the memory; the reference it held on its parent passes to the
    table until the parent is released. *)
Lemma counted_delete s ext obj o (l : list N) evs :
  tree_inv s → counted s ext → heap s !! obj = Some o →
  ext obj = 1 → children_count (heap s) obj = 0 →
  counted (add_trace evs (set_tree_list l (set_heap (delete obj (heap s)) s)))
          (if decide (parent o = NULL) then ext_sub obj ext
           else ext_add (parent o) (ext_sub obj ext)).
Proof.
  intros Hinv Hcnt Ho He1 Hz p.
  change (heap (add_trace evs
                  (set_tree_list l (set_heap (delete obj (heap s)) s))))
    with (delete obj (heap s)).
  assert (parent o ≠ obj) as Hpo
    by by apply (children_count_zero _ _ _ _ Hz Ho).
  destruct (decide (p = obj)) as [->|Hne].
  - rewrite lookup_delete_eq.
    destruct (decide (parent o = NULL));
      [|rewrite ext_add_ne by done]; rewrite ext_sub_eq; lia.
  - rewrite lookup_delete_ne by done. specialize (Hcnt p).
    destruct (heap s !! p) as [op|] eqn:Hp.
    + destruct (decide (p = parent o)) as [->|Hpp].
      * rewrite (children_count_delete_child (heap s) obj o Ho) in Hcnt.
        assert (parent o ≠ NULL) as Hpn.
        { intros Heq. rewrite Heq in Hp. pose proof (inv_null s Hinv).
          congruence. }
        rewrite decide_False by done.
        rewrite ext_add_eq, ext_sub_ne by done. lia.
      * rewrite (children_count_delete_other (heap s) obj o p Ho)
          by congruence.
        destruct (decide (parent o = NULL));
          [|rewrite ext_add_ne by done]; by rewrite ext_sub_ne.
    + destruct (decide (parent o = NULL)) as [Hn|Hn];
        [by rewrite ext_sub_ne|].
      destruct (inv_parent s Hinv obj o Ho Hn) as [po Hpo'].
      rewrite ext_add_ne by congruence. by rewrite ext_sub_ne.
Qed.

(** The release of a reference that a client holds returns, and the counts
    are again the client references plus one for each child. *)
Lemma release_counted fuel :
  ∀ s ext obj, tree_inv s → counted s ext → 0 < ext obj →
    size (heap s) ≤ fuel →
    ∃ s', vlc_object_release fuel obj s = Done tt s' ∧
          tree_inv s' ∧ counted s' (ext_sub obj ext).
Proof.
  induction fuel as [|fuel IH]; intros s ext obj Hinv Hcnt Hext Hsize;
    destruct (counted_held s ext obj Hcnt Hext) as [o Ho].
  { assert (size (heap s) ≠ 0); [|lia].
    apply map_size_ne_0_lookup. by exists obj, o. }
  pose proof (counted_lookup s ext obj o Hcnt Ho) as Hro.
  destruct (inv_refs s Hinv obj o Ho) as [[Hr1 Hrm] Hcc].
  destruct (decide (1 < refs o)%Z) as [Hgt|Hle].
  { rewrite (release_fast s obj o fuel Ho Hgt). eexists. split; [done|].
    split.
    - apply tree_inv_ref_update; try done; rewrite uint_small; lia.
    - apply (counted_ref_update s ext); try done.
      + rewrite ext_sub_eq, uint_small; lia.
      + intros p Hp. by apply ext_sub_ne. }
  assert (refs o = 1%Z) as Hone by lia.
  assert (ext obj = 1) as He1 by lia.
  assert (children_count (heap s) obj = 0) as Hz by lia.
  pose proof (tree_inv_no_children s obj Hinv Hz) as Hnc.
  pose proof (inv_resources s Hinv obj o Ho) as Hres.
  pose proof (inv_lock s Hinv) as Hlk.
  pose proof (counted_delete s ext obj o) as Hdel.
  destruct (decide (parent o = NULL)) as [Hp|Hp].
  - assert (obj ≠ NULL) as Hon.
    { intros ->. pose proof (inv_null s Hinv). congruence. }
    rewrite (release_last_root s obj o fuel Ho Hone Hp Hon Hlk Hres Hnc).
    eexists. split; [done|].
    change (set_heap (delete obj (heap s)) s)
      with (set_tree_list (tree_list s) (set_heap (delete obj (heap s)) s)).
    split.
    + apply (tree_inv_delete s obj o); try done.
      intros c Hc. split; [done|]. intros ->.
      destruct (inv_list s Hinv obj Hc) as (o' & Ho' & Hp'). congruence.
    + by apply Hdel.
  - rewrite (release_last_child s obj o fuel Ho Hone Hp Hlk Hres Hnc).
    destruct (inv_parent s Hinv obj o Ho Hp) as [po Hpo].
    assert (parent o ≠ obj) as Hne
      by by apply (children_count_zero _ _ _ _ Hz Ho).
    destruct (IH (after_last_release obj o s)
                (ext_add (parent o) (ext_sub obj ext)) (parent o))
      as (s' & Hrun & Hinv' & Hcnt').
    + apply (tree_inv_delete s obj o); try done.
      intros c Hc. apply list_elem_of_filter in Hc as [Hc1 Hc2]. done.
    + by apply Hdel.
    + rewrite ext_add_eq. lia.
    + simpl. rewrite map_size_delete_Some by by exists o. lia.
    + exists s'. split; [done|]. split; [done|].
      apply (counted_ext _ _ _ Hcnt'). intros p.
      destruct (decide (p = parent o)) as [->|Hpp].
      * by rewrite ext_sub_eq, ext_add_eq.
      * by rewrite (ext_sub_ne (parent o)), ext_add_ne.
Qed.

Lemma counted_created_root sz vs vc m len ty s ext :
  tree_inv s → counted s ext → m ≠ NULL → heap s !! m = None →
  counted (created_root sz vs vc m len ty s) (ext_add m ext).
Proof.
  intros Hinv Hcnt Hm Hfresh p.
  change (heap (created_root sz vs vc m len ty s))
    with (<[m := set_var_root (command_variables vs vc)
                   (new_object sz len ty)]> (heap s)).
  pose proof (Hcnt m) as Hem. rewrite Hfresh in Hem.
  destruct (decide (p = m)) as [->|Hne].
  - rewrite lookup_insert_eq, ext_add_eq, Hem.
    rewrite (children_count_insert_fresh _ _ _ _ Hfresh).
    rewrite decide_False by (simpl; congruence).
    rewrite children_count_none; [done|].
    intros c oc Hoc Hpc.
    destruct (inv_parent s Hinv c oc Hoc) as [x Hx]; congruence.
  - rewrite lookup_insert_ne by done. rewrite ext_add_ne by done.
    specialize (Hcnt p). destruct (heap s !! p) eqn:Hp; [|done].
    rewrite (children_count_insert_fresh _ _ _ _ Hfresh).
    rewrite decide_False; [done|]. simpl. intros <-.
    pose proof (inv_null s Hinv). congruence.
Qed.

Lemma counted_created_child sz m p len ty par s ext :
  tree_inv s → counted s ext → m ≠ NULL → heap s !! m = None →
  p ≠ NULL → heap s !! p = Some par → (refs par < UINT_MAX)%Z →
  counted (created_child sz m p len ty par s) (ext_add m ext).
Proof.
  intros Hinv Hcnt Hm Hfresh Hpn Hpar Hmax q.
  change (heap (created_child sz m p len ty par s))
    with (<[m := set_parent p
                   (set_no_interact (no_interact par)
                      (set_logger (logger par) (new_object sz len ty)))]>
            (<[p := set_refs (uint (refs par + 1)) par]> (heap s))).
  assert (m ≠ p) as Hmp by congruence.
  assert ((<[p := set_refs (uint (refs par + 1)) par]> (heap s)) !! m = None)
    as Hfresh' by by rewrite lookup_insert_ne.
  destruct (inv_refs s Hinv p par Hpar) as [[Hr1 _] _].
  pose proof (Hcnt m) as Hem. rewrite Hfresh in Hem.
  rewrite (children_count_insert_fresh _ _ _ _ Hfresh').
  rewrite (children_count_insert_same _ _ par) by done.
  change (parent (set_parent p _)) with p.
  destruct (decide (q = m)) as [->|Hne].
  - rewrite lookup_insert_eq, ext_add_eq, Hem.
    rewrite decide_False by done.
    rewrite children_count_none; [done|].
    intros c oc Hoc Hpc.
    destruct (inv_parent s Hinv c oc Hoc) as [x Hx]; congruence.
  - rewrite lookup_insert_ne by done. rewrite ext_add_ne by done.
    destruct (decide (p = q)) as [<-|Hpq].
    + rewrite lookup_insert_eq. simpl. rewrite uint_small by lia.
      rewrite (counted_lookup s ext p par Hcnt Hpar). lia.
    + rewrite lookup_insert_ne by done. apply Hcnt.
Qed.

Lemma client_run_inv sz vs vc s ext :
  client_run sz vs vc s ext → tree_inv s ∧ counted s ext.
Proof.
  induction 1 as [|s ext m p len ty s' _ [IH IHc] Hm Hfresh Hlen Hp Hrun
                  |s ext obj o s' _ [IH IHc] Ho Hmax Hrun
                  |s ext obj s' _ [IH IHc] Hext Hrun].
  - split; [apply tree_inv_init | apply counted_init].
  - destruct Hp as [->|(po & Hpo & Hmax)].
    + rewrite create_root_Done in Hrun by done. injection Hrun as <-.
      split; [by apply tree_inv_created_root | by apply counted_created_root].
    + assert (p ≠ NULL) as Hpn.
      { intros ->. pose proof (inv_null s IH). congruence. }
      destruct (inv_refs s IH p po Hpo) as [[Hr1 _] _].
      rewrite (create_child_Done sz vs vc m p len ty po) in Hrun;
        try done; [|lia|by apply inv_lock].
      injection Hrun as <-.
      split; [by apply tree_inv_created_child
             | by apply counted_created_child].
  - destruct (inv_refs s IH obj o Ho) as [[Hr1 _] Hcc].
    rewrite (vlc_object_hold_Some s obj o Ho) in Hrun by lia.
    injection Hrun as <-. split.
    + apply tree_inv_ref_update; try done; rewrite uint_small; lia.
    + apply (counted_ref_update s ext); try done.
      * rewrite ext_add_eq, uint_small by lia.
        rewrite (counted_lookup s ext obj o IHc Ho). lia.
      * intros p Hp. by apply ext_add_ne.
  - destruct (release_counted (size (heap s)) s ext obj IH IHc Hext)
      as (s'' & Hrun' & Hinv' & Hcnt'); [done|].
    rewrite Hrun' in Hrun. by injection Hrun as <-.
Qed.

Lemma destroy_events_last p o : ∃ pre, destroy_events p o = pre ++ [EvFree p].
Proof.
  exists ([EvSaveCancel] ++
          match pf_destructor o with
          | Some f => [EvDestructor f p]
          | None => []
          end ++
          (if (parent o =? NULL)%N
           then [EvVarDelCallback p "vars" VarsCommand_cb NULL;
                 EvVarDelCallback p "tree" TreeCommand_cb NULL]
           else []) ++
          [EvVarDestroyAll p; EvRestoreCancel;
           EvVarWaitDestroy p; EvVarLockDestroy p]).
  unfold destroy_events. by rewrite <- !app_assoc.
Qed.

(** C3: in every state that clients reach by creations, holds and
    releases of references they hold, the count of an allocated object is
    the number of references that clients hold on it plus exactly one for
    each of its children; so the parent of an allocated child is allocated
    with a count above zero.  The child's reference is taken by its
    creation, which raises the parent's count by one.  A release of the
    child that is not its last leaves everything but the child's count as
    it is; its last release frees the child and only then, from the state
    in which the child is gone and the parent's count is still what it
    was, releases the parent, once. *)
Theorem child_holds_parent sz vs vc s ext :
  client_run sz vs vc s ext →
  (∀ p po, heap s !! p = Some po →
     refs po = (Z.of_nat (ext p) + Z.of_nat (children_count (heap s) p))%Z)
  ∧ (∀ c o, heap s !! c = Some o → parent o ≠ NULL →
       ∃ po, heap s !! parent o = Some po ∧
             (1 ≤ Z.of_nat (children_count (heap s) (parent o)) ≤ refs po)%Z)
  ∧ (∀ m p po len ty,
       m ≠ NULL → heap s !! m = None → (sz ≤ len)%N →
       heap s !! p = Some po → (refs po < UINT_MAX)%Z →
       ∃ s', vlc_custom_create sz vs vc m p len ty s = Done m s' ∧
             parent <$> heap s' !! m = Some p ∧
             heap s' !! p = Some (set_refs (refs po + 1) po) ∧
             client_run sz vs vc s' (ext_add m ext))
  ∧ (∀ c o, heap s !! c = Some o → parent o ≠ NULL → 0 < ext c →
       ∃ s', vlc_object_release (size (heap s)) c s = Done tt s' ∧
             client_run sz vs vc s' (ext_sub c ext) ∧
             if (1 <? refs o)%Z
             then s' = add_trace [EvCasDec c (refs o)]
                         (ref_update c o (refs o - 1) s)
             else heap s' !! c = None ∧
                  last (trace (after_last_release c o s)) = Some (EvFree c) ∧
                  heap (after_last_release c o s) !! c = None ∧
                  heap (after_last_release c o s) !! parent o
                    = heap s !! parent o ∧
                  ∀ fuel, vlc_object_release (S fuel) c s =
                            vlc_object_release fuel (parent o)
                              (after_last_release c o s)).
Proof.
  intros Hrun. destruct (client_run_inv _ _ _ _ _ Hrun) as [Hinv Hcnt].
  split; [|split; [|split]].
  - intros p po Hpo. by apply counted_lookup.
  - intros c o Ho Hp. destruct (inv_parent s Hinv c o Ho Hp) as [po Hpo].
    exists po. split; [done|].
    destruct (inv_refs s Hinv (parent o) po Hpo) as [_ Hcc].
    rewrite (children_count_delete_child (heap s) c o Ho) in Hcc |- *. lia.
  - intros m p po len ty Hm Hfresh Hlen Hpo Hmax.
    assert (p ≠ NULL) as Hpn.
    { intros ->. pose proof (inv_null s Hinv). congruence. }
    destruct (inv_refs s Hinv p po Hpo) as [[Hr1 _] _].
    assert (vlc_custom_create sz vs vc m p len ty s =
              Done m (created_child sz m p len ty po s)) as Hcr.
    { apply create_child_Done; try done; [lia | by apply inv_lock]. }
    exists (created_child sz m p len ty po s). split; [done|].
    assert (m ≠ p) as Hmp by congruence.
    split; [|split].
    + simpl. by rewrite lookup_insert_eq.
    + simpl. rewrite lookup_insert_ne by done.
      rewrite lookup_insert_eq. by rewrite uint_small by lia.
    + apply (run_create sz vs vc s ext m p len ty); try done.
      right. by exists po.
  - intros c o Ho Hp Hext.
    destruct (release_counted (size (heap s)) s ext c Hinv Hcnt Hext)
      as (s' & Hrel & Hinv' & Hcnt'); [done|].
    exists s'. split; [done|].
    split; [by apply (run_release sz vs vc s ext c)|].
    pose proof (counted_lookup s ext c o Hcnt Ho) as Hro.
    destruct (inv_refs s Hinv c o Ho) as [[Hr1 Hrm] Hcc].
    assert (size (heap s) ≠ 0) as Hsz
      by (apply map_size_ne_0_lookup; by exists c, o).
    destruct (size (heap s)) as [|n] eqn:En; [done|].
    destruct (1 <? refs o)%Z eqn:E.
    + apply Z.ltb_lt in E. rewrite (release_fast s c o n Ho E) in Hrel.
      injection Hrel as <-. by rewrite uint_small by lia.
    + apply Z.ltb_ge in E.
      assert (refs o = 1%Z) as Hone by lia.
      assert (children_count (heap s) c = 0) as Hz by lia.
      assert (parent o ≠ c) as Hne
        by by apply (children_count_zero _ _ _ _ Hz Ho).
      pose proof (tree_inv_no_children s c Hinv Hz) as Hnc.
      pose proof (inv_resources s Hinv c o Ho) as Hres.
      pose proof (inv_lock s Hinv) as Hlk.
      split; [|split; [|split; [|split]]].
      * rewrite (release_last_child s c o n Ho Hone Hp Hlk Hres Hnc) in Hrel.
        destruct (steps_vlc_object_release n (parent o)
                    (after_last_release c o s)) as (evs & _ & Hfree).
        rewrite Hrel in Hfree. apply (Hfree c). simpl.
        apply lookup_delete_eq.
      * destruct (destroy_events_last c o) as [pre Hpre].
        change (trace (after_last_release c o s))
          with (trace s ++
                ([EvMutexLock; EvFetchSub c 1; EvListRemove c; EvMutexUnlock;
                  EvMutexLock; EvMutexUnlock] ++ destroy_events c o)).
        rewrite Hpre, !app_assoc. apply last_snoc.
      * simpl. apply lookup_delete_eq.
      * simpl. by rewrite lookup_delete_ne.
      * intros fuel. by apply release_last_child.
Qed.

Lemma ex_client_run :
  client_run ex_sizeof ex_VAR_STRING ex_VAR_ISCOMMAND
    ex_client_state ex_client_ext.
Proof.
  apply (run_release _ _ _ ex_client_leaf _ 2%N); [| by vm_compute | by vm_compute].
  apply (run_create _ _ _ ex_reach_mid _ 3%N 2%N 16%N "leaf");
    [| done | by vm_compute | by vm_compute | | by vm_compute].
  - apply (run_create _ _ _ ex_reach_root _ 2%N 1%N 24%N "mid");
      [| done | by vm_compute | by vm_compute | | by vm_compute].
    + apply (run_create _ _ _ init_state _ 1%N NULL 16%N "libvlc");
        [apply run_init | done | by vm_compute | by vm_compute | by left
        | by vm_compute].
    + right. exists (ex_obj "libvlc" ex_root_vars 1 NULL 0).
      split; [by vm_compute|]. simpl. unfold UINT_MAX. lia.
  - right. exists (ex_obj "mid" [] 1 1%N 8).
    split; [by vm_compute|]. simpl. unfold UINT_MAX. lia.
Qed.

Lemma child_holds_parent_witness :
  ex_client_ext 2%N = 0 ∧
  heap ex_client_state !! 3%N = Some (ex_obj "leaf" [] 1 2%N 0) ∧
  heap ex_client_state !! 2%N = Some (ex_obj "mid" [] 1 1%N 8) ∧
  (1 = Z.of_nat (ex_client_ext 2%N) +
       Z.of_nat (children_count (heap ex_client_state) 2%N))%Z ∧
  ∃ s', vlc_object_release 3 3%N ex_client_state = Done tt s' ∧
        heap s' !! 3%N = None ∧
        client_run ex_sizeof ex_VAR_STRING ex_VAR_ISCOMMAND s'
          (ext_sub 3%N ex_client_ext).
Proof.
  split; [by vm_compute|].
  assert (heap ex_client_state !! 3%N = Some (ex_obj "leaf" [] 1 2%N 0))
    as Hleaf by by vm_compute.
  assert (heap ex_client_state !! 2%N = Some (ex_obj "mid" [] 1 1%N 8))
    as Hmid by by vm_compute.
  assert (0 < ex_client_ext 3%N) as Hext by (vm_compute; lia).
  split; [exact Hleaf|]. split; [exact Hmid|].
  destruct (child_holds_parent ex_sizeof ex_VAR_STRING ex_VAR_ISCOMMAND
              ex_client_state ex_client_ext ex_client_run)
    as (Hcount & _ & _ & Hrelease).
  split; [exact (Hcount 2%N (ex_obj "mid" [] 1 1%N 8) Hmid)|].
  destruct (Hrelease 3%N (ex_obj "leaf" [] 1 2%N 0) Hleaf ltac:(done) Hext)
    as (s' & Hrel & Hrun & Hif).
  exists s'. split; [|split; [|exact Hrun]].
  - vm_compute in Hrel. vm_compute. exact Hrel.
  - cbn [refs ex_obj Z.ltb Z.compare Pos.compare Pos.compare_cont] in Hif.
    exact (proj1 Hif).
Defined.

(** * Further properties of the object core *)

(** ** Hold and release compose *)

(** X1: a hold followed by a release of the same allocated object, whose
    count is positive and below [UINT_MAX], returns with memory, list and
    lock as they were: the pair only adds its two atomic operations to the
    trace. *)
Theorem hold_release_roundtrip s obj o fuel :
  heap s !! obj = Some o → (0 < refs o < UINT_MAX)%Z →
  (vlc_object_hold obj;; vlc_object_release (S fuel) obj) s =
    Done tt (add_trace [EvFetchAdd obj (refs o); EvCasDec obj (refs o + 1)] s).
Proof.
  intros Ho [Hr Hm].
  mstep (vlc_object_hold_Some s obj o Ho Hr).
  rewrite uint_small by lia.
  erewrite (release_fast _ obj (set_refs (refs o + 1) o) fuel); cycle 1.
  { simpl. apply lookup_insert_eq. }
  { simpl. lia. }
  f_equal. unfold add_trace, set_trace, ref_update, set_heap. simpl.
  replace (refs o + 1 - 1)%Z with (refs o) by lia.
  rewrite uint_small by lia.
  rewrite insert_insert_eq, set_refs_back, insert_id by done.
  destruct s; simpl. by rewrite <- app_assoc.
Qed.

Lemma hold_release_roundtrip_witness :
  heap ex_leaf_state !! 3%N = Some (ex_obj "leaf" [] 1 2%N 0) ∧
  (vlc_object_hold 3%N;; vlc_object_release 1 3%N) ex_leaf_state =
    Done tt (add_trace [EvFetchAdd 3%N 1; EvCasDec 3%N 2] ex_leaf_state).
Proof.
  split; [by vm_compute|].
  apply (hold_release_roundtrip ex_leaf_state 3%N
           (ex_obj "leaf" [] 1 2%N 0) 0); [by vm_compute|].
  simpl. unfold UINT_MAX. lia.
Defined.

(** X2: the [vars] command given a text that does not parse as a pointer
    dumps the object it was called on: it holds it, prints and dumps it,
    releases it, and returns [VLC_SUCCESS]; it never takes the structural
    lock, and memory is as before. *)
Theorem VarsCommand_no_pointer sscanf_p s obj o newval fuel :
  sscanf_p newval = None →
  heap s !! obj = Some o → (0 < refs o < UINT_MAX)%Z →
  VarsCommand sscanf_p (S fuel) obj newval s =
    Done VLC_SUCCESS
      (add_trace [EvFetchAdd obj (refs o);
                  EvPrintObject obj (typename o) (parent o);
                  EvDumpVariables obj; EvCasDec obj (refs o + 1)] s).
Proof.
  intros Hscan Ho [Hr Hm]. unfold VarsCommand. rewrite Hscan.
  mstep (vlc_object_hold_Some s obj o Ho Hr).
  rewrite uint_small by lia.
  set (o1 := set_refs (refs o + 1) o).
  set (s1 := add_trace [EvFetchAdd obj (refs o)]
               (ref_update obj o (refs o + 1) s)).
  assert (heap s1 !! obj = Some o1) as Ho1 by apply lookup_insert_eq.
  unfold VarsCommand_dump, vlc_object_typename, DumpVariables.
  erewrite bind_Done; cycle 1.
  { by rewrite (bind_Done _ _ _ _ _ (vlc_internals_Some _ _ _ Ho1)). }
  cbv beta.
  mstep (vlc_object_parent_Some _ _ _ Ho1).
  erewrite bind_Done by reflexivity. cbv beta.
  erewrite bind_Done; cycle 1.
  { erewrite bind_Done; [reflexivity|].
    apply vlc_internals_Some. exact Ho1. }
  cbv beta.
  erewrite bind_Done; cycle 1.
  { apply (release_fast _ obj o1 fuel); [exact Ho1 | simpl; lia]. }
  unfold ret. f_equal.
  unfold o1, s1, add_trace, set_trace, ref_update, set_heap. simpl.
  replace (refs o + 1 - 1)%Z with (refs o) by lia.
  rewrite uint_small by lia.
  rewrite insert_insert_eq, set_refs_back, insert_id by done.
  destruct s; simpl. by rewrite <- !app_assoc.
Qed.

Lemma VarsCommand_no_pointer_witness :
  ex_sscanf_p "" = None ∧
  VarsCommand ex_sscanf_p 1 1%N "" ex_leaf_state =
    Done VLC_SUCCESS
      (add_trace [EvFetchAdd 1%N 2; EvPrintObject 1%N "libvlc" NULL;
                  EvDumpVariables 1%N; EvCasDec 1%N 3] ex_leaf_state).
Proof.
  split; [reflexivity|].
  pose proof (VarsCommand_no_pointer ex_sscanf_p ex_leaf_state 1%N
                (ex_obj "libvlc" ex_root_vars 2 NULL 0) "" 0 eq_refl) as H.
  assert (heap ex_leaf_state !! 1%N
          = Some (ex_obj "libvlc" ex_root_vars 2 NULL 0)) as H1
    by by vm_compute.
  specialize (H H1 ltac:(simpl; unfold UINT_MAX; lia)).
  vm_compute in H. vm_compute. exact H.
Defined.

(** ** The teardown hook *)

(** X3: of two hooks set in a row on an allocated object, the destruction
    calls the second, once, after the cancellation is saved and before the
    variables are destroyed; setting a hook calls nothing. *)
Theorem destructor_last_writer_wins s p priv d1 d2 :
  heap s !! p = Some priv → resources priv = NULL →
  (vlc_object_set_destructor p d1;; vlc_object_set_destructor p d2) s =
    Done tt (set_heap (<[p := set_pf_destructor d2 priv]> (heap s)) s)
  ∧ (vlc_object_set_destructor p d1;; vlc_object_set_destructor p d2;;
     vlc_object_destroy p) s =
    Done tt (add_trace (destroy_events p (set_pf_destructor d2 priv))
               (set_heap (delete p (heap s)) s)).
Proof.
  intros Ho Hres.
  assert ((vlc_object_set_destructor p d1;; vlc_object_set_destructor p d2) s
          = Done tt (set_heap (<[p := set_pf_destructor d2 priv]> (heap s)) s))
    as Hset.
  { unfold vlc_object_set_destructor.
    erewrite bind_Done; cycle 1.
    { by rewrite (bind_Done _ _ _ _ _ (vlc_internals_Some _ _ _ Ho)). }
    cbv beta. erewrite bind_Done; cycle 1.
    { apply vlc_internals_Some. simpl. apply lookup_insert_eq. }
    unfold store, set_heap. simpl. rewrite insert_insert_eq.
    by destruct priv. }
  split; [exact Hset|].
  unfold bind in Hset |- *.
  destruct (vlc_object_set_destructor p d1 s) as [[] s1|f s1];
    [|discriminate].
  rewrite Hset.
  rewrite (vlc_object_destroy_Some _ p (set_pf_destructor d2 priv));
    [|simpl; apply lookup_insert_eq|exact Hres].
  f_equal. unfold add_trace, set_trace, set_heap. simpl.
  by rewrite delete_insert_eq.
Qed.

Lemma destructor_last_writer_wins_witness :
  heap ex_leaf_state !! 3%N = Some (ex_obj "leaf" [] 1 2%N 0) ∧
  (vlc_object_set_destructor 3%N (Some 7%N);;
   vlc_object_set_destructor 3%N (Some 9%N);;
   vlc_object_destroy 3%N) ex_leaf_state =
    Done tt (add_trace [EvSaveCancel; EvDestructor 9%N 3%N;
                        EvVarDestroyAll 3%N; EvRestoreCancel;
                        EvVarWaitDestroy 3%N; EvVarLockDestroy 3%N;
                        EvFree 3%N]
               (set_heap (delete 3%N (heap ex_leaf_state)) ex_leaf_state)).
Proof.
  split; [by vm_compute|].
  apply (proj2 (destructor_last_writer_wins ex_leaf_state 3%N
                  (ex_obj "leaf" [] 1 2%N 0) (Some 7%N) (Some 9%N)
                  ltac:(by vm_compute) eq_refl)).
Defined.

(** ** Creation and release compose *)

Lemma filter_ne_snoc_fresh (l : list N) m :
  m ∉ l → filter (λ q, q ≠ m) (l ++ [m]) = l.
Proof.
  intros Hm. rewrite filter_app, filter_cons, decide_False by (by intros H; apply H).
  rewrite filter_nil, app_nil_r.
  induction l as [|q l IH]; [done|].
  apply not_elem_of_cons in Hm as [Hne Hm].
  rewrite filter_cons, decide_True by done. by rewrite IH.
Qed.

Lemma tree_inv_fresh_no_parent s m :
  tree_inv s → m ≠ NULL → heap s !! m = None →
  ∀ c o, heap s !! c = Some o → parent o ≠ m.
Proof.
  intros Hinv Hm Hfresh c o Ho Hp.
  destruct (inv_parent s Hinv c o Ho) as [x Hx]; congruence.
Qed.

Lemma tree_inv_fresh_not_listed s m :
  tree_inv s → heap s !! m = None → m ∉ tree_list s.
Proof.
  intros Hinv Hfresh Hin.
  destruct (inv_list s Hinv m Hin) as (o & Ho & _). congruence.
Qed.

(** X4: in a state that satisfies the invariant, creating an object at a
    fresh address (without a parent, or below an allocated parent whose
    count is below [UINT_MAX]) and releasing it at once succeeds and gives
    back the memory and the list of before: the new object is gone, the
    parent's count is what it was. *)
Theorem create_release_roundtrip sz vs vc m p len ty s fuel :
  tree_inv s → m ≠ NULL → heap s !! m = None → (sz ≤ len)%N →
  (p = NULL ∨ ∃ po, heap s !! p = Some po ∧ (refs po < UINT_MAX)%Z) →
  ∃ s1 s2,
    vlc_custom_create sz vs vc m p len ty s = Done m s1 ∧
    vlc_object_release (S (S fuel)) m s1 = Done tt s2 ∧
    heap s2 = heap s ∧ tree_list s2 = tree_list s ∧ tree_lock s2 = false.
Proof.
  intros Hinv Hm Hfresh Hlen Hp.
  pose proof (inv_lock s Hinv) as Hlk.
  pose proof (tree_inv_fresh_no_parent s m Hinv Hm Hfresh) as Hnp.
  destruct Hp as [->|(po & Hpo & Hmax)].
  - eexists _, _. split; [by apply create_root_Done|].
    split; [|split; [|split]].
    + apply (release_last_root _ m
               (set_var_root (command_variables vs vc) (new_object sz len ty)));
        try done.
      * simpl. apply lookup_insert_eq.
      * intros c Hc Hne. simpl in Hc |- *.
        destruct (inv_list s Hinv c Hc) as (o & Ho & _). exists o.
        rewrite lookup_insert_ne by done. split; [done|]. by apply (Hnp c).
    + simpl. by apply delete_insert_id.
    + done.
    + done.
  - assert (p ≠ NULL) as Hpn.
    { intros ->. pose proof (inv_null s Hinv). congruence. }
    assert (m ≠ p) as Hmp by (intros ->; congruence).
    destruct (inv_refs s Hinv p po Hpo) as [[Hr1 _] _].
    set (child := set_parent p
                    (set_no_interact (no_interact po)
                       (set_logger (logger po) (new_object sz len ty)))).
    set (s1 := created_child sz m p len ty po s).
    assert (heap s1 !! m = Some child) as Hchild by apply lookup_insert_eq.
    eexists s1, _. split; [apply create_child_Done; try done; lia|].
    split; [|split; [|split]].
    + rewrite (release_last_child s1 m child (S fuel) Hchild); try done.
      * apply (release_fast _ p (set_refs (uint (refs po + 1)) po)).
        -- simpl. rewrite lookup_delete_ne by done.
           rewrite lookup_insert_ne by done. apply lookup_insert_eq.
        -- simpl. rewrite uint_small by lia. lia.
      * intros c Hc Hne. simpl in Hc |- *.
        apply elem_of_app in Hc as [Hc|Hc];
          [|apply list_elem_of_singleton in Hc; congruence].
        destruct (inv_list s Hinv c Hc) as (o & Ho & _).
        rewrite lookup_insert_ne by done.
        destruct (decide (c = p)) as [->|Hcp].
        -- rewrite lookup_insert_eq. eexists. split; [done|]. simpl.
           by apply (Hnp p).
        -- rewrite lookup_insert_ne by done. exists o. split; [done|].
           by apply (Hnp c).
    + simpl. rewrite (uint_small (refs po + 1)) by lia.
      replace (uint (refs po + 1 - 1)) with (refs po)
        by (rewrite uint_small; lia).
      rewrite delete_insert_id by (by rewrite lookup_insert_ne).
      rewrite insert_insert_eq, set_refs_back. by apply insert_id.
    + simpl. apply filter_ne_snoc_fresh.
      by apply (tree_inv_fresh_not_listed s).
    + done.
Qed.

Lemma create_release_roundtrip_witness :
  heap ex_reach_mid !! 5%N = None ∧
  ∃ s1 s2,
    ex_create 5%N 2%N 16%N "tmp" ex_reach_mid = Done 5%N s1 ∧
    vlc_object_release 2 5%N s1 = Done tt s2 ∧
    heap s2 = heap ex_reach_mid ∧ tree_list s2 = tree_list ex_reach_mid ∧
    tree_lock s2 = false.
Proof.
  split; [by vm_compute|].
  apply (create_release_roundtrip ex_sizeof ex_VAR_STRING ex_VAR_ISCOMMAND
           5%N 2%N 16%N "tmp" ex_reach_mid 0).
  - apply (reachable_inv ex_sizeof ex_VAR_STRING ex_VAR_ISCOMMAND).
    apply ex_reach_mid_reachable.
  - done.
  - by vm_compute.
  - by vm_compute.
  - right. exists (ex_obj "mid" [] 1 1%N 8). split; [by vm_compute|].
    simpl. unfold UINT_MAX. lia.
Defined.

(** ** The list holds the allocated children, each once *)

Lemma list_inv_ref_update s obj o r evs :
  list_inv s → heap s !! obj = Some o →
  list_inv (add_trace evs (ref_update obj o r s)).
Proof.
  intros [Hnd Hin] Ho. split; [done|]. simpl. intros c oc Hoc Hp.
  destruct (decide (c = obj)) as [->|Hne].
  - rewrite lookup_insert_eq in Hoc. injection Hoc as <-. by apply (Hin obj o).
  - rewrite lookup_insert_ne in Hoc by done. by apply (Hin c oc).
Qed.

Lemma list_inv_delete s obj evs :
  list_inv s →
  list_inv (add_trace evs
              (set_tree_list (filter (λ q, q ≠ obj) (tree_list s))
                 (set_heap (delete obj (heap s)) s))).
Proof.
  intros [Hnd Hin]. split; simpl.
  - by apply NoDup_filter.
  - intros c oc Hoc Hp. apply lookup_delete_Some in Hoc as [Hne Hoc].
    apply list_elem_of_filter. split; [done|]. by apply (Hin c oc).
Qed.

Lemma filter_ne_not_in (l : list N) obj :
  obj ∉ l → filter (λ q, q ≠ obj) l = l.
Proof.
  induction l as [|q l IH]; intros Hn; [done|].
  apply not_elem_of_cons in Hn as [Hne Hn].
  rewrite filter_cons, decide_True by done. by rewrite IH.
Qed.

Lemma list_inv_insert_fresh s m o (l : list N) evs :
  list_inv s → m ∉ tree_list s →
  (parent o = NULL ∧ l = tree_list s ∨ l = tree_list s ++ [m]) →
  list_inv (add_trace evs (set_tree_list l (set_heap (<[m := o]> (heap s)) s))).
Proof.
  intros [Hnd Hin] Hm Hcase. split; simpl.
  - destruct Hcase as [[_ ->]| ->]; [done|].
    apply NoDup_app. split; [done|]. split; [|apply NoDup_singleton].
    intros x Hx Hx'. apply list_elem_of_singleton in Hx'. congruence.
  - intros c oc Hoc Hp. destruct (decide (c = m)) as [->|Hne].
    + rewrite lookup_insert_eq in Hoc. injection Hoc as <-.
      destruct Hcase as [[Hp' _]| ->]; [done|].
      apply elem_of_app. right. by apply list_elem_of_singleton.
    + rewrite lookup_insert_ne in Hoc by done.
      pose proof (Hin c oc Hoc Hp) as Hc.
      destruct Hcase as [[_ ->]| ->]; [done|].
      apply elem_of_app. by left.
Qed.

Lemma list_inv_created_child sz m p len ty po s :
  list_inv s → m ∉ tree_list s → heap s !! p = Some po →
  list_inv (created_child sz m p len ty po s).
Proof.
  intros [Hnd Hin] Hm Hpo. split; simpl.
  - apply NoDup_app. split; [done|]. split; [|apply NoDup_singleton].
    intros x Hx Hx'. apply list_elem_of_singleton in Hx'. congruence.
  - intros c oc Hoc Hp. apply elem_of_app.
    destruct (decide (c = m)) as [->|Hne].
    { right. by apply list_elem_of_singleton. }
    left. rewrite lookup_insert_ne in Hoc by done.
    destruct (decide (c = p)) as [->|Hcp].
    + rewrite lookup_insert_eq in Hoc. injection Hoc as <-.
      by apply (Hin p po).
    + rewrite lookup_insert_ne in Hoc by done. by apply (Hin c oc).
Qed.

(** The release of an owned reference keeps both invariants. *)
Lemma release_preserves_list_inv fuel :
  ∀ s obj, tree_inv s → list_inv s → owned s obj → size (heap s) ≤ fuel →
    ∃ s', vlc_object_release fuel obj s = Done tt s' ∧
          tree_inv s' ∧ list_inv s'.
Proof.
  induction fuel as [|fuel IH]; intros s obj Hinv Hlinv (o & Ho & Hown) Hsize.
  { assert (size (heap s) ≠ 0); [|lia].
    apply map_size_ne_0_lookup. by exists obj, o. }
  destruct (inv_refs s Hinv obj o Ho) as [[Hr1 Hrm] Hcc].
  destruct (decide (1 < refs o)%Z) as [Hgt|Hle].
  { rewrite (release_fast s obj o fuel Ho Hgt). eexists. split; [done|].
    split; [|by apply list_inv_ref_update].
    apply tree_inv_ref_update; try done; rewrite uint_small; lia. }
  assert (refs o = 1%Z) as Hone by lia.
  assert (children_count (heap s) obj = 0) as Hz by lia.
  pose proof (tree_inv_no_children s obj Hinv Hz) as Hnc.
  pose proof (inv_resources s Hinv obj o Ho) as Hres.
  pose proof (inv_lock s Hinv) as Hlk.
  destruct (decide (parent o = NULL)) as [Hp|Hp].
  - assert (obj ≠ NULL) as Hon.
    { intros ->. pose proof (inv_null s Hinv). congruence. }
    assert (obj ∉ tree_list s) as Hnl.
    { intros Hc. destruct (inv_list s Hinv obj Hc) as (o' & Ho' & Hp').
      congruence. }
    rewrite (release_last_root s obj o fuel Ho Hone Hp Hon Hlk Hres Hnc).
    eexists. split; [done|].
    change (set_heap (delete obj (heap s)) s)
      with (set_tree_list (tree_list s) (set_heap (delete obj (heap s)) s)).
    split.
    + apply (tree_inv_delete s obj o); try done.
      intros c Hc. split; [done|]. by intros ->.
    + rewrite <- (filter_ne_not_in (tree_list s) obj Hnl) at 1.
      by apply list_inv_delete.
  - rewrite (release_last_child s obj o fuel Ho Hone Hp Hlk Hres Hnc).
    destruct (inv_parent s Hinv obj o Ho Hp) as [po Hpo].
    assert (parent o ≠ obj) as Hne.
    { intros Heq. by apply (children_count_zero _ _ _ _ Hz Ho). }
    apply IH.
    + apply (tree_inv_delete s obj o); try done.
      intros c Hc. apply list_elem_of_filter in Hc as [Hc1 Hc2]. done.
    + by apply list_inv_delete.
    + exists po. simpl. split; [by rewrite lookup_delete_ne|].
      destruct (inv_refs s Hinv (parent o) po Hpo) as [_ Hccp].
      rewrite (children_count_delete_child (heap s) obj o Ho) in Hccp. lia.
    + simpl. rewrite map_size_delete_Some by by exists o. lia.
Qed.

Lemma list_inv_init : list_inv init_state.
Proof.
  split; simpl; [apply NoDup_nil_2|].
  intros c o Ho. by rewrite lookup_empty in Ho.
Qed.

Lemma reachable_list_inv sz vs vc s : reachable sz vs vc s → list_inv s.
Proof.
  induction 1 as [|s m p len ty s' Hreach IH Hm Hfresh Hlen Hp Hrun
                  |s obj o s' Hreach IH Ho Hmax Hrun
                  |s obj s' Hreach IH Hown Hrun].
  - apply list_inv_init.
  - pose proof (reachable_inv _ _ _ _ Hreach) as Hinv.
    pose proof (tree_inv_fresh_not_listed s m Hinv Hfresh) as Hnl.
    destruct Hp as [->|(po & Hpo & Hmax)].
    + rewrite create_root_Done in Hrun by done. injection Hrun as <-.
      unfold created_root.
      change (set_heap ?h s) with (set_tree_list (tree_list s) (set_heap h s)).
      apply list_inv_insert_fresh; try done. by left.
    + assert (p ≠ NULL) as Hpn.
      { intros ->. pose proof (inv_null s Hinv). congruence. }
      destruct (inv_refs s Hinv p po Hpo) as [[Hr1 _] _].
      rewrite (create_child_Done sz vs vc m p len ty po) in Hrun;
        try done; [|lia|by apply inv_lock].
      injection Hrun as <-. by apply list_inv_created_child.
  - pose proof (reachable_inv _ _ _ _ Hreach) as Hinv.
    destruct (inv_refs s Hinv obj o Ho) as [[Hr1 _] Hcc].
    rewrite (vlc_object_hold_Some s obj o Ho) in Hrun by lia.
    injection Hrun as <-. by apply list_inv_ref_update.
  - pose proof (reachable_inv _ _ _ _ Hreach) as Hinv.
    destruct (release_preserves_list_inv (size (heap s)) s obj Hinv IH Hown)
      as (s'' & Hrun' & _ & Hl'); [done|].
    rewrite Hrun' in Hrun. by injection Hrun as <-.
Qed.

(** X5: in every reachable state the global list has no repeated entry,
    and its entries are exactly the allocated objects that have a parent:
    an object is in the collection if and only if it is a child. *)
Theorem reachable_list_members sz vs vc s :
  reachable sz vs vc s →
  NoDup (tree_list s) ∧
  ∀ c, c ∈ tree_list s ↔ ∃ o, heap s !! c = Some o ∧ parent o ≠ NULL.
Proof.
  intros Hreach.
  destruct (reachable_list_inv _ _ _ _ Hreach) as [Hnd Hin].
  pose proof (reachable_inv _ _ _ _ Hreach) as Hinv.
  split; [done|]. intros c. split.
  - intros Hc. by apply (inv_list s Hinv).
  - intros (o & Ho & Hp). by apply (Hin c o).
Qed.

Lemma reachable_list_members_witness :
  NoDup (tree_list ex_reach_mid) ∧
  ∀ c, c ∈ tree_list ex_reach_mid ↔
       ∃ o, heap ex_reach_mid !! c = Some o ∧ parent o ≠ NULL.
Proof.
  apply (reachable_list_members ex_sizeof ex_VAR_STRING ex_VAR_ISCOMMAND).
  apply ex_reach_mid_reachable.
Defined.

(** ** Listing counts the children *)

Lemma children_of_length s obj :
  list_inv s → obj ≠ NULL →
  length (children_of (heap s) (tree_list s) obj)
    = children_count (heap s) obj.
Proof.
  intros [Hnd Hin] Hon. unfold children_count.
  rewrite <- (size_dom (D := gset N)).
  rewrite <- (size_list_to_set (C := gset N)
                (children_of (heap s) (tree_list s) obj))
    by by apply NoDup_filter.
  f_equal. apply set_eq. intros x.
  rewrite elem_of_list_to_set, elem_of_dom. unfold children_of.
  rewrite list_elem_of_filter. split.
  - intros [Hp Hx]. destruct (heap s !! x) as [o|] eqn:E; [|done].
    exists o. apply map_lookup_filter_Some. split; [done|]. simpl.
    simpl in Hp. congruence.
  - intros [o Ho]. apply map_lookup_filter_Some in Ho as [Ho Hp].
    simpl in Hp. split; [by rewrite Ho; simpl; f_equal|].
    apply (Hin x o Ho). congruence.
Qed.

Lemma vlc_list_children_run s obj (tab : list N) max :
  tree_lock s = false → NoDup (tree_list s) →
  children_live s (tree_list s) obj → N.to_nat max ≤ length tab →
  vlc_list_children obj tab max s =
    Done (N.of_nat (length (children_of (heap s) (tree_list s) obj)),
          tab_fill tab 0
            (take (N.to_nat max) (children_of (heap s) (tree_list s) obj)))
         (add_trace
            ([EvMutexLock] ++
             hold_events (heap s)
               (take (N.to_nat max) (children_of (heap s) (tree_list s) obj))
             ++ [EvMutexUnlock])
            (set_heap
               (hold_all
                  (take (N.to_nat max)
                     (children_of (heap s) (tree_list s) obj)) (heap s)) s)).
Proof.
  intros Hl Hnd Hlive Htab. unfold vlc_list_children.
  mstep (vlc_mutex_lock_free _ Hl).
  erewrite bind_Done by reflexivity. cbv beta.
  erewrite bind_Done; cycle 1.
  { apply list_children_loop_spec; [exact Hnd| |exact Htab].
    intros c Hc. exact (Hlive c Hc). }
  cbv beta.
  erewrite bind_Done by (by apply vlc_mutex_unlock_held).
  simpl heap. simpl tree_list.
  change (N.to_nat max - N.to_nat 0) with (N.to_nat max - 0).
  rewrite Nat.sub_0_r.
  unfold ret. f_equal.
  unfold add_trace, set_trace, set_heap, set_tree_lock. simpl.
  destruct s; simpl in *; subst. rewrite <- !app_assoc. reflexivity.
Qed.

Lemma tree_inv_children_live s obj :
  tree_inv s → children_live s (tree_list s) obj.
Proof.
  intros Hinv c Hc. destruct (inv_list s Hinv c Hc) as (o & Ho & _).
  exists o. split; [done|]. intros _.
  destruct (inv_refs s Hinv c o Ho) as [[Hr _] _]. lia.
Qed.

(** X6: in every reachable state, for a non-null object and a table of at
    least [max] entries, [vlc_list_children] returns the number of
    allocated objects whose parent is the object; the list is as before
    and the lock is free again. *)
Theorem list_children_counts_children sz vs vc s obj (tab : list N) max :
  reachable sz vs vc s → obj ≠ NULL → N.to_nat max ≤ length tab →
  ∃ tab' s',
    vlc_list_children obj tab max s =
      Done (N.of_nat (children_count (heap s) obj), tab') s' ∧
    tree_list s' = tree_list s ∧ tree_lock s' = false.
Proof.
  intros Hreach Hon Htab.
  pose proof (reachable_inv _ _ _ _ Hreach) as Hinv.
  pose proof (reachable_list_inv _ _ _ _ Hreach) as Hlinv.
  eexists _, _. split; [|split].
  - rewrite (vlc_list_children_run s obj tab max); try done.
    + by rewrite (children_of_length s obj Hlinv Hon).
    + by apply inv_lock.
    + by destruct Hlinv.
    + by apply tree_inv_children_live.
  - done.
  - simpl. by apply inv_lock.
Qed.

Lemma list_children_counts_children_witness :
  children_count (heap ex_reach_mid) 1%N = 1 ∧
  ∃ tab' s',
    vlc_list_children 1%N [] 0%N ex_reach_mid =
      Done (N.of_nat (children_count (heap ex_reach_mid) 1%N), tab') s' ∧
    tree_list s' = tree_list ex_reach_mid ∧ tree_lock s' = false.
Proof.
  split; [by vm_compute|].
  apply (list_children_counts_children ex_sizeof ex_VAR_STRING
           ex_VAR_ISCOMMAND ex_reach_mid 1%N [] 0%N
           ex_reach_mid_reachable); [done | simpl; lia].
Defined.

(** ** The children scan *)

Lemma has_child_loop_spec (l : list N) obj s :
  all_allocated s l →
  has_child_loop l obj s =
    Done (bool_decide (children_of (heap s) l obj ≠ [])) s.
Proof.
  induction l as [|c l IH]; intros Hall; [done|].
  destruct (Hall c) as [o Ho]; [left|]. simpl.
  mstep (vlc_internals_Some _ _ _ Ho).
  rewrite (children_of_cons _ _ _ _ _ Ho).
  destruct (parent o =? obj)%N; [done|].
  apply IH. intros q Hq. apply Hall. by right.
Qed.

(** X7: with the lock free and every list entry allocated,
    [ObjectHasChild] answers whether some entry of the list has the object
    as its parent; it locks and unlocks once and changes nothing else. *)
Theorem ObjectHasChild_spec s obj :
  tree_lock s = false → all_allocated s (tree_list s) →
  ObjectHasChild obj s =
    Done (bool_decide (children_of (heap s) (tree_list s) obj ≠ []))
         (add_trace [EvMutexLock; EvMutexUnlock] s).
Proof.
  intros Hl Hall. unfold ObjectHasChild, ObjectHasChildLocked.
  mstep (vlc_mutex_lock_free _ Hl).
  erewrite bind_Done; cycle 1.
  { erewrite bind_Done by reflexivity. cbv beta.
    apply has_child_loop_spec. exact Hall. }
  cbv beta. erewrite bind_Done by (by apply vlc_mutex_unlock_held).
  unfold ret, add_trace, set_trace, set_tree_lock; simpl.
  destruct s; simpl in *; subst. by rewrite <- app_assoc.
Qed.

Lemma ex_leaf_all_allocated : all_allocated ex_leaf_state (tree_list ex_leaf_state).
Proof.
  intros c Hc. destruct (ex_leaf_wf c Hc) as [_ (o & Ho & _)]. by exists o.
Qed.

Lemma ObjectHasChild_spec_witness :
  tree_lock ex_leaf_state = false ∧
  ObjectHasChild 2%N ex_leaf_state =
    Done true (add_trace [EvMutexLock; EvMutexUnlock] ex_leaf_state).
Proof.
  split; [reflexivity|].
  pose proof (ObjectHasChild_spec ex_leaf_state 2%N eq_refl
                ex_leaf_all_allocated) as H.
  vm_compute in H. vm_compute. exact H.
Defined.

(** ** Runs that only read *)

Lemma mem_eq_refl s : mem_eq s s.
Proof. by split. Qed.

Lemma mem_eq_add_trace s s' evs : mem_eq s s' → mem_eq s (add_trace evs s').
Proof. intros (Hh & Hl & Hk). by split. Qed.

Lemma add_trace_app evs1 evs2 s :
  add_trace evs2 (add_trace evs1 s) = add_trace (evs1 ++ evs2) s.
Proof. unfold add_trace, set_trace. simpl. by rewrite app_assoc. Qed.

Lemma add_trace_nil s : add_trace [] s = s.
Proof. destruct s. unfold add_trace, set_trace. simpl. by rewrite app_nil_r. Qed.

Lemma reads_ret {A} s (a : A) : reads s (ret a) a [].
Proof. intros s' _. by rewrite add_trace_nil. Qed.

Lemma reads_bind {A B} s (m : M A) (k : A → M B) a b evs1 evs2 :
  reads s m a evs1 → reads s (k a) b evs2 →
  reads s (bind m k) b (evs1 ++ evs2).
Proof.
  intros Hm Hk s' Heq. rewrite (bind_Done _ _ _ _ _ (Hm s' Heq)).
  rewrite (Hk _ (mem_eq_add_trace _ _ _ Heq)). by rewrite add_trace_app.
Qed.

Lemma reads_bind_nil {A B} s (m : M A) (k : A → M B) a b evs :
  reads s m a [] → reads s (k a) b evs → reads s (bind m k) b evs.
Proof. intros Hm Hk. by apply (reads_bind s m k a b [] evs). Qed.

Lemma reads_emit s e : reads s (emit e) tt [e].
Proof. by intros s' _. Qed.

Lemma reads_vlc_internals s obj o :
  heap s !! obj = Some o → reads s (vlc_internals obj) o [].
Proof.
  intros Ho s' (Hh & _). rewrite add_trace_nil.
  apply vlc_internals_Some. by rewrite Hh.
Qed.

Lemma reads_get_tree_list s : reads s get_tree_list (tree_list s) [].
Proof.
  intros s' (_ & Hl & _). rewrite add_trace_nil. unfold get_tree_list.
  by rewrite Hl.
Qed.

Lemma reads_vlc_mutex_assert s :
  tree_lock s = true → reads s vlc_mutex_assert tt [].
Proof.
  intros Hk s' (_ & _ & Hk'). rewrite add_trace_nil.
  apply vlc_mutex_assert_held. congruence.
Qed.

Lemma reads_vlc_object_parent s obj o :
  heap s !! obj = Some o → reads s (vlc_object_parent obj) (parent o) [].
Proof.
  intros Ho.
  eapply reads_bind_nil; [by apply reads_vlc_internals | apply reads_ret].
Qed.

Lemma reads_vlc_object_typename s obj o :
  heap s !! obj = Some o → reads s (vlc_object_typename obj) (typename o) [].
Proof.
  intros Ho.
  eapply reads_bind_nil; [by apply reads_vlc_internals | apply reads_ret].
Qed.

Lemma reads_atomic_load s obj o :
  heap s !! obj = Some o → reads s (atomic_load obj) (refs o) [].
Proof.
  intros Ho.
  eapply reads_bind_nil; [by apply reads_vlc_internals | apply reads_ret].
Qed.

Lemma reads_has_child_loop s (l : list N) obj :
  all_allocated s l →
  reads s (has_child_loop l obj)
    (bool_decide (children_of (heap s) l obj ≠ [])) [].
Proof.
  intros Hall s' (Hh & _). rewrite add_trace_nil, <- Hh.
  apply has_child_loop_spec. intros c Hc. rewrite Hh. by apply Hall.
Qed.

Lemma reads_ObjectHasChildLocked s obj :
  all_allocated s (tree_list s) →
  reads s (ObjectHasChildLocked obj)
    (bool_decide (children_of (heap s) (tree_list s) obj ≠ [])) [].
Proof.
  intros Hall.
  eapply reads_bind_nil; [apply reads_get_tree_list|].
  by apply reads_has_child_loop.
Qed.

(** ** The last child *)

Lemma last_child_loop_spec (l : list N) par s :
  all_allocated s l →
  last_child_loop l par s =
    Done (bool_decide (children_of (heap s) l par = [])) s.
Proof.
  induction l as [|c l IH]; intros Hall; [done|].
  destruct (Hall c) as [o Ho]; [left|]. simpl.
  mstep (vlc_internals_Some _ _ _ Ho).
  rewrite (children_of_cons _ _ _ _ _ Ho).
  destruct (parent o =? par)%N; [done|].
  apply IH. intros q Hq. apply Hall. by right.
Qed.

Lemma nodes_after_split (l1 l2 : list N) obj :
  obj ∉ l1 → nodes_after obj (l1 ++ obj :: l2) = Some l2.
Proof.
  induction l1 as [|q l1 IH]; intros Hn; simpl.
  - by rewrite N.eqb_refl.
  - apply not_elem_of_cons in Hn as [Hne Hn].
    assert ((q =? obj)%N = false) as -> by (apply N.eqb_neq; congruence).
    by apply IH.
Qed.

Lemma nodes_after_None (l : list N) obj :
  obj ∉ l → nodes_after obj l = None.
Proof.
  induction l as [|q l IH]; intros Hn; [done|]. simpl.
  apply not_elem_of_cons in Hn as [Hne Hn].
  assert ((q =? obj)%N = false) as -> by (apply N.eqb_neq; congruence).
  by apply IH.
Qed.

Lemma children_of_app h (l1 l2 : list N) obj :
  children_of h (l1 ++ l2) obj = children_of h l1 obj ++ children_of h l2 obj.
Proof. unfold children_of. apply filter_app. Qed.

Lemma ObjectIsLastChild_linked s obj o par :
  NoDup (tree_list s) → all_allocated s (tree_list s) →
  heap s !! obj = Some o → parent o = par → obj ∈ tree_list s →
  ObjectIsLastChild obj par s =
    Done (bool_decide
            (last (children_of (heap s) (tree_list s) par) = Some obj)) s.
Proof.
  intros Hnd Hall Ho Hp Hin.
  apply list_elem_of_split in Hin as (l1 & l2 & Hl).
  rewrite Hl in Hnd, Hall. apply NoDup_app in Hnd as (_ & Hdis & Hnd2).
  apply NoDup_cons in Hnd2 as [Hn2 _].
  assert (obj ∉ l1) as Hn1.
  { intros Hx. apply (Hdis obj Hx). left. }
  unfold ObjectIsLastChild.
  erewrite bind_Done by reflexivity. cbv beta.
  rewrite Hl, (nodes_after_split l1 l2 obj Hn1).
  rewrite last_child_loop_spec; cycle 1.
  { intros c Hc. apply Hall. apply elem_of_app. right. by right. }
  f_equal. rewrite children_of_app, (children_of_cons _ _ _ _ _ Ho).
  rewrite Hp, N.eqb_refl.
  destruct (children_of (heap s) l2 par) as [|b B] eqn:E.
  + rewrite bool_decide_true by done.
    by rewrite bool_decide_true by apply last_snoc.
  + rewrite bool_decide_false by done.
    rewrite bool_decide_false; [done|].
    rewrite last_app_cons, last_cons_cons.
    intros Hlast.
    assert (obj ∈ b :: B) as Hx by by apply last_Some_elem_of.
    rewrite <- E in Hx. by apply children_of_elem in Hx.
Qed.

(** X8: [ObjectIsLastChild] on a child of [par] that is linked in a list
    without repetition, all of whose entries are allocated, is true exactly
    when the object is the last of the children of [par] in list order; on
    an object that is not linked in the list the walk is undefined. *)
Theorem ObjectIsLastChild_spec s obj o par :
  NoDup (tree_list s) → all_allocated s (tree_list s) →
  heap s !! obj = Some o → parent o = par →
  (obj ∈ tree_list s →
   ObjectIsLastChild obj par s =
     Done (bool_decide
             (last (children_of (heap s) (tree_list s) par) = Some obj)) s)
  ∧ (obj ∉ tree_list s → ObjectIsLastChild obj par s = Abort Undefined s).
Proof.
  intros Hnd Hall Ho Hp. split.
  - intros Hin. by apply (ObjectIsLastChild_linked s obj o par).
  - intros Hn. unfold ObjectIsLastChild.
    erewrite bind_Done by reflexivity. cbv beta.
    by rewrite (nodes_after_None _ _ Hn).
Qed.

Lemma ex_four_NoDup : NoDup (tree_list ex_four_state).
Proof.
  change (tree_list ex_four_state) with [2%N; 4%N; 3%N].
  repeat (apply NoDup_cons; split;
          [intros Hin;
           repeat (apply elem_of_cons in Hin as [Hin|Hin]; [discriminate|]);
           by apply elem_of_nil in Hin|]).
  apply NoDup_nil_2.
Qed.

Lemma ex_four_all_allocated :
  all_allocated ex_four_state (tree_list ex_four_state).
Proof.
  intros c Hc. change (tree_list ex_four_state) with [2%N; 4%N; 3%N] in Hc.
  repeat (apply elem_of_cons in Hc as [->|Hc]; [eexists; by vm_compute|]).
  by apply elem_of_nil in Hc.
Qed.

Lemma ObjectIsLastChild_spec_witness :
  heap ex_four_state !! 4%N = Some (ex_obj "sib" [] 1 1%N 0) ∧
  ObjectIsLastChild 4%N 1%N ex_four_state = Done true ex_four_state.
Proof.
  split; [by vm_compute|].
  pose proof (proj1 (ObjectIsLastChild_spec ex_four_state 4%N
                       (ex_obj "sib" [] 1 1%N 0) 1%N ex_four_NoDup
                       ex_four_all_allocated ltac:(by vm_compute) eq_refl))
    as H.
  assert (4%N ∈ tree_list ex_four_state) as Hin.
  { change (tree_list ex_four_state) with [2%N; 4%N; 3%N]. right. left. }
  specialize (H Hin). vm_compute in H. vm_compute. exact H.
Defined.

(** ** The prefix of a line *)

Lemma chain_ext s s' obj d :
  heap s' = heap s → tree_list s' = tree_list s →
  chain s obj d → chain s' obj d.
Proof.
  intros Hh Hl H. induction H as [obj o Ho Hp|obj o d Ho Hp Hin _ IH].
  - apply (chain_root s' obj o); [by rewrite Hh | done].
  - apply (chain_step s' obj o); [by rewrite Hh | done | by rewrite Hl | done].
Qed.

Lemma chain_allocated s obj d : chain s obj d → is_Some (heap s !! obj).
Proof. intros [? o Ho _|? o ? Ho _ _ _]; by exists o. Qed.

Lemma reads_last_child_loop s (l : list N) par :
  all_allocated s l →
  reads s (last_child_loop l par)
    (bool_decide (children_of (heap s) l par = [])) [].
Proof.
  intros Hall s' (Hh & _). rewrite add_trace_nil, <- Hh.
  apply last_child_loop_spec. intros c Hc. rewrite Hh. by apply Hall.
Qed.

Lemma reads_ObjectIsLastChild s obj par :
  all_allocated s (tree_list s) → obj ∈ tree_list s →
  ∃ b, reads s (ObjectIsLastChild obj par) b [].
Proof.
  intros Hall Hin.
  destruct (list_elem_of_split_l _ _ Hin) as (l1 & l2 & Hl & Hn1).
  exists (bool_decide (children_of (heap s) l2 par = [])).
  unfold ObjectIsLastChild.
  eapply reads_bind_nil; [apply reads_get_tree_list|].
  rewrite Hl at 1. rewrite (nodes_after_split l1 l2 obj Hn1).
  apply reads_last_child_loop. intros c Hc. apply Hall. rewrite Hl.
  apply elem_of_app. right. by right.
Qed.

Lemma reads_PrintObjectPrefix s fuel :
  all_allocated s (tree_list s) →
  ∀ obj d last, chain s obj d → d ≤ fuel →
    ∃ pre, reads s (PrintObjectPrefix fuel obj last) pre [] ∧ length pre = d.
Proof.
  intros Hall. induction fuel as [|fuel IH]; intros obj d last Hch Hd.
  - destruct Hch as [obj o Ho Hp|obj o d Ho Hp Hin Hch]; [|lia].
    exists []. split; [|done]. simpl.
    eapply reads_bind_nil; [by apply reads_vlc_object_parent|].
    rewrite Hp. apply reads_ret.
  - destruct Hch as [obj o Ho Hp|obj o d Ho Hp Hin Hch].
    + exists []. split; [|done]. simpl.
      eapply reads_bind_nil; [by apply reads_vlc_object_parent|].
      rewrite Hp. apply reads_ret.
    + destruct (IH (parent o) d false Hch) as (pre & Hpre & Hlen); [lia|].
      destruct (reads_ObjectIsLastChild s obj (parent o) Hall Hin)
        as (b & Hb).
      eexists. split.
      * simpl. eapply reads_bind_nil; [by apply reads_vlc_object_parent|].
        assert ((parent o =? NULL)%N = false) as -> by by apply N.eqb_neq.
        eapply reads_bind_nil; [exact Hpre|].
        eapply reads_bind_nil; [exact Hb|]. apply reads_ret.
      * rewrite length_app. simpl. lia.
Qed.

Lemma reads_PrintObject s fuel obj o d :
  all_allocated s (tree_list s) →
  heap s !! obj = Some o → chain s obj d → d ≤ fuel →
  ∃ line, reads s (PrintObject fuel obj) line [EvSaveCancel; EvRestoreCancel]
          ∧ line_obj line = obj ∧ line_ok s line.
Proof.
  intros Hall Ho Hch Hd.
  destruct (reads_PrintObjectPrefix s fuel Hall obj d true Hch Hd)
    as (pre & Hpre & Hlen).
  eexists. split; [|split].
  - unfold PrintObject.
    apply (reads_bind s _ _ tt _ [EvSaveCancel] [EvRestoreCancel]);
      [apply reads_emit|].
    eapply reads_bind_nil; [exact Hpre|].
    eapply reads_bind_nil; [by apply reads_ObjectHasChildLocked|].
    eapply reads_bind_nil; [by apply reads_vlc_object_typename|].
    eapply reads_bind_nil; [by apply reads_atomic_load|].
    apply (reads_bind s _ _ tt _ [EvRestoreCancel] []);
      [apply reads_emit | apply reads_ret].
  - done.
  - exists o. simpl. rewrite Hlen. by repeat split.
Qed.

(** ** The dump of a tree *)

Lemma DumpStructure_unfold fuel obj level :
  DumpStructure (S fuel) obj level =
    (let* line := PrintObject (S fuel) obj in
     if (100 <? level)%Z then
       msg_Warn obj "structure tree is too deep";;
       ret [line]
     else
       vlc_mutex_assert;;
       let* l := get_tree_list in
       let* rest :=
         dump_loop (λ pos, DumpStructure fuel pos (uint (level + 1))) obj l in
       ret (line :: rest)).
Proof. reflexivity. Qed.

Lemma print_events_app n1 n2 :
  print_events n1 ++ print_events n2 = print_events (n1 + n2).
Proof.
  unfold print_events. by rewrite replicate_add, concat_app.
Qed.

Lemma reads_DumpStructure s :
  tree_lock s = true → all_allocated s (tree_list s) →
  heap s !! NULL = None →
  ∀ n fuel obj d level,
    chain s obj d → height_le n s obj = true → d + 2 * n ≤ fuel →
    (0 ≤ level)%Z → (level + Z.of_nat n ≤ 101)%Z →
    ∃ lines,
      reads s (DumpStructure fuel obj level) lines
        (print_events (length lines)) ∧
      map line_obj lines = preorder n (heap s) (tree_list s) obj ∧
      Forall (line_ok s) lines.
Proof.
  intros Hlk Hall Hnull.
  induction n as [|n IH]; intros fuel obj d level Hch Hh Hfuel Hl0 Hl1.
  { discriminate. }
  destruct fuel as [|fuel]; [lia|].
  destruct (chain_allocated s obj d Hch) as [o Ho].
  assert (obj ≠ NULL) as Hon by (intros ->; congruence).
  destruct (reads_PrintObject s (S fuel) obj o d Hall Ho Hch)
    as (line & Hline & Hlobj & Hlok); [lia|].
  assert (∀ l : list N, l ⊆ tree_list s →
    ∃ lines,
      reads s (dump_loop (λ pos, DumpStructure fuel pos (uint (level + 1)))
                 obj l) lines (print_events (length lines)) ∧
      map line_obj lines
        = concat (map (preorder n (heap s) (tree_list s))
                    (children_of (heap s) l obj)) ∧
      Forall (line_ok s) lines) as Hloop.
  { induction l as [|c l IHl]; intros Hsub.
    { exists []. split; [apply reads_ret|]. by split. }
    assert (c ∈ tree_list s) as Hc by (apply Hsub; left).
    assert (l ⊆ tree_list s) as Hsub' by (intros q Hq; apply Hsub; by right).
    destruct (Hall c Hc) as [oc Hoc].
    destruct (IHl Hsub') as (rest & Hrest & Hmap & Hok).
    rewrite (children_of_cons _ _ _ _ _ Hoc). simpl dump_loop.
    destruct (parent oc =? obj)%N eqn:Ep.
    - apply N.eqb_eq in Ep.
      assert (chain s c (S d)) as Hchc.
      { apply (chain_step s c oc); [done|congruence|done|by rewrite Ep]. }
      destruct (IH fuel c (S d) (uint (level + 1)) Hchc) as
        (lines & Hlines & Hmapc & Hokc).
      + by apply (height_le_child n s obj c oc).
      + lia.
      + rewrite uint_small by (unfold UINT_MAX; lia). lia.
      + rewrite uint_small by (unfold UINT_MAX; lia). lia.
      + exists (lines ++ rest). split; [|split].
        * eapply reads_bind_nil; [by apply reads_vlc_internals|].
          rewrite Ep, N.eqb_refl.
          rewrite length_app, <- print_events_app.
          eapply reads_bind; [exact Hlines|].
          rewrite <- (app_nil_r (print_events (length rest))).
          eapply reads_bind; [exact Hrest | apply reads_ret].
        * rewrite map_app, Hmapc, Hmap. done.
        * by apply Forall_app.
    - exists rest. split; [|by split].
      eapply reads_bind_nil; [by apply reads_vlc_internals|].
      by rewrite Ep. }
  destruct (Hloop (tree_list s)) as (rest & Hrest & Hmap & Hok); [done|].
  exists (line :: rest). split; [|split].
  - rewrite DumpStructure_unfold.
    change (print_events (length (line :: rest)))
      with ([EvSaveCancel; EvRestoreCancel] ++ print_events (length rest)).
    eapply reads_bind; [exact Hline|].
    assert ((100 <? level)%Z = false) as -> by (apply Z.ltb_ge; lia).
    eapply reads_bind_nil; [by apply reads_vlc_mutex_assert|].
    eapply reads_bind_nil; [apply reads_get_tree_list|].
    rewrite <- (app_nil_r (print_events (length rest))).
    eapply reads_bind; [exact Hrest | apply reads_ret].
  - simpl. by rewrite Hlobj, Hmap.
  - by apply Forall_cons.
Qed.

(** ** The objects of a tree, in dump order *)

Lemma children_of_elem_iff h (l : list N) obj c :
  c ∈ children_of h l obj ↔ c ∈ l ∧ ∃ o, h !! c = Some o ∧ parent o = obj.
Proof.
  unfold children_of. rewrite list_elem_of_filter. split.
  - intros [Hp Hc]. split; [done|].
    destruct (h !! c) as [o|]; [|done]. exists o. split; [done|].
    simpl in Hp. congruence.
  - intros [Hc (o & Ho & Hp)]. split; [|done]. rewrite Ho. simpl. by f_equal.
Qed.

Lemma elem_of_concat_map {A} (f : A → list N) (cs : list A) x :
  x ∈ concat (map f cs) ↔ ∃ c, c ∈ cs ∧ x ∈ f c.
Proof.
  induction cs as [|c cs IH]; simpl.
  - split; [intros H; by apply elem_of_nil in H|].
    intros (c & Hc & _). by apply elem_of_nil in Hc.
  - rewrite elem_of_app, IH. split.
    + intros [Hx|(c' & Hc' & Hx)]; [exists c; split; [left|done]|].
      exists c'. split; [by right|done].
    + intros (c' & Hc' & Hx). apply elem_of_cons in Hc' as [->|Hc'];
        [by left|]. right. by exists c'.
Qed.

Lemma NoDup_concat_map {A} (f : A → list N) (cs : list A) :
  (∀ c, c ∈ cs → NoDup (f c)) →
  NoDup cs →
  (∀ c1 c2 x, c1 ∈ cs → c2 ∈ cs → x ∈ f c1 → x ∈ f c2 → c1 = c2) →
  NoDup (concat (map f cs)).
Proof.
  induction cs as [|c cs IH]; intros Hf Hnd Hdis; simpl; [apply NoDup_nil_2|].
  apply NoDup_cons in Hnd as [Hc Hnd].
  apply NoDup_app. split; [apply Hf; left|]. split.
  - intros x Hx Hx'. apply elem_of_concat_map in Hx' as (c' & Hc' & Hx').
    assert (c = c') as <-; [|done].
    apply (Hdis c c' x); [left|by right|done..].
  - apply IH; [|done|].
    + intros c' Hc'. apply Hf. by right.
    + intros c1 c2 x H1 H2. apply Hdis; by right.
Qed.

Lemma height_le_mono n s obj :
  height_le n s obj = true → height_le (S n) s obj = true.
Proof.
  revert obj. induction n as [|n IH]; intros obj H; [discriminate|].
  simpl in H |- *. rewrite forallb_forall in H |- *. intros c Hc.
  specialize (H c Hc). destruct (heap s !! c) as [o|]; [|done].
  destruct (parent o =? obj)%N; [|done]. by apply IH.
Qed.

Lemma height_le_in_tree n s a b :
  height_le n s a = true → in_tree s a b → height_le n s b = true.
Proof.
  intros Ha H. induction H as [|c o Hc Ho _ IH]; [done|].
  destruct n as [|n]; [discriminate|].
  apply height_le_mono. by apply (height_le_child n s (parent o) c o).
Qed.

(** A tree of bounded height has no object below itself. *)
Lemma height_le_no_cycle n s :
  ∀ obj c o, height_le n s obj = true → c ∈ tree_list s →
    heap s !! c = Some o → parent o = obj → in_tree s c obj → False.
Proof.
  induction n as [|n IH]; intros obj c o Hh Hc Ho Hp Hin; [discriminate|].
  pose proof (height_le_child n s obj c o Hh Hc Ho Hp) as Hhc.
  pose proof (height_le_in_tree n s c obj Hhc Hin) as Hho.
  by apply (IH obj c o).
Qed.

Lemma in_tree_linear s a b x :
  in_tree s a x → in_tree s b x → in_tree s a b ∨ in_tree s b a.
Proof.
  intros Ha. revert b. induction Ha as [|c o Hc Ho Hpa IH]; intros b Hb.
  - by right.
  - inversion Hb as [|c' o' Hc' Ho' Hpb]; subst.
    + left. by eapply in_tree_child.
    + assert (o' = o) as -> by congruence. by apply IH.
Qed.

Lemma preorder_in_tree s n :
  ∀ obj x, x ∈ preorder n (heap s) (tree_list s) obj → in_tree s obj x.
Proof.
  induction n as [|n IH]; intros obj x Hx; simpl in Hx.
  { by apply elem_of_nil in Hx. }
  apply elem_of_cons in Hx as [->|Hx]; [constructor|].
  apply elem_of_concat_map in Hx as (c & Hc & Hx).
  apply children_of_elem_iff in Hc as [Hc (o & Ho & Hp)].
  apply (in_tree_step_down s obj c o); try done. by apply IH.
Qed.

Lemma in_tree_preorder s n :
  ∀ obj x, height_le n s obj = true → in_tree s obj x →
           x ∈ preorder n (heap s) (tree_list s) obj.
Proof.
  induction n as [|n IH]; intros obj x Hh Hin; [discriminate|]. simpl.
  destruct (decide (obj = x)) as [->|Hne]; [left|]. right.
  destruct (in_tree_first_child s obj x Hin Hne)
    as (c & o & Hc & Ho & Hp & Hin').
  apply elem_of_concat_map. exists c. split.
  - apply children_of_elem_iff. split; [done|]. by exists o.
  - apply IH; [|done]. by apply (height_le_child n s obj c o).
Qed.

Lemma preorder_NoDup s n :
  NoDup (tree_list s) →
  ∀ obj, height_le n s obj = true →
         NoDup (preorder n (heap s) (tree_list s) obj).
Proof.
  intros Hnd. induction n as [|n IH]; intros obj Hh; [discriminate|].
  simpl. apply NoDup_cons. split.
  - intros Hx. apply elem_of_concat_map in Hx as (c & Hc & Hx).
    apply children_of_elem_iff in Hc as [Hc (o & Ho & Hp)].
    apply preorder_in_tree in Hx.
    by apply (height_le_no_cycle (S n) s obj c o).
  - apply NoDup_concat_map.
    + intros c Hc. apply children_of_elem_iff in Hc as [Hc (o & Ho & Hp)].
      apply IH. by apply (height_le_child n s obj c o).
    + by apply NoDup_filter.
    + intros c1 c2 x Hc1 Hc2 Hx1 Hx2.
      apply children_of_elem_iff in Hc1 as [Hc1 (o1 & Ho1 & Hp1)].
      apply children_of_elem_iff in Hc2 as [Hc2 (o2 & Ho2 & Hp2)].
      apply preorder_in_tree in Hx1, Hx2.
      destruct (decide (c1 = c2)) as [|Hne]; [done|]. exfalso.
      destruct (in_tree_linear s c1 c2 x Hx1 Hx2) as [H12|H21].
      * inversion H12 as [|c' o' Hc' Ho' Hpar]; subst; [done|].
        assert (o' = o2) as -> by congruence. rewrite Hp2 in Hpar.
        by apply (height_le_no_cycle (S n) s (parent o1) c1 o1).
      * inversion H21 as [|c' o' Hc' Ho' Hpar]; subst; [done|].
        assert (o' = o1) as -> by congruence.
        by apply (height_le_no_cycle (S n) s (parent o1) c2 o2).
Qed.

Lemma line_ok_ext s s' line :
  heap s' = heap s → tree_list s' = tree_list s →
  line_ok s line → line_ok s' line.
Proof.
  intros Hh Hl (o & Ho & Hty & Hr & Hc & Hch). exists o.
  rewrite Hh, Hl. repeat split; try done. by apply (chain_ext s s').
Qed.

Lemma TreeCommand_run s obj d n fuel :
  tree_lock s = false → all_allocated s (tree_list s) →
  heap s !! NULL = None → chain s obj d →
  height_le n s obj = true → n ≤ 101 → d + 2 * n ≤ fuel →
  ∃ lines,
    TreeCommand fuel obj s =
      Done (VLC_SUCCESS, lines)
           (add_trace ([EvMutexLock] ++ print_events (length lines) ++
                       [EvMutexUnlock]) s) ∧
    map line_obj lines = preorder n (heap s) (tree_list s) obj ∧
    Forall (line_ok s) lines.
Proof.
  intros Hlk Hall Hnull Hch Hh Hn Hfuel.
  set (s1 := add_trace [EvMutexLock] (set_tree_lock true s)).
  assert (chain s1 obj d) as Hch1 by by apply (chain_ext s s1).
  assert (height_le n s1 obj = true) as Hh1
    by by rewrite (height_le_ext n s s1).
  destruct (reads_DumpStructure s1 eq_refl Hall Hnull n fuel obj d 0
              Hch1 Hh1 Hfuel) as (lines & Hrun & Hmap & Hok); [lia|lia|].
  exists lines. split; [|split].
  - unfold TreeCommand.
    mstep (vlc_mutex_lock_free _ Hlk).
    mstep (Hrun s1 (mem_eq_refl s1)).
    erewrite bind_Done by (by apply vlc_mutex_unlock_held).
    unfold ret. f_equal.
    unfold s1, add_trace, set_trace, set_tree_lock. simpl.
    destruct s; simpl in *; subst. by rewrite <- !app_assoc.
  - exact Hmap.
  - eapply Forall_impl; [exact Hok|]. intros line Hline.
    by apply (line_ok_ext s1 s).
Qed.

(** X9: the [tree] command on an object of a well-formed tree of at most
    101 levels returns [VLC_SUCCESS]; it prints one line for each object
    of the tree below the object and for no other, each object once; it
    holds the lock from before the first line to after the last, and
    leaves memory and list as they were. *)
Theorem TreeCommand_prints_tree_once s obj d n fuel :
  tree_lock s = false → all_allocated s (tree_list s) →
  heap s !! NULL = None → NoDup (tree_list s) → chain s obj d →
  height_le n s obj = true → n ≤ 101 → d + 2 * n ≤ fuel →
  ∃ lines,
    TreeCommand fuel obj s =
      Done (VLC_SUCCESS, lines)
           (add_trace ([EvMutexLock] ++ print_events (length lines) ++
                       [EvMutexUnlock]) s) ∧
    (∀ x, x ∈ map line_obj lines ↔ in_tree s obj x) ∧
    NoDup (map line_obj lines).
Proof.
  intros Hlk Hall Hnull Hnd Hch Hh Hn Hfuel.
  destruct (TreeCommand_run s obj d n fuel Hlk Hall Hnull Hch Hh Hn Hfuel)
    as (lines & Hrun & Hmap & _).
  exists lines. split; [done|]. rewrite Hmap. split.
  - intros x. split; [apply preorder_in_tree | by apply in_tree_preorder].
  - by apply preorder_NoDup.
Qed.

(** X10: each line printed by the [tree] command on such a tree shows, for
    an allocated object, its type name and its current count, marks
    whether the list holds a child of it, and carries as many prefix
    pieces as the object has ancestors. *)
Theorem TreeCommand_lines_describe_objects s obj d n fuel :
  tree_lock s = false → all_allocated s (tree_list s) →
  heap s !! NULL = None → chain s obj d →
  height_le n s obj = true → n ≤ 101 → d + 2 * n ≤ fuel →
  ∃ lines s',
    TreeCommand fuel obj s = Done (VLC_SUCCESS, lines) s' ∧
    ∀ line, line ∈ lines →
      ∃ o, heap s !! line_obj line = Some o ∧
           line_typename line = typename o ∧
           line_refs line = refs o ∧
           line_has_child line =
             bool_decide (children_of (heap s) (tree_list s)
                            (line_obj line) ≠ []) ∧
           chain s (line_obj line) (length (line_prefix line)).
Proof.
  intros Hlk Hall Hnull Hch Hh Hn Hfuel.
  destruct (TreeCommand_run s obj d n fuel Hlk Hall Hnull Hch Hh Hn Hfuel)
    as (lines & Hrun & _ & Hok).
  exists lines. eexists. split; [exact Hrun|].
  intros line Hline. rewrite Forall_forall in Hok. exact (Hok line Hline).
Qed.

(** X11: at a level above 100 [DumpStructure] prints the line of the object,
    logs the warning that the tree is too deep, and returns without
    looking at the children, whether or not the lock is held. *)
Theorem DumpStructure_depth_cap s obj d fuel level :
  all_allocated s (tree_list s) → chain s obj d → d ≤ S fuel →
  (100 < level)%Z →
  ∃ line,
    DumpStructure (S fuel) obj level s =
      Done [line]
           (add_trace [EvSaveCancel; EvRestoreCancel;
                       EvMsg obj MSG_WARN "structure tree is too deep"] s) ∧
    line_obj line = obj.
Proof.
  intros Hall Hch Hd Hlevel.
  destruct (chain_allocated s obj d Hch) as [o Ho].
  destruct (reads_PrintObject s (S fuel) obj o d Hall Ho Hch Hd)
    as (line & Hline & Hlobj & _).
  exists line. split; [|done].
  rewrite DumpStructure_unfold.
  mstep (Hline s (mem_eq_refl s)).
  assert ((100 <? level)%Z = true) as -> by by apply Z.ltb_lt.
  unfold msg_Warn. erewrite bind_Done by reflexivity.
  unfold ret. f_equal.
  unfold add_trace, set_trace. simpl. by rewrite <- app_assoc.
Qed.

Lemma ex_four_chain_root : chain ex_four_state 1%N 0.
Proof.
  apply (chain_root _ 1%N (ex_obj "libvlc" ex_root_vars 3 NULL 0));
    [by vm_compute | done].
Qed.

Lemma ex_four_chain_mid : chain ex_four_state 2%N 1.
Proof.
  apply (chain_step _ 2%N (ex_obj "mid" [] 2 1%N 8)).
  - by vm_compute.
  - done.
  - change (tree_list ex_four_state) with [2%N; 4%N; 3%N]. left.
  - apply ex_four_chain_root.
Qed.

Lemma TreeCommand_prints_tree_once_witness :
  height_le 3 ex_four_state 1%N = true ∧
  ∃ lines,
    TreeCommand 6 1%N ex_four_state =
      Done (VLC_SUCCESS, lines)
           (add_trace ([EvMutexLock] ++ print_events (length lines) ++
                       [EvMutexUnlock]) ex_four_state) ∧
    (∀ x, x ∈ map line_obj lines ↔ in_tree ex_four_state 1%N x) ∧
    NoDup (map line_obj lines).
Proof.
  split; [by vm_compute|].
  apply (TreeCommand_prints_tree_once ex_four_state 1%N 0 3 6).
  - reflexivity.
  - apply ex_four_all_allocated.
  - by vm_compute.
  - apply ex_four_NoDup.
  - apply ex_four_chain_root.
  - by vm_compute.
  - lia.
  - lia.
Defined.

Lemma TreeCommand_lines_describe_objects_witness :
  height_le 3 ex_four_state 1%N = true ∧
  ∃ lines s',
    TreeCommand 6 1%N ex_four_state = Done (VLC_SUCCESS, lines) s' ∧
    ∀ line, line ∈ lines →
      ∃ o, heap ex_four_state !! line_obj line = Some o ∧
           line_typename line = typename o ∧
           line_refs line = refs o ∧
           line_has_child line =
             bool_decide (children_of (heap ex_four_state)
                            (tree_list ex_four_state) (line_obj line) ≠ []) ∧
           chain ex_four_state (line_obj line) (length (line_prefix line)).
Proof.
  split; [by vm_compute|].
  apply (TreeCommand_lines_describe_objects ex_four_state 1%N 0 3 6).
  - reflexivity.
  - apply ex_four_all_allocated.
  - by vm_compute.
  - apply ex_four_chain_root.
  - by vm_compute.
  - lia.
  - lia.
Defined.

Lemma DumpStructure_depth_cap_witness :
  children_of (heap ex_four_state) (tree_list ex_four_state) 2%N = [3%N] ∧
  ∃ line,
    DumpStructure 1 2%N 101 ex_four_state =
      Done [line]
           (add_trace [EvSaveCancel; EvRestoreCancel;
                       EvMsg 2%N MSG_WARN "structure tree is too deep"]
              ex_four_state) ∧
    line_obj line = 2%N.
Proof.
  split; [by vm_compute|].
  apply (DumpStructure_depth_cap ex_four_state 2%N 1 0 101).
  - apply ex_four_all_allocated.
  - apply ex_four_chain_mid.
  - lia.
  - lia.
Defined.

(** ** Release and the commands keep identities *)

Lemma keeps_identity_refl s : keeps_identity s s.
Proof. split; [|done]. intros p o' Ho. by exists o'. Qed.

Lemma keeps_identity_trans s1 s2 s3 :
  keeps_identity s1 s2 → keeps_identity s2 s3 → keeps_identity s1 s3.
Proof.
  intros [H1 L1] [H2 L2]. split; [|by etrans].
  intros p o3 Ho3. destruct (H2 p o3 Ho3) as (o2 & Ho2 & E2).
  destruct (H1 p o2 Ho2) as (o1 & Ho1 & E1). exists o1.
  split; [done|]. congruence.
Qed.

Lemma keeps_identity_same_heap s s' :
  heap s' = heap s → tree_list s' `sublist_of` tree_list s →
  keeps_identity s s'.
Proof.
  intros Hh Hl. split; [|done]. intros p o' Ho. exists o'.
  by rewrite <- Hh.
Qed.

Lemma ksteps_then {A B} (m : M A) (k : A → M B) :
  steps keeps_identity m → (∀ a, steps keeps_identity (k a)) →
  steps keeps_identity (bind m k).
Proof. apply steps_bind, keeps_identity_trans. Qed.

Lemma ksteps_ret {A} (a : A) : steps keeps_identity (ret a).
Proof. intros s. apply keeps_identity_refl. Qed.

Lemma ksteps_fail {A} f : steps keeps_identity (@fail A f).
Proof. intros s. apply keeps_identity_refl. Qed.

Lemma ksteps_assert b : steps keeps_identity (assert b).
Proof. destruct b; [apply ksteps_ret | apply ksteps_fail]. Qed.

Lemma ksteps_vlc_internals obj : steps keeps_identity (vlc_internals obj).
Proof.
  intros s. unfold vlc_internals.
  destruct (heap s !! obj); apply keeps_identity_refl.
Qed.

Lemma ksteps_get_tree_list : steps keeps_identity get_tree_list.
Proof. intros s. apply keeps_identity_refl. Qed.

Lemma ksteps_emit e : steps keeps_identity (emit e).
Proof. intros s. by apply keeps_identity_same_heap. Qed.

Lemma ksteps_vlc_mutex_lock : steps keeps_identity vlc_mutex_lock.
Proof.
  intros s. unfold vlc_mutex_lock. destruct (tree_lock s);
    [apply keeps_identity_refl | by apply keeps_identity_same_heap].
Qed.

Lemma ksteps_vlc_mutex_unlock : steps keeps_identity vlc_mutex_unlock.
Proof.
  intros s. unfold vlc_mutex_unlock. destruct (tree_lock s);
    [by apply keeps_identity_same_heap | apply keeps_identity_refl].
Qed.

Lemma ksteps_vlc_mutex_assert : steps keeps_identity vlc_mutex_assert.
Proof.
  intros s. unfold vlc_mutex_assert.
  destruct (tree_lock s); apply keeps_identity_refl.
Qed.

Lemma ksteps_vlc_list_remove obj : steps keeps_identity (vlc_list_remove obj).
Proof.
  intros s. apply keeps_identity_same_heap; [done|]. simpl.
  apply sublist_filter.
Qed.

Lemma ksteps_free obj : steps keeps_identity (free obj).
Proof.
  intros s. split; [|done]. simpl. intros p o' Ho.
  apply lookup_delete_Some in Ho as [_ Ho]. by exists o'.
Qed.

(** An update that writes back a header of the same identity. *)
Lemma ksteps_update {A} obj
    (g : vlc_object_internals_t → vlc_object_internals_t)
    (k : vlc_object_internals_t → M A) :
  (∀ priv, identity (g priv) = identity priv) →
  (∀ priv, steps keeps_identity (k priv)) →
  steps keeps_identity
    (bind (vlc_internals obj) (λ priv, bind (store obj (g priv)) (λ _, k priv))).
Proof.
  intros Hg Hk s. unfold bind at 1. unfold vlc_internals.
  destruct (heap s !! obj) as [priv|] eqn:E; [|apply keeps_identity_refl].
  unfold bind, store.
  eapply keeps_identity_trans; [|apply Hk].
  split; [|done]. simpl. intros p o' Ho.
  destruct (decide (p = obj)) as [->|Hne].
  - rewrite lookup_insert_eq in Ho. injection Ho as <-. by exists priv.
  - rewrite lookup_insert_ne in Ho by done. by exists o'.
Qed.

Lemma identity_set_refs r o : identity (set_refs r o) = identity o.
Proof. by destruct o. Qed.

Lemma identity_set_var_root v o : identity (set_var_root v o) = identity o.
Proof. by destruct o. Qed.

Lemma ksteps_atomic_load obj : steps keeps_identity (atomic_load obj).
Proof.
  apply ksteps_then; [apply ksteps_vlc_internals | intros; apply ksteps_ret].
Qed.

Lemma ksteps_atomic_fetch_add obj n :
  steps keeps_identity (atomic_fetch_add obj n).
Proof.
  apply ksteps_update; [intros; apply identity_set_refs | intros priv].
  apply ksteps_then; [apply ksteps_emit | intros; apply ksteps_ret].
Qed.

Lemma ksteps_atomic_fetch_sub obj n :
  steps keeps_identity (atomic_fetch_sub obj n).
Proof.
  apply ksteps_update; [intros; apply identity_set_refs | intros priv].
  apply ksteps_then; [apply ksteps_emit | intros; apply ksteps_ret].
Qed.

Lemma ksteps_atomic_compare_exchange_weak obj e d :
  steps keeps_identity (atomic_compare_exchange_weak obj e d).
Proof.
  intros s. unfold atomic_compare_exchange_weak, bind at 1, vlc_internals.
  destruct (heap s !! obj) as [priv|] eqn:E; [|apply keeps_identity_refl].
  destruct (refs priv =? e)%Z; [|apply keeps_identity_refl].
  split; [|done]. simpl. intros p o' Ho.
  destruct (decide (p = obj)) as [->|Hne].
  - rewrite lookup_insert_eq in Ho. injection Ho as <-. exists priv.
    split; [done|]. apply identity_set_refs.
  - rewrite lookup_insert_ne in Ho by done. by exists o'.
Qed.

Lemma ksteps_vlc_object_hold obj : steps keeps_identity (vlc_object_hold obj).
Proof.
  apply ksteps_then; [apply ksteps_atomic_fetch_add | intros r].
  apply ksteps_then; [apply ksteps_assert | intros; apply ksteps_ret].
Qed.

Lemma ksteps_has_child_loop l obj :
  steps keeps_identity (has_child_loop l obj).
Proof.
  induction l as [|c l IH]; simpl; [apply ksteps_ret|].
  apply ksteps_then; [apply ksteps_vlc_internals | intros priv].
  destruct (parent priv =? obj)%N; [apply ksteps_ret | apply IH].
Qed.

Lemma ksteps_ObjectHasChild obj : steps keeps_identity (ObjectHasChild obj).
Proof.
  apply ksteps_then; [apply ksteps_vlc_mutex_lock | intros _].
  apply ksteps_then.
  - apply ksteps_then; [apply ksteps_get_tree_list | intros l].
    apply ksteps_has_child_loop.
  - intros r. apply ksteps_then; [apply ksteps_vlc_mutex_unlock | intros _].
    apply ksteps_ret.
Qed.

Lemma ksteps_var_DelCallback obj name cb data :
  steps keeps_identity (var_DelCallback obj name cb data).
Proof.
  apply ksteps_update; [intros; apply identity_set_var_root | intros priv].
  apply ksteps_emit.
Qed.

Lemma ksteps_var_DestroyAll obj : steps keeps_identity (var_DestroyAll obj).
Proof.
  apply ksteps_update; [intros; apply identity_set_var_root | intros priv].
  apply ksteps_emit.
Qed.

Lemma ksteps_vlc_object_destroy p : steps keeps_identity (vlc_object_destroy p).
Proof.
  unfold vlc_object_destroy.
  apply ksteps_then; [apply ksteps_vlc_internals | intros priv].
  apply ksteps_then; [apply ksteps_assert | intros _].
  apply ksteps_then; [apply ksteps_emit | intros _].
  apply ksteps_then.
  { destruct (pf_destructor priv); [apply ksteps_emit | apply ksteps_ret]. }
  intros _. apply ksteps_then.
  { destruct (parent priv =? NULL)%N; [|apply ksteps_ret].
    apply ksteps_then; [apply ksteps_var_DelCallback | intros _].
    apply ksteps_var_DelCallback. }
  intros _.
  apply ksteps_then; [apply ksteps_var_DestroyAll | intros _].
  apply ksteps_then; [apply ksteps_emit | intros _].
  apply ksteps_then; [apply ksteps_emit | intros _].
  apply ksteps_then; [apply ksteps_emit | intros _].
  apply ksteps_free.
Qed.

Lemma ksteps_fast_path fuel obj r : steps keeps_identity (fast_path fuel obj r).
Proof.
  revert r. induction fuel as [|fuel IH]; intros r; simpl.
  - destruct (1 <? r)%Z; [apply ksteps_fail | apply ksteps_ret].
  - destruct (1 <? r)%Z; [|apply ksteps_ret].
    apply ksteps_then; [apply ksteps_atomic_compare_exchange_weak|].
    intros [ok r']. destruct ok; [apply ksteps_ret|].
    apply ksteps_then; [apply ksteps_assert | intros _; apply IH].
Qed.

Lemma ksteps_vlc_object_release fuel obj :
  steps keeps_identity (vlc_object_release fuel obj).
Proof.
  revert obj. induction fuel as [|fuel IH]; intros obj.
  { apply ksteps_fail. }
  rewrite vlc_object_release_unfold.
  apply ksteps_then; [apply ksteps_atomic_load | intros r].
  apply ksteps_then; [apply ksteps_fast_path | intros [returned r']].
  destruct returned; [apply ksteps_ret|].
  apply ksteps_then.
  { apply ksteps_then; [apply ksteps_vlc_internals | intros; apply ksteps_ret]. }
  intros par. destruct (par =? NULL)%N.
  - apply ksteps_then; [apply ksteps_atomic_fetch_sub | intros r1].
    apply ksteps_then; [apply ksteps_assert | intros _].
    apply ksteps_then; [apply ksteps_ObjectHasChild | intros hc].
    apply ksteps_then; [apply ksteps_assert | intros _].
    apply ksteps_vlc_object_destroy.
  - apply ksteps_then; [apply ksteps_vlc_mutex_lock | intros _].
    apply ksteps_then; [apply ksteps_atomic_fetch_sub | intros r1].
    apply ksteps_then; [apply ksteps_assert | intros _].
    apply ksteps_then.
    { destruct (r1 =? 1)%Z; [apply ksteps_vlc_list_remove | apply ksteps_ret]. }
    intros _.
    apply ksteps_then; [apply ksteps_vlc_mutex_unlock | intros _].
    destruct (r1 =? 1)%Z; [|apply ksteps_ret].
    apply ksteps_then; [apply ksteps_ObjectHasChild | intros hc].
    apply ksteps_then; [apply ksteps_assert | intros _].
    apply ksteps_then; [apply ksteps_vlc_object_destroy | intros _].
    apply IH.
Qed.

Lemma ksteps_exists_loop (search : N → M N) root l :
  (∀ pos, steps keeps_identity (search pos)) →
  steps keeps_identity (exists_loop search root l).
Proof.
  intros Hs. induction l as [|c l IH]; simpl; [apply ksteps_ret|].
  apply ksteps_then; [apply ksteps_vlc_internals | intros priv].
  destruct (parent priv =? root)%N; [|apply IH].
  apply ksteps_then; [apply Hs | intros r].
  destruct (r =? NULL)%N; [apply IH | apply ksteps_ret].
Qed.

Lemma ksteps_ObjectExists fuel root obj :
  steps keeps_identity (ObjectExists fuel root obj).
Proof.
  revert root. induction fuel as [|fuel IH]; intros root.
  - simpl. destruct (root =? obj)%N;
      [apply ksteps_vlc_object_hold | apply ksteps_fail].
  - rewrite ObjectExists_unfold.
    destruct (root =? obj)%N; [apply ksteps_vlc_object_hold|].
    apply ksteps_then; [apply ksteps_vlc_mutex_assert | intros _].
    apply ksteps_then; [apply ksteps_get_tree_list | intros l].
    apply ksteps_exists_loop. intros pos. apply IH.
Qed.

Lemma ksteps_list_children_loop l obj max :
  ∀ count tab, steps keeps_identity (list_children_loop l obj max count tab).
Proof.
  induction l as [|c l IH]; intros count tab; simpl; [apply ksteps_ret|].
  apply ksteps_then; [apply ksteps_vlc_internals | intros priv].
  destruct (parent priv =? obj)%N; [|apply IH].
  apply ksteps_then; [|intros tab'; apply IH].
  destruct (count <? max)%N; [|apply ksteps_ret].
  apply ksteps_then; [apply ksteps_vlc_object_hold | intros h].
  unfold tab_write.
  destruct (N.to_nat count <? length tab)%nat;
    [apply ksteps_ret | apply ksteps_fail].
Qed.

Lemma ksteps_vlc_list_children obj tab max :
  steps keeps_identity (vlc_list_children obj tab max).
Proof.
  unfold vlc_list_children.
  apply ksteps_then; [apply ksteps_vlc_mutex_lock | intros _].
  apply ksteps_then; [apply ksteps_get_tree_list | intros l].
  apply ksteps_then; [apply ksteps_list_children_loop | intros r].
  apply ksteps_then; [apply ksteps_vlc_mutex_unlock | intros _].
  apply ksteps_ret.
Qed.

Lemma ksteps_VarsCommand_dump fuel obj :
  steps keeps_identity (VarsCommand_dump fuel obj).
Proof.
  unfold VarsCommand_dump, vlc_object_typename, vlc_object_parent,
    DumpVariables.
  apply ksteps_then.
  { apply ksteps_then; [apply ksteps_vlc_internals | intros; apply ksteps_ret]. }
  intros ty. apply ksteps_then.
  { apply ksteps_then; [apply ksteps_vlc_internals | intros; apply ksteps_ret]. }
  intros par.
  apply ksteps_then; [apply ksteps_emit | intros _].
  apply ksteps_then.
  { apply ksteps_then; [apply ksteps_vlc_internals | intros; apply ksteps_emit]. }
  intros _.
  apply ksteps_then; [apply ksteps_vlc_object_release | intros _].
  apply ksteps_ret.
Qed.

Lemma ksteps_VarsCommand sscanf_p fuel obj newval :
  steps keeps_identity (VarsCommand sscanf_p fuel obj newval).
Proof.
  unfold VarsCommand. destruct (sscanf_p newval) as [p|].
  - apply ksteps_then; [apply ksteps_vlc_mutex_lock | intros _].
    apply ksteps_then; [apply ksteps_ObjectExists | intros r].
    apply ksteps_then; [apply ksteps_vlc_mutex_unlock | intros _].
    destruct (r =? NULL)%N; [|apply ksteps_VarsCommand_dump].
    apply ksteps_then; [apply ksteps_emit | intros _; apply ksteps_ret].
  - apply ksteps_then; [apply ksteps_vlc_object_hold | intros _].
    apply ksteps_VarsCommand_dump.
Qed.

Lemma identity_fields o o' :
  identity o' = identity o →
  typename o' = typename o ∧ parent o' = parent o ∧
  pf_destructor o' = pf_destructor o ∧ resources o' = resources o ∧
  logger o' = logger o ∧ no_interact o' = no_interact o ∧
  force o' = force o ∧ payload o' = payload o.
Proof.
  destruct o, o'. unfold identity, set_var_root, set_refs. simpl.
  intros H. injection H as -> -> -> -> -> -> -> ->. by repeat split.
Qed.

(** X12: whatever a release does and however it ends, an object that is
    allocated afterwards was allocated before, with the same type name,
    parent, teardown hook, resources, logger, flags and payload; and the
    list afterwards is the list before with entries removed, none added
    or reordered. *)
Theorem release_keeps_identity fuel obj s p o' :
  heap (final (vlc_object_release fuel obj s)) !! p = Some o' →
  (∃ o, heap s !! p = Some o ∧
        typename o' = typename o ∧ parent o' = parent o ∧
        pf_destructor o' = pf_destructor o ∧ resources o' = resources o ∧
        logger o' = logger o ∧ no_interact o' = no_interact o ∧
        force o' = force o ∧ payload o' = payload o)
  ∧ tree_list (final (vlc_object_release fuel obj s))
      `sublist_of` tree_list s.
Proof.
  intros Ho. destruct (ksteps_vlc_object_release fuel obj s) as [Hk Hl].
  split; [|done]. destruct (Hk p o' Ho) as (o & Hs & Hid).
  exists o. split; [done|]. by apply identity_fields.
Qed.

Lemma release_keeps_identity_witness :
  heap (final (vlc_object_release 3 3%N ex_leaf_state)) !! 2%N
    = Some (ex_obj "mid" [] 1 1%N 8) ∧
  ∃ o, heap ex_leaf_state !! 2%N = Some o ∧
       typename (ex_obj "mid" [] 1 1%N 8) = typename o ∧
       parent (ex_obj "mid" [] 1 1%N 8) = parent o ∧
       pf_destructor (ex_obj "mid" [] 1 1%N 8) = pf_destructor o ∧
       resources (ex_obj "mid" [] 1 1%N 8) = resources o ∧
       logger (ex_obj "mid" [] 1 1%N 8) = logger o ∧
       no_interact (ex_obj "mid" [] 1 1%N 8) = no_interact o ∧
       force (ex_obj "mid" [] 1 1%N 8) = force o ∧
       payload (ex_obj "mid" [] 1 1%N 8) = payload o.
Proof.
  split; [by vm_compute|].
  apply (proj1 (release_keeps_identity 3 3%N ex_leaf_state 2%N
                  (ex_obj "mid" [] 1 1%N 8) ltac:(by vm_compute))).
Defined.

(** X13: the [vars] command and the listing of children, whatever their
    input and however they end, keep the identity of every object that is
    allocated afterwards (type name, parent, hook, resources, logger, flags,
    payload) and add nothing to the list. *)
Theorem commands_keep_identity sscanf_p fuel obj newval (tab : list N) max s p o' :
  (heap (final (VarsCommand sscanf_p fuel obj newval s)) !! p = Some o' ∨
   heap (final (vlc_list_children obj tab max s)) !! p = Some o') →
  (∃ o, heap s !! p = Some o ∧
        typename o' = typename o ∧ parent o' = parent o ∧
        pf_destructor o' = pf_destructor o ∧ resources o' = resources o ∧
        logger o' = logger o ∧ no_interact o' = no_interact o ∧
        force o' = force o ∧ payload o' = payload o)
  ∧ tree_list (final (VarsCommand sscanf_p fuel obj newval s))
      `sublist_of` tree_list s
  ∧ tree_list (final (vlc_list_children obj tab max s))
      `sublist_of` tree_list s.
Proof.
  intros Ho.
  destruct (ksteps_VarsCommand sscanf_p fuel obj newval s) as [Hk1 Hl1].
  destruct (ksteps_vlc_list_children obj tab max s) as [Hk2 Hl2].
  split; [|by split].
  destruct Ho as [Ho|Ho];
    [destruct (Hk1 p o' Ho) as (o & Hs & Hid)
    |destruct (Hk2 p o' Ho) as (o & Hs & Hid)];
    (exists o; split; [done|]; by apply identity_fields).
Qed.

Lemma commands_keep_identity_witness :
  heap (final (VarsCommand ex_sscanf_p 3 1%N "0x3" ex_leaf_state)) !! 3%N
    = Some (ex_obj "leaf" [] 1 2%N 0) ∧
  ∃ o, heap ex_leaf_state !! 3%N = Some o ∧
       typename (ex_obj "leaf" [] 1 2%N 0) = typename o ∧
       parent (ex_obj "leaf" [] 1 2%N 0) = parent o ∧
       pf_destructor (ex_obj "leaf" [] 1 2%N 0) = pf_destructor o ∧
       resources (ex_obj "leaf" [] 1 2%N 0) = resources o ∧
       logger (ex_obj "leaf" [] 1 2%N 0) = logger o ∧
       no_interact (ex_obj "leaf" [] 1 2%N 0) = no_interact o ∧
       force (ex_obj "leaf" [] 1 2%N 0) = force o ∧
       payload (ex_obj "leaf" [] 1 2%N 0) = payload o.
Proof.
  assert (heap (final (VarsCommand ex_sscanf_p 3 1%N "0x3" ex_leaf_state))
            !! 3%N = Some (ex_obj "leaf" [] 1 2%N 0)) as H by by vm_compute.
  split; [exact H|].
  exact (proj1 (commands_keep_identity ex_sscanf_p 3 1%N "0x3" [] 0%N
                  ex_leaf_state 3%N (ex_obj "leaf" [] 1 2%N 0)
                  (or_introl H))).
Defined.

(** ** The tree is well-founded in every reachable state *)

Lemma ranked_keeps (h h' : gmap N vlc_object_internals_t) :
  ranked h →
  (∀ c o', h' !! c = Some o' → ∃ o, h !! c = Some o ∧ parent o' = parent o) →
  ranked h'.
Proof.
  intros (rank & B & Hr) Hk. exists rank, B. intros c o' Ho'.
  destruct (Hk c o' Ho') as (o & Ho & Hp). rewrite Hp. by apply Hr.
Qed.

Lemma ranked_keeps_identity s s' :
  ranked (heap s) → keeps_identity s s' → ranked (heap s').
Proof.
  intros Hr [Hk _]. apply (ranked_keeps (heap s)); [done|].
  intros c o' Ho'. destruct (Hk c o' Ho') as (o & Ho & Hid).
  exists o. split; [done|]. by apply identity_fields in Hid as (_ & ? & _).
Qed.

Lemma ranked_insert_fresh (h : gmap N vlc_object_internals_t) m o :
  ranked h → h !! m = None →
  (∀ c oc, h !! c = Some oc → parent oc ≠ m) →
  (parent o = NULL ∨ is_Some (h !! parent o)) →
  ranked (<[m := o]> h).
Proof.
  intros (rank & B & Hr) Hfresh Hnp Hpar.
  exists (λ c, if decide (c = m)
               then (if decide (parent o = NULL) then 0
                     else S (rank (parent o)))
               else rank c), (S B).
  intros c oc Hoc. destruct (decide (c = m)) as [->|Hne].
  - rewrite lookup_insert_eq in Hoc. injection Hoc as <-.
    destruct (decide (parent o = NULL)) as [Hp|Hp]; [split; [lia|done]|].
    destruct Hpar as [Hp'|[po Hpo]]; [done|].
    destruct (Hr (parent o) po Hpo) as [Hb _]. split; [lia|]. intros _.
    rewrite decide_False by congruence. lia.
  - rewrite lookup_insert_ne in Hoc by done.
    destruct (Hr c oc Hoc) as [Hb Hp]. split; [lia|]. intros Hpn.
    rewrite decide_False by (by apply (Hnp c oc)). by apply Hp.
Qed.

Lemma ranked_empty : ranked ∅.
Proof. exists (λ _, 0), 0. intros c o Ho. by rewrite lookup_empty in Ho. Qed.

Lemma reachable_ranked sz vs vc s : reachable sz vs vc s → ranked (heap s).
Proof.
  induction 1 as [|s m p len ty s' Hreach IH Hm Hfresh Hlen Hp Hrun
                  |s obj o s' Hreach IH Ho Hmax Hrun
                  |s obj s' Hreach IH Hown Hrun].
  - apply ranked_empty.
  - pose proof (reachable_inv _ _ _ _ Hreach) as Hinv.
    pose proof (tree_inv_fresh_no_parent s m Hinv Hm Hfresh) as Hnp.
    destruct Hp as [->|(po & Hpo & Hmax)].
    + rewrite create_root_Done in Hrun by done. injection Hrun as <-.
      simpl. apply ranked_insert_fresh; try done. by left.
    + assert (p ≠ NULL) as Hpn.
      { intros ->. pose proof (inv_null s Hinv). congruence. }
      assert (m ≠ p) as Hmp by (intros ->; congruence).
      destruct (inv_refs s Hinv p po Hpo) as [[Hr1 _] _].
      rewrite (create_child_Done sz vs vc m p len ty po) in Hrun;
        try done; [|lia|by apply inv_lock].
      injection Hrun as <-. simpl. apply ranked_insert_fresh.
      * apply (ranked_keeps (heap s)); [done|]. intros c o' Ho'.
        destruct (decide (c = p)) as [->|Hne].
        -- rewrite lookup_insert_eq in Ho'. injection Ho' as <-. by exists po.
        -- rewrite lookup_insert_ne in Ho' by done. by exists o'.
      * by rewrite lookup_insert_ne.
      * intros c oc Hoc. destruct (decide (c = p)) as [->|Hne].
        -- rewrite lookup_insert_eq in Hoc. injection Hoc as <-. simpl.
           by apply (Hnp p po).
        -- rewrite lookup_insert_ne in Hoc by done. by apply (Hnp c oc).
      * right. simpl. rewrite lookup_insert_eq. by eexists.
  - apply (ranked_keeps_identity s); [done|].
    pose proof (ksteps_vlc_object_hold obj s) as Hk. by rewrite Hrun in Hk.
  - apply (ranked_keeps_identity s); [done|].
    pose proof (ksteps_vlc_object_release (size (heap s)) obj s) as Hk.
    by rewrite Hrun in Hk.
Qed.

Lemma height_le_mono_le n m s obj :
  n ≤ m → height_le n s obj = true → height_le m s obj = true.
Proof.
  induction 1 as [|m _ IH]; [done|]. intros H. by apply height_le_mono, IH.
Qed.

(** In a ranked heap the tree below any object has bounded height. *)
Lemma ranked_height s :
  ranked (heap s) → heap s !! NULL = None →
  ∃ n, ∀ obj, height_le n s obj = true.
Proof.
  intros (rank & B & Hr) Hnull.
  assert (∀ k c o, heap s !! c = Some o → B - rank c ≤ k →
                   height_le (S k) s c = true) as Hclaim.
  { induction k as [|k IH]; intros c o Ho Hk.
    { destruct (Hr c o Ho) as [Hb _]. lia. }
    change (height_le (S (S k)) s c)
      with (forallb (λ x, match heap s !! x with
                          | Some ox => if (parent ox =? c)%N
                                       then height_le (S k) s x else true
                          | None => true
                          end) (tree_list s)).
    apply forallb_forall. intros x _.
    destruct (heap s !! x) as [ox|] eqn:Ex; [|done].
    destruct (parent ox =? c)%N eqn:Ep; [|done].
    apply N.eqb_eq in Ep. apply (IH x ox Ex).
    assert (parent ox ≠ NULL) as Hpn by (intros Heq; congruence).
    destruct (Hr x ox Ex) as [Hbx Hpx]. specialize (Hpx Hpn).
    rewrite Ep in Hpx. lia. }
  exists (S (S B)). intros obj.
  change (height_le (S (S B)) s obj)
    with (forallb (λ x, match heap s !! x with
                        | Some ox => if (parent ox =? obj)%N
                                     then height_le (S B) s x else true
                        | None => true
                        end) (tree_list s)).
  apply forallb_forall. intros x _.
  destruct (heap s !! x) as [ox|] eqn:Ex; [|done].
  destruct (parent ox =? obj)%N; [|done].
  apply (Hclaim B x ox Ex). lia.
Qed.

(** In a ranked heap that satisfies the invariants, the walk up from any
    allocated object reaches a parentless object. *)
Lemma ranked_chain s :
  ranked (heap s) → tree_inv s → list_inv s →
  ∀ c o, heap s !! c = Some o → ∃ d, chain s c d.
Proof.
  intros (rank & B & Hr) Hinv [_ Hin].
  assert (∀ k c o, heap s !! c = Some o → rank c ≤ k → ∃ d, chain s c d)
    as Hclaim.
  { induction k as [|k IH]; intros c o Ho Hk.
    - destruct (decide (parent o = NULL)) as [Hp|Hp].
      + exists 0. by apply (chain_root s c o).
      + destruct (Hr c o Ho) as [_ Hlt]. specialize (Hlt Hp). lia.
    - destruct (decide (parent o = NULL)) as [Hp|Hp].
      + exists 0. by apply (chain_root s c o).
      + destruct (inv_parent s Hinv c o Ho Hp) as [po Hpo].
        destruct (Hr c o Ho) as [_ Hlt]. specialize (Hlt Hp).
        destruct (IH (parent o) po Hpo) as [d Hd]; [lia|].
        exists (S d). apply (chain_step s c o); try done.
        by apply (Hin c o). }
  intros c o Ho. by apply (Hclaim (rank c) c o).
Qed.

(** X14: in every reachable state the parent relation is well-founded:
    there is a bound on the height of the tree below any object, the walk
    from an allocated object up through its parents ends at a parentless
    object, and no allocated object lies in the tree below one of its own
    children. *)
Theorem reachable_tree_well_founded sz vs vc s :
  reachable sz vs vc s →
  (∃ n, ∀ obj, height_le n s obj = true)
  ∧ (∀ c o, heap s !! c = Some o → ∃ d, chain s c d)
  ∧ (∀ c o, heap s !! c = Some o → parent o ≠ NULL →
            ¬ in_tree s c (parent o)).
Proof.
  intros Hreach.
  pose proof (reachable_inv _ _ _ _ Hreach) as Hinv.
  pose proof (reachable_list_inv _ _ _ _ Hreach) as Hlinv.
  pose proof (reachable_ranked _ _ _ _ Hreach) as Hrk.
  destruct (ranked_height s Hrk (inv_null s Hinv)) as [n Hn].
  split; [by exists n|]. split.
  - by apply ranked_chain.
  - intros c o Ho Hp Hin.
    apply (height_le_no_cycle n s (parent o) c o); try done.
    destruct Hlinv as [_ Hl]. by apply (Hl c o).
Qed.

Lemma reachable_tree_well_founded_witness :
  (∃ n, ∀ obj, height_le n ex_reach_mid obj = true)
  ∧ (∀ c o, heap ex_reach_mid !! c = Some o → ∃ d, chain ex_reach_mid c d)
  ∧ (∀ c o, heap ex_reach_mid !! c = Some o → parent o ≠ NULL →
            ¬ in_tree ex_reach_mid c (parent o)).
Proof.
  apply (reachable_tree_well_founded ex_sizeof ex_VAR_STRING ex_VAR_ISCOMMAND).
  apply ex_reach_mid_reachable.
Defined.

(** ** The commands in reachable states *)

Lemma tree_inv_wf s : tree_inv s → tree_wf s.
Proof.
  intros Hinv c Hc. destruct (inv_list s Hinv c Hc) as (o & Ho & _).
  split.
  - intros ->. pose proof (inv_null s Hinv). congruence.
  - exists o. split; [done|].
    destruct (inv_refs s Hinv c o Ho) as [[Hr _] _]. lia.
Qed.

Lemma tree_inv_all_allocated s : tree_inv s → all_allocated s (tree_list s).
Proof.
  intros Hinv c Hc. destruct (inv_list s Hinv c Hc) as (o & Ho & _).
  by exists o.
Qed.

(** X15: in every reachable state, the [vars] command called on an
    allocated object with a text that parses as a pointer returns, given
    enough fuel: [VLC_SUCCESS] after the dump of the target when the
    pointer is in the tree below the object, [VLC_ENOOBJ] after the error
    message when it is not; either way memory, list and lock are as
    before. *)
Theorem VarsCommand_reachable sz vs vc sscanf_p s obj ro newval p :
  reachable sz vs vc s → heap s !! obj = Some ro →
  sscanf_p newval = Some p →
  (∀ o, heap s !! p = Some o → (refs o < UINT_MAX)%Z) →
  ∃ fuel0, ∀ fuel, fuel0 ≤ fuel →
    (in_tree s obj p →
     ∃ o, heap s !! p = Some o ∧
       VarsCommand sscanf_p fuel obj newval s =
         Done VLC_SUCCESS
           (add_trace [EvMutexLock; EvFetchAdd p (refs o); EvMutexUnlock;
                       EvPrintObject p (typename o) (parent o);
                       EvDumpVariables p; EvCasDec p (refs o + 1)] s))
    ∧ (¬ in_tree s obj p →
       VarsCommand sscanf_p fuel obj newval s =
         Done VLC_ENOOBJ
           (add_trace [EvMutexLock; EvMutexUnlock;
                       EvMsg obj MSG_ERR ("no such object: " ++ newval)] s)).
Proof.
  intros Hreach Hro Hscan Hmax.
  pose proof (reachable_inv _ _ _ _ Hreach) as Hinv.
  pose proof (reachable_ranked _ _ _ _ Hreach) as Hrk.
  pose proof (tree_inv_wf s Hinv) as Hwf.
  pose proof (inv_lock s Hinv) as Hlk.
  destruct (ranked_height s Hrk (inv_null s Hinv)) as [n Hn].
  destruct (inv_refs s Hinv obj ro Hro) as [[Hr1 _] _].
  assert (obj ≠ NULL) as Hon.
  { intros ->. pose proof (inv_null s Hinv). congruence. }
  exists n. intros fuel Hfuel.
  pose proof (height_le_mono_le n fuel s obj Hfuel (Hn obj)) as Hh.
  split.
  - intros Hin.
    destruct (in_tree_live s obj ro p Hwf Hro ltac:(lia) Hin) as (o & Ho & _).
    exists o. split; [done|].
    apply (VarsCommand_object sscanf_p s obj ro newval p o); auto; lia.
  - intros Hnin.
    apply (VarsCommand_no_object sscanf_p s obj ro newval p); auto; lia.
Qed.

Lemma VarsCommand_reachable_witness :
  ex_sscanf_p "0x2" = Some 2%N ∧
  ∃ fuel0, ∀ fuel, fuel0 ≤ fuel →
    (in_tree ex_reach_mid 1%N 2%N →
     ∃ o, heap ex_reach_mid !! 2%N = Some o ∧
       VarsCommand ex_sscanf_p fuel 1%N "0x2" ex_reach_mid =
         Done VLC_SUCCESS
           (add_trace [EvMutexLock; EvFetchAdd 2%N (refs o); EvMutexUnlock;
                       EvPrintObject 2%N (typename o) (parent o);
                       EvDumpVariables 2%N; EvCasDec 2%N (refs o + 1)]
              ex_reach_mid))
    ∧ (¬ in_tree ex_reach_mid 1%N 2%N →
       VarsCommand ex_sscanf_p fuel 1%N "0x2" ex_reach_mid =
         Done VLC_ENOOBJ
           (add_trace [EvMutexLock; EvMutexUnlock;
                       EvMsg 1%N MSG_ERR ("no such object: " ++ "0x2")]
              ex_reach_mid)).
Proof.
  split; [reflexivity|].
  apply (VarsCommand_reachable ex_sizeof ex_VAR_STRING ex_VAR_ISCOMMAND
           ex_sscanf_p ex_reach_mid 1%N
           (ex_obj "libvlc" ex_root_vars 2 NULL 0) "0x2" 2%N).
  - apply ex_reach_mid_reachable.
  - by vm_compute.
  - reflexivity.
  - intros o Ho. vm_compute in Ho. injection Ho as <-. simpl.
    unfold UINT_MAX. lia.
Defined.

(** X16: in every reachable state, the [tree] command called on an
    allocated object whose tree has at most 101 levels returns
    [VLC_SUCCESS], given enough fuel, after printing one line for each
    object of the tree below the object, each once and no other, with
    memory, list and lock as before. *)
Theorem TreeCommand_reachable sz vs vc s obj o :
  reachable sz vs vc s → heap s !! obj = Some o →
  height_le 101 s obj = true →
  ∃ fuel0, ∀ fuel, fuel0 ≤ fuel →
    ∃ lines,
      TreeCommand fuel obj s =
        Done (VLC_SUCCESS, lines)
             (add_trace ([EvMutexLock] ++ print_events (length lines) ++
                         [EvMutexUnlock]) s) ∧
      (∀ x, x ∈ map line_obj lines ↔ in_tree s obj x) ∧
      NoDup (map line_obj lines).
Proof.
  intros Hreach Ho Hh.
  pose proof (reachable_inv _ _ _ _ Hreach) as Hinv.
  pose proof (reachable_list_inv _ _ _ _ Hreach) as Hlinv.
  pose proof (reachable_ranked _ _ _ _ Hreach) as Hrk.
  destruct (ranked_chain s Hrk Hinv Hlinv obj o Ho) as [d Hch].
  exists (d + 202). intros fuel Hfuel.
  assert (d + 2 * 101 ≤ fuel) as Hfuel' by (simpl; lia).
  destruct (TreeCommand_run s obj d 101 fuel (inv_lock s Hinv)
              (tree_inv_all_allocated s Hinv) (inv_null s Hinv) Hch Hh
              (le_n 101) Hfuel') as (lines & Hrun & Hmap & _).
  exists lines. split; [done|]. rewrite Hmap. split.
  - intros x. split; [apply preorder_in_tree | by apply in_tree_preorder].
  - apply preorder_NoDup; [by destruct Hlinv | done].
Qed.

Lemma TreeCommand_reachable_witness :
  height_le 101 ex_reach_mid 1%N = true ∧
  ∃ fuel0, ∀ fuel, fuel0 ≤ fuel →
    ∃ lines,
      TreeCommand fuel 1%N ex_reach_mid =
        Done (VLC_SUCCESS, lines)
             (add_trace ([EvMutexLock] ++ print_events (length lines) ++
                         [EvMutexUnlock]) ex_reach_mid) ∧
      (∀ x, x ∈ map line_obj lines ↔ in_tree ex_reach_mid 1%N x) ∧
      NoDup (map line_obj lines).
Proof.
  assert (height_le 101 ex_reach_mid 1%N = true) as Hh by by vm_compute.
  split; [exact Hh|].
  apply (TreeCommand_reachable ex_sizeof ex_VAR_STRING ex_VAR_ISCOMMAND
           ex_reach_mid 1%N (ex_obj "libvlc" ex_root_vars 2 NULL 0)).
  - apply ex_reach_mid_reachable.
  - by vm_compute.
  - exact Hh.
Defined.

(** ** The lock is never taken twice *)

Lemma lock_trans_bind {A B} b b' b'' (m : M A) (k : A → M B) :
  lock_trans b b' m → (∀ a, lock_trans b' b'' (k a)) →
  lock_trans b b'' (bind m k).
Proof.
  intros Hm Hk s Hs. unfold bind. specialize (Hm s Hs).
  destruct (m s) as [a s1|f s1]; [|done]. by apply Hk.
Qed.

Lemma lock_trans_ret {A} b (a : A) : lock_trans b b (ret a).
Proof. by intros s Hs. Qed.

Lemma lock_trans_fail {A} b b' f : f ≠ Deadlock → lock_trans b b' (@fail A f).
Proof. by intros Hf s Hs. Qed.

Lemma lock_trans_assert b c : lock_trans b b (assert c).
Proof. destruct c; [apply lock_trans_ret | by apply lock_trans_fail]. Qed.

Lemma lock_trans_emit b e : lock_trans b b (emit e).
Proof. by intros s Hs. Qed.

Lemma lock_trans_vlc_internals b obj : lock_trans b b (vlc_internals obj).
Proof.
  intros s Hs. unfold vlc_internals.
  destruct (heap s !! obj); simpl; [done | discriminate].
Qed.

Lemma lock_trans_store b obj priv : lock_trans b b (store obj priv).
Proof. by intros s Hs. Qed.

Lemma lock_trans_get_tree_list b : lock_trans b b get_tree_list.
Proof. by intros s Hs. Qed.

Lemma lock_trans_vlc_mutex_lock : lock_trans false true vlc_mutex_lock.
Proof. intros s Hs. unfold vlc_mutex_lock. by rewrite Hs. Qed.

Lemma lock_trans_vlc_mutex_unlock : lock_trans true false vlc_mutex_unlock.
Proof. intros s Hs. unfold vlc_mutex_unlock. by rewrite Hs. Qed.

Lemma lock_trans_vlc_mutex_assert b : lock_trans b b vlc_mutex_assert.
Proof.
  intros s Hs. unfold vlc_mutex_assert.
  destruct (tree_lock s) eqn:E; simpl; [congruence | discriminate].
Qed.

Lemma lock_trans_vlc_list_remove b obj : lock_trans b b (vlc_list_remove obj).
Proof. by intros s Hs. Qed.

Lemma lock_trans_vlc_list_append b obj : lock_trans b b (vlc_list_append obj).
Proof. by intros s Hs. Qed.

Lemma lock_trans_free b obj : lock_trans b b (free obj).
Proof. by intros s Hs. Qed.

(** Sequences of lock-neutral steps. *)
Ltac lock_neutral :=
  repeat first
    [ apply lock_trans_ret | apply lock_trans_emit | apply lock_trans_assert
    | apply lock_trans_vlc_internals | apply lock_trans_store
    | apply lock_trans_get_tree_list | apply lock_trans_vlc_mutex_assert
    | apply lock_trans_vlc_list_remove | apply lock_trans_vlc_list_append
    | apply lock_trans_free
    | (by apply lock_trans_fail)
    | (eapply lock_trans_bind; [|intros ?]) ].

Lemma lock_trans_atomic_load b obj : lock_trans b b (atomic_load obj).
Proof. unfold atomic_load. lock_neutral. Qed.

Lemma lock_trans_atomic_fetch_add b obj n :
  lock_trans b b (atomic_fetch_add obj n).
Proof. unfold atomic_fetch_add. lock_neutral. Qed.

Lemma lock_trans_atomic_fetch_sub b obj n :
  lock_trans b b (atomic_fetch_sub obj n).
Proof. unfold atomic_fetch_sub. lock_neutral. Qed.

Lemma lock_trans_atomic_compare_exchange_weak b obj e d :
  lock_trans b b (atomic_compare_exchange_weak obj e d).
Proof.
  unfold atomic_compare_exchange_weak.
  eapply lock_trans_bind; [apply lock_trans_vlc_internals | intros priv].
  destruct (refs priv =? e)%Z; lock_neutral.
Qed.

Lemma lock_trans_vlc_object_hold b obj : lock_trans b b (vlc_object_hold obj).
Proof.
  unfold vlc_object_hold.
  eapply lock_trans_bind; [apply lock_trans_atomic_fetch_add | intros r].
  lock_neutral.
Qed.

Lemma lock_trans_has_child_loop b l obj :
  lock_trans b b (has_child_loop l obj).
Proof.
  induction l as [|c l IH]; simpl; [apply lock_trans_ret|].
  eapply lock_trans_bind; [apply lock_trans_vlc_internals | intros priv].
  destruct (parent priv =? obj)%N; [apply lock_trans_ret | apply IH].
Qed.

Lemma lock_trans_ObjectHasChildLocked b obj :
  lock_trans b b (ObjectHasChildLocked obj).
Proof.
  unfold ObjectHasChildLocked.
  eapply lock_trans_bind; [apply lock_trans_get_tree_list | intros l].
  apply lock_trans_has_child_loop.
Qed.

Lemma lock_trans_ObjectHasChild obj :
  lock_trans false false (ObjectHasChild obj).
Proof.
  unfold ObjectHasChild.
  eapply lock_trans_bind; [apply lock_trans_vlc_mutex_lock | intros _].
  eapply lock_trans_bind; [apply lock_trans_ObjectHasChildLocked | intros r].
  eapply lock_trans_bind; [apply lock_trans_vlc_mutex_unlock | intros _].
  apply lock_trans_ret.
Qed.

Lemma lock_trans_var_op b obj g e :
  lock_trans b b
    (bind (vlc_internals obj) (λ priv, bind (store obj (g priv)) (λ _, emit e))).
Proof. lock_neutral. Qed.

Lemma lock_trans_vlc_object_destroy b p :
  lock_trans b b (vlc_object_destroy p).
Proof.
  unfold vlc_object_destroy.
  eapply lock_trans_bind; [apply lock_trans_vlc_internals | intros priv].
  eapply lock_trans_bind; [apply lock_trans_assert | intros _].
  eapply lock_trans_bind; [apply lock_trans_emit | intros _].
  eapply lock_trans_bind.
  { destruct (pf_destructor priv); [apply lock_trans_emit | apply lock_trans_ret]. }
  intros _. eapply lock_trans_bind.
  { destruct (parent priv =? NULL)%N; [|apply lock_trans_ret].
    eapply lock_trans_bind; [apply lock_trans_var_op | intros _].
    apply lock_trans_var_op. }
  intros _.
  eapply lock_trans_bind; [apply lock_trans_var_op | intros _].
  eapply lock_trans_bind; [apply lock_trans_emit | intros _].
  eapply lock_trans_bind; [apply lock_trans_emit | intros _].
  eapply lock_trans_bind; [apply lock_trans_emit | intros _].
  apply lock_trans_free.
Qed.

Lemma lock_trans_fast_path b fuel obj r :
  lock_trans b b (fast_path fuel obj r).
Proof.
  revert r. induction fuel as [|fuel IH]; intros r; simpl.
  - destruct (1 <? r)%Z; [by apply lock_trans_fail | apply lock_trans_ret].
  - destruct (1 <? r)%Z; [|apply lock_trans_ret].
    eapply lock_trans_bind;
      [apply lock_trans_atomic_compare_exchange_weak | intros [ok r']].
    destruct ok; [apply lock_trans_ret|].
    eapply lock_trans_bind; [apply lock_trans_assert | intros _; apply IH].
Qed.

Lemma lock_trans_vlc_object_release fuel obj :
  lock_trans false false (vlc_object_release fuel obj).
Proof.
  revert obj. induction fuel as [|fuel IH]; intros obj.
  { by apply lock_trans_fail. }
  rewrite vlc_object_release_unfold.
  eapply lock_trans_bind; [apply lock_trans_atomic_load | intros r].
  eapply lock_trans_bind; [apply lock_trans_fast_path | intros [returned r']].
  destruct returned; [apply lock_trans_ret|].
  eapply lock_trans_bind.
  { unfold vlc_object_parent. lock_neutral. }
  intros par. destruct (par =? NULL)%N.
  - eapply lock_trans_bind; [apply lock_trans_atomic_fetch_sub | intros r1].
    eapply lock_trans_bind; [apply lock_trans_assert | intros _].
    eapply lock_trans_bind; [apply lock_trans_ObjectHasChild | intros hc].
    eapply lock_trans_bind; [apply lock_trans_assert | intros _].
    apply lock_trans_vlc_object_destroy.
  - eapply lock_trans_bind; [apply lock_trans_vlc_mutex_lock | intros _].
    eapply lock_trans_bind; [apply lock_trans_atomic_fetch_sub | intros r1].
    eapply lock_trans_bind; [apply lock_trans_assert | intros _].
    eapply lock_trans_bind.
    { destruct (r1 =? 1)%Z;
        [apply lock_trans_vlc_list_remove | apply lock_trans_ret]. }
    intros _.
    eapply lock_trans_bind; [apply lock_trans_vlc_mutex_unlock | intros _].
    destruct (r1 =? 1)%Z; [|apply lock_trans_ret].
    eapply lock_trans_bind; [apply lock_trans_ObjectHasChild | intros hc].
    eapply lock_trans_bind; [apply lock_trans_assert | intros _].
    eapply lock_trans_bind; [apply lock_trans_vlc_object_destroy | intros _].
    apply IH.
Qed.

Lemma lock_trans_exists_loop search root l :
  (∀ pos, lock_trans true true (search pos)) →
  lock_trans true true (exists_loop search root l).
Proof.
  intros Hsearch. induction l as [|pos l IH]; simpl; [apply lock_trans_ret|].
  eapply lock_trans_bind; [apply lock_trans_vlc_internals | intros priv].
  destruct (parent priv =? root)%N; [|apply IH].
  eapply lock_trans_bind; [apply Hsearch | intros r].
  destruct (r =? NULL)%N; [apply IH | apply lock_trans_ret].
Qed.

Lemma lock_trans_ObjectExists fuel root obj :
  lock_trans true true (ObjectExists fuel root obj).
Proof.
  revert root. induction fuel as [|fuel IH]; intros root; simpl.
  - destruct (root =? obj)%N;
      [apply lock_trans_vlc_object_hold | by apply lock_trans_fail].
  - destruct (root =? obj)%N; [apply lock_trans_vlc_object_hold|].
    eapply lock_trans_bind; [apply lock_trans_vlc_mutex_assert | intros _].
    eapply lock_trans_bind; [apply lock_trans_get_tree_list | intros l].
    apply lock_trans_exists_loop. intros pos. apply IH.
Qed.

Lemma lock_trans_tab_write b tab count x :
  lock_trans b b (tab_write tab count x).
Proof.
  unfold tab_write. destruct (N.to_nat count <? length tab)%nat;
    [apply lock_trans_ret | by apply lock_trans_fail].
Qed.

Lemma lock_trans_list_children_loop b l obj max count tab :
  lock_trans b b (list_children_loop l obj max count tab).
Proof.
  revert count tab. induction l as [|pos l IH]; intros count tab; simpl;
    [apply lock_trans_ret|].
  eapply lock_trans_bind; [apply lock_trans_vlc_internals | intros priv].
  destruct (parent priv =? obj)%N; [|apply IH].
  eapply lock_trans_bind; [|intros tab'; apply IH].
  destruct (count <? max)%N; [|apply lock_trans_ret].
  eapply lock_trans_bind; [apply lock_trans_vlc_object_hold | intros h].
  apply lock_trans_tab_write.
Qed.

Lemma lock_trans_vlc_list_children obj tab max :
  lock_trans false false (vlc_list_children obj tab max).
Proof.
  unfold vlc_list_children.
  eapply lock_trans_bind; [apply lock_trans_vlc_mutex_lock | intros _].
  eapply lock_trans_bind; [apply lock_trans_get_tree_list | intros l].
  eapply lock_trans_bind; [apply lock_trans_list_children_loop | intros r].
  eapply lock_trans_bind; [apply lock_trans_vlc_mutex_unlock | intros _].
  apply lock_trans_ret.
Qed.

Lemma lock_trans_vlc_custom_create sz vs vc m par len ty :
  lock_trans false false (vlc_custom_create sz vs vc m par len ty).
Proof.
  unfold vlc_custom_create.
  eapply lock_trans_bind; [apply lock_trans_assert | intros _].
  destruct (m =? NULL)%N; [apply lock_trans_ret|].
  eapply lock_trans_bind; [apply lock_trans_emit | intros _].
  eapply lock_trans_bind; [apply lock_trans_store | intros _].
  eapply lock_trans_bind; [apply lock_trans_emit | intros _].
  eapply lock_trans_bind; [apply lock_trans_emit | intros _].
  destruct (negb (par =? NULL)%N).
  - eapply lock_trans_bind; [apply lock_trans_vlc_internals | intros po].
    eapply lock_trans_bind; [apply lock_trans_vlc_internals | intros priv].
    eapply lock_trans_bind; [apply lock_trans_store | intros _].
    eapply lock_trans_bind; [apply lock_trans_vlc_object_hold | intros held].
    eapply lock_trans_bind; [apply lock_trans_vlc_internals | intros priv'].
    eapply lock_trans_bind; [apply lock_trans_store | intros _].
    eapply lock_trans_bind; [apply lock_trans_vlc_mutex_lock | intros _].
    eapply lock_trans_bind; [apply lock_trans_vlc_list_append | intros _].
    eapply lock_trans_bind; [apply lock_trans_vlc_mutex_unlock | intros _].
    apply lock_trans_ret.
  - eapply lock_trans_bind; [apply lock_trans_vlc_internals | intros priv].
    eapply lock_trans_bind; [apply lock_trans_store | intros _].
    eapply lock_trans_bind; [apply lock_trans_emit | intros _].
    eapply lock_trans_bind; [apply lock_trans_var_op | intros _].
    eapply lock_trans_bind; [apply lock_trans_var_op | intros _].
    eapply lock_trans_bind; [apply lock_trans_var_op | intros _].
    eapply lock_trans_bind; [apply lock_trans_var_op | intros _].
    eapply lock_trans_bind; [apply lock_trans_emit | intros _].
    apply lock_trans_ret.
Qed.

Lemma lock_trans_VarsCommand_dump fuel obj :
  lock_trans false false (VarsCommand_dump fuel obj).
Proof.
  unfold VarsCommand_dump, vlc_object_typename, vlc_object_parent,
    DumpVariables.
  eapply lock_trans_bind; [lock_neutral | intros ty].
  eapply lock_trans_bind; [lock_neutral | intros par].
  eapply lock_trans_bind; [apply lock_trans_emit | intros _].
  eapply lock_trans_bind; [lock_neutral | intros _].
  eapply lock_trans_bind; [apply lock_trans_vlc_object_release | intros _].
  apply lock_trans_ret.
Qed.

Lemma lock_trans_VarsCommand sscanf_p fuel obj newval :
  lock_trans false false (VarsCommand sscanf_p fuel obj newval).
Proof.
  unfold VarsCommand. destruct (sscanf_p newval) as [p|].
  - eapply lock_trans_bind; [apply lock_trans_vlc_mutex_lock | intros _].
    eapply lock_trans_bind; [apply lock_trans_ObjectExists | intros q].
    eapply lock_trans_bind; [apply lock_trans_vlc_mutex_unlock | intros _].
    destruct (q =? NULL)%N; [|apply lock_trans_VarsCommand_dump].
    eapply lock_trans_bind; [apply lock_trans_emit | intros _].
    apply lock_trans_ret.
  - eapply lock_trans_bind; [apply lock_trans_vlc_object_hold | intros _].
    apply lock_trans_VarsCommand_dump.
Qed.

Lemma lock_trans_last_child_loop b l par :
  lock_trans b b (last_child_loop l par).
Proof.
  induction l as [|c l IH]; simpl; [apply lock_trans_ret|].
  eapply lock_trans_bind; [apply lock_trans_vlc_internals | intros priv].
  destruct (parent priv =? par)%N; [apply lock_trans_ret | apply IH].
Qed.

Lemma lock_trans_ObjectIsLastChild b obj par :
  lock_trans b b (ObjectIsLastChild obj par).
Proof.
  unfold ObjectIsLastChild.
  eapply lock_trans_bind; [apply lock_trans_get_tree_list | intros l].
  destruct (nodes_after obj l);
    [apply lock_trans_last_child_loop | by apply lock_trans_fail].
Qed.

Lemma lock_trans_PrintObjectPrefix b fuel obj last :
  lock_trans b b (PrintObjectPrefix fuel obj last).
Proof.
  revert obj last. induction fuel as [|fuel IH]; intros obj last; simpl.
  - eapply lock_trans_bind;
      [unfold vlc_object_parent; lock_neutral | intros par].
    destruct (par =? NULL)%N; [apply lock_trans_ret | by apply lock_trans_fail].
  - eapply lock_trans_bind;
      [unfold vlc_object_parent; lock_neutral | intros par].
    destruct (par =? NULL)%N; [apply lock_trans_ret|].
    eapply lock_trans_bind; [apply IH | intros pre].
    eapply lock_trans_bind; [apply lock_trans_ObjectIsLastChild | intros l].
    apply lock_trans_ret.
Qed.

Lemma lock_trans_PrintObject b fuel obj :
  lock_trans b b (PrintObject fuel obj).
Proof.
  unfold PrintObject.
  eapply lock_trans_bind; [apply lock_trans_emit | intros _].
  eapply lock_trans_bind; [apply lock_trans_PrintObjectPrefix | intros pre].
  eapply lock_trans_bind; [apply lock_trans_ObjectHasChildLocked | intros hc].
  eapply lock_trans_bind;
    [unfold vlc_object_typename; lock_neutral | intros ty].
  eapply lock_trans_bind; [apply lock_trans_atomic_load | intros r].
  eapply lock_trans_bind; [apply lock_trans_emit | intros _].
  apply lock_trans_ret.
Qed.

Lemma lock_trans_dump_loop dump obj l :
  (∀ pos, lock_trans true true (dump pos)) →
  lock_trans true true (dump_loop dump obj l).
Proof.
  intros Hdump. induction l as [|pos l IH]; simpl; [apply lock_trans_ret|].
  eapply lock_trans_bind; [apply lock_trans_vlc_internals | intros priv].
  destruct (parent priv =? obj)%N; [|apply IH].
  eapply lock_trans_bind; [apply Hdump | intros lines].
  eapply lock_trans_bind; [apply IH | intros rest].
  apply lock_trans_ret.
Qed.

Lemma lock_trans_DumpStructure fuel obj level :
  lock_trans true true (DumpStructure fuel obj level).
Proof.
  revert obj level. induction fuel as [|fuel IH]; intros obj level.
  { by apply lock_trans_fail. }
  cbn [DumpStructure].
  eapply lock_trans_bind; [apply lock_trans_PrintObject | intros line].
  destruct (100 <? level)%Z.
  - eapply lock_trans_bind; [apply lock_trans_emit | intros _].
    apply lock_trans_ret.
  - eapply lock_trans_bind; [apply lock_trans_vlc_mutex_assert | intros _].
    eapply lock_trans_bind; [apply lock_trans_get_tree_list | intros l].
    eapply lock_trans_bind; [|intros rest; apply lock_trans_ret].
    apply lock_trans_dump_loop. intros pos. apply IH.
Qed.

Lemma lock_trans_TreeCommand fuel obj :
  lock_trans false false (TreeCommand fuel obj).
Proof.
  unfold TreeCommand.
  eapply lock_trans_bind; [apply lock_trans_vlc_mutex_lock | intros _].
  eapply lock_trans_bind; [apply lock_trans_DumpStructure | intros lines].
  eapply lock_trans_bind; [apply lock_trans_vlc_mutex_unlock | intros _].
  apply lock_trans_ret.
Qed.

(** X17: whatever the memory, the list and the arguments, a run of
    [vlc_custom_create], [vlc_object_release], [vlc_list_children],
    [VarsCommand] or [TreeCommand] that starts with the structure lock
    free never locks the lock while it holds it, and if it returns it
    returns with the lock free. *)
Theorem lock_never_taken_twice sz vs vc sscanf_p (s : state) :
  tree_lock s = false →
  (∀ m par len ty,
     lock_after false (vlc_custom_create sz vs vc m par len ty s)) ∧
  (∀ fuel obj, lock_after false (vlc_object_release fuel obj s)) ∧
  (∀ obj tab max, lock_after false (vlc_list_children obj tab max s)) ∧
  (∀ fuel obj newval,
     lock_after false (VarsCommand sscanf_p fuel obj newval s)) ∧
  (∀ fuel obj, lock_after false (TreeCommand fuel obj s)).
Proof.
  intros Hlock. repeat split; intros.
  - by apply lock_trans_vlc_custom_create.
  - by apply lock_trans_vlc_object_release.
  - by apply lock_trans_vlc_list_children.
  - by apply lock_trans_VarsCommand.
  - by apply lock_trans_TreeCommand.
Qed.

Lemma lock_never_taken_twice_witness :
  tree_lock ex_four_state = false ∧
  lock_after false (vlc_object_release 4 3%N ex_four_state) ∧
  lock_after false (TreeCommand 8 1%N ex_four_state) ∧
  lock_after false (VarsCommand ex_sscanf_p 8 1%N "0x3" ex_four_state).
Proof.
  assert (tree_lock ex_four_state = false) as H by (vm_compute; reflexivity).
  pose proof (lock_never_taken_twice ex_sizeof ex_VAR_STRING ex_VAR_ISCOMMAND
                ex_sscanf_p ex_four_state H) as (_ & Hr & _ & Hv & Ht).
  split; [exact H|]. split; [apply Hr|]. split; [apply Ht | apply Hv].
Defined.

(** ** The connectors of a printed line *)

Lemma PrintObjectPrefix_ancestors s fuel :
  NoDup (tree_list s) → all_allocated s (tree_list s) →
  ∀ obj d, chain s obj d → d ≤ fuel →
    ∃ pre, PrintObjectPrefix fuel obj false s = Done pre s ∧ length pre = d ∧
           Forall (λ str, str = "  " ∨ str = " │") pre.
Proof.
  intros Hnd Hall. induction fuel as [|fuel IH]; intros obj d Hch Hd.
  - destruct Hch as [obj o Ho Hp|obj o d Ho Hp Hin Hch]; [|lia].
    exists []. split; [|by split]. simpl.
    mstep (vlc_object_parent_Some _ _ _ Ho). by rewrite Hp.
  - destruct Hch as [obj o Ho Hp|obj o d Ho Hp Hin Hch].
    + exists []. split; [|by split]. simpl.
      mstep (vlc_object_parent_Some _ _ _ Ho). by rewrite Hp.
    + destruct (IH (parent o) d Hch) as (pre & Hpre & Hlen & Hall'); [lia|].
      eexists. split; [|split].
      * simpl. mstep (vlc_object_parent_Some _ _ _ Ho).
        assert ((parent o =? NULL)%N = false) as -> by by apply N.eqb_neq.
        mstep Hpre.
        mstep (ObjectIsLastChild_linked s obj o (parent o) Hnd Hall Ho
                 eq_refl Hin).
        reflexivity.
      * rewrite length_app. simpl. lia.
      * apply Forall_app. split; [done|]. apply Forall_singleton.
        destruct (bool_decide _); [by left | by right].
Qed.

(** X18: for an object with a parent, in a list without repetition whose
    entries are allocated, [PrintObjectPrefix] called for the object's own
    line returns one piece per ancestor and changes nothing: the last
    piece is the corner when the object is the last child of its parent
    in list order and the tee otherwise, and every piece before it is
    either blank or the vertical bar. *)
Theorem PrintObjectPrefix_connectors s fuel obj o d :
  NoDup (tree_list s) → all_allocated s (tree_list s) →
  heap s !! obj = Some o → chain s obj (S d) → S d ≤ fuel →
  ∃ pre,
    PrintObjectPrefix fuel obj true s =
      Done (pre ++
            [if bool_decide
                  (last (children_of (heap s) (tree_list s) (parent o))
                   = Some obj)
             then " └" else " ├"]) s
    ∧ length pre = d
    ∧ Forall (λ str, str = "  " ∨ str = " │") pre.
Proof.
  intros Hnd Hall Ho Hch Hd.
  inversion Hch as [|obj' o' d' Ho' Hp Hin Hch' Heq1 Heq2]; subst.
  assert (o' = o) as -> by congruence.
  destruct fuel as [|fuel]; [lia|].
  destruct (PrintObjectPrefix_ancestors s fuel Hnd Hall (parent o) d Hch')
    as (pre & Hpre & Hlen & Hall'); [lia|].
  exists pre. split; [|by split].
  simpl. mstep (vlc_object_parent_Some _ _ _ Ho).
  assert ((parent o =? NULL)%N = false) as -> by by apply N.eqb_neq.
  mstep Hpre.
  mstep (ObjectIsLastChild_linked s obj o (parent o) Hnd Hall Ho eq_refl Hin).
  by destruct (bool_decide _).
Qed.

Lemma ex_four_chain_leaf : chain ex_four_state 3%N 2.
Proof.
  apply (chain_step ex_four_state 3%N (ex_obj "leaf" [] 1 2%N 0));
    [by vm_compute | done | |].
  { change (tree_list ex_four_state) with [2%N; 4%N; 3%N].
    right. right. left. }
  apply (chain_step ex_four_state 2%N (ex_obj "mid" [] 2 1%N 8));
    [by vm_compute | done | |].
  { change (tree_list ex_four_state) with [2%N; 4%N; 3%N]. left. }
  apply (chain_root ex_four_state 1%N (ex_obj "libvlc" ex_root_vars 3 NULL 0));
    [by vm_compute | done].
Qed.

Lemma PrintObjectPrefix_connectors_witness :
  ∃ pre,
    PrintObjectPrefix 2 3%N true ex_four_state =
      Done (pre ++ [" └"]) ex_four_state
    ∧ length pre = 1
    ∧ Forall (λ str, str = "  " ∨ str = " │") pre.
Proof.
  pose proof (PrintObjectPrefix_connectors ex_four_state 2 3%N
                (ex_obj "leaf" [] 1 2%N 0) 1 ex_four_NoDup
                ex_four_all_allocated ltac:(by vm_compute)
                ex_four_chain_leaf (le_n 2)) as (pre & H & Hlen & Hf).
  exists pre. split; [|by split].
  rewrite H. f_equal.
Defined.

(** ** The chain of objects that a release destroys *)

Lemma released_delete n (h : gmap N vlc_object_internals_t) obj p :
  (∀ c oc, h !! c = Some oc → parent oc ≠ obj) → p ≠ obj →
  released n (delete obj h) p = released n h p.
Proof.
  intros Hnc. revert p. induction n as [|n IH]; intros p Hp; [done|].
  simpl. rewrite lookup_delete_ne by done.
  destruct (h !! p) as [o|] eqn:E; [|done].
  destruct (1 <? refs o)%Z; [done|].
  destruct (parent o =? NULL)%N; [done|].
  f_equal. apply IH. by apply (Hnc p o).
Qed.

Lemma survivor_delete n (h : gmap N vlc_object_internals_t) obj p :
  (∀ c oc, h !! c = Some oc → parent oc ≠ obj) → p ≠ obj →
  survivor n (delete obj h) p = survivor n h p.
Proof.
  intros Hnc. revert p. induction n as [|n IH]; intros p Hp; [done|].
  simpl. rewrite lookup_delete_ne by done.
  destruct (h !! p) as [o|] eqn:E; [|done].
  destruct (1 <? refs o)%Z; [done|].
  destruct (parent o =? NULL)%N; [done|].
  apply IH. by apply (Hnc p o).
Qed.

Lemma filter_not_in_nil (l : list N) :
  filter (λ q, q ∉ @nil N) l = l.
Proof.
  induction l as [|x l IH]; [done|].
  rewrite filter_cons_True; [by rewrite IH | apply not_elem_of_nil].
Qed.

Lemma filter_not_in_singleton (l : list N) obj :
  obj ∉ l → filter (λ q, q ∉ [obj]) l = l.
Proof.
  induction l as [|x l IH]; intros Hn; [done|].
  apply not_elem_of_cons in Hn as [Hne Hn].
  rewrite filter_cons_True; [by rewrite IH|].
  intros Hx. apply list_elem_of_singleton in Hx. congruence.
Qed.

Lemma filter_not_in_cons (l R : list N) obj :
  filter (λ q, q ∉ R) (filter (λ q, q ≠ obj) l)
  = filter (λ q, q ∉ obj :: R) l.
Proof.
  induction l as [|x l IH]; [done|].
  destruct (decide (x = obj)) as [->|Hne].
  - rewrite (filter_cons_False (λ q, q ≠ obj)) by (intros H; by apply H).
    rewrite (filter_cons_False (λ q, q ∉ obj :: R));
      [done | intros H; apply H; left].
  - rewrite (filter_cons_True (λ q, q ≠ obj)) by done.
    destruct (decide (x ∈ R)) as [Hin|Hnin].
    + rewrite (filter_cons_False (λ q, q ∉ R)) by (intros H; by apply H).
      rewrite (filter_cons_False (λ q, q ∉ obj :: R));
        [done | intros H; apply H; by right].
    + rewrite (filter_cons_True (λ q, q ∉ R)) by done.
      rewrite (filter_cons_True (λ q, q ∉ obj :: R)); [by rewrite IH|].
      intros Hx. apply elem_of_cons in Hx as [?|?]; done.
Qed.

(** X19: in a state that satisfies the invariant, the release of a
    reference that the caller owns destroys exactly the chain that starts
    at the object and goes up through the parents while the count is one:
    these objects leave the memory and the list, the first ancestor with
    more references has its count lowered by one, and every other object
    and list entry is as before. *)
Theorem release_destroys_chain fuel :
  ∀ s obj, tree_inv s → owned s obj → size (heap s) ≤ fuel →
    ∃ s', vlc_object_release fuel obj s = Done tt s' ∧
      tree_list s' =
        filter (λ q, q ∉ released fuel (heap s) obj) (tree_list s) ∧
      ∀ p, heap s' !! p =
             if decide (p ∈ released fuel (heap s) obj) then None
             else if decide (survivor fuel (heap s) obj = Some p)
                  then (λ o, set_refs (uint (refs o - 1)) o) <$> heap s !! p
                  else heap s !! p.
Proof.
  induction fuel as [|fuel IH]; intros s obj Hinv (o & Ho & Hown) Hsize.
  { assert (size (heap s) ≠ 0); [|lia].
    apply map_size_ne_0_lookup. by exists obj, o. }
  destruct (inv_refs s Hinv obj o Ho) as [[Hr1 Hrm] Hcc].
  cbn [released survivor]. rewrite Ho.
  destruct (decide (1 < refs o)%Z) as [Hgt|Hle].
  { rewrite (release_fast s obj o fuel Ho Hgt).
    assert ((1 <? refs o)%Z = true) as -> by by apply Z.ltb_lt.
    eexists. split; [done|]. split; [simpl; by rewrite filter_not_in_nil|].
    intros p. simpl.
    destruct (decide (p ∈ [])) as [Hin|_]; [by apply elem_of_nil in Hin|].
    destruct (decide (Some obj = Some p)) as [[= <-]|Hne].
    - by rewrite lookup_insert_eq, Ho.
    - rewrite lookup_insert_ne; [done | congruence]. }
  assert ((1 <? refs o)%Z = false) as -> by (apply Z.ltb_ge; lia).
  assert (refs o = 1%Z) as Hone by lia.
  assert (children_count (heap s) obj = 0) as Hz by lia.
  pose proof (tree_inv_no_children s obj Hinv Hz) as Hnc.
  pose proof (inv_resources s Hinv obj o Ho) as Hres.
  pose proof (inv_lock s Hinv) as Hlk.
  destruct (decide (parent o = NULL)) as [Hp|Hp].
  - assert (obj ≠ NULL) as Hon.
    { intros ->. pose proof (inv_null s Hinv). congruence. }
    rewrite (release_last_root s obj o fuel Ho Hone Hp Hon Hlk Hres Hnc).
    rewrite Hp, N.eqb_refl.
    eexists. split; [done|]. split.
    + simpl. rewrite filter_not_in_singleton; [done|].
      intros Hc. destruct (inv_list s Hinv obj Hc) as (o' & Ho' & Hp').
      congruence.
    + intros p. simpl. destruct (decide (p ∈ [obj])) as [Hin|Hnin].
      * apply list_elem_of_singleton in Hin as ->. apply lookup_delete_eq.
      * destruct (decide (None = Some p)) as [?|_]; [done|].
        rewrite lookup_delete_ne; [done|].
        intros ->. apply Hnin. left.
  - rewrite (release_last_child s obj o fuel Ho Hone Hp Hlk Hres Hnc).
    assert ((parent o =? NULL)%N = false) as -> by by apply N.eqb_neq.
    destruct (inv_parent s Hinv obj o Ho Hp) as [po Hpo].
    assert (∀ c oc, heap s !! c = Some oc → parent oc ≠ obj) as Hnoc.
    { intros c oc Hoc. by apply (children_count_zero _ _ _ _ Hz Hoc). }
    assert (parent o ≠ obj) as Hne by by apply (Hnoc obj o).
    destruct (IH (after_last_release obj o s) (parent o))
      as (s' & Hrun & Hlist & Hheap).
    + apply (tree_inv_delete s obj o); try done.
      intros c Hc. apply list_elem_of_filter in Hc as [Hc1 Hc2]. done.
    + exists po. simpl. split; [by rewrite lookup_delete_ne|].
      destruct (inv_refs s Hinv (parent o) po Hpo) as [_ Hccp].
      rewrite (children_count_delete_child (heap s) obj o Ho) in Hccp. lia.
    + simpl. rewrite map_size_delete_Some by by exists o. lia.
    + simpl in Hlist, Hheap.
      rewrite (released_delete fuel (heap s) obj (parent o) Hnoc Hne)
        in Hlist, Hheap.
      rewrite (survivor_delete fuel (heap s) obj (parent o) Hnoc Hne)
        in Hheap.
      exists s'. split; [done|]. split.
      * rewrite Hlist. apply filter_not_in_cons.
      * intros p. rewrite Hheap.
        destruct (decide (p = obj)) as [->|Hpo'].
        -- destruct (decide (obj ∈ obj :: released fuel (heap s) (parent o)))
             as [_|Hx]; [|exfalso; apply Hx; left].
           rewrite lookup_delete_eq.
           by repeat destruct (decide _).
        -- rewrite lookup_delete_ne by done.
           destruct (decide (p ∈ released fuel (heap s) (parent o)))
             as [Hin|Hnin];
             destruct (decide (p ∈ obj :: released fuel (heap s) (parent o)))
               as [Hin'|Hnin']; try done.
           ++ exfalso. apply Hnin'. by right.
           ++ exfalso. apply elem_of_cons in Hin' as [?|?]; done.
Qed.

Lemma ex_orphan_inv : tree_inv ex_orphan_state.
Proof.
  apply (reachable_inv ex_sizeof ex_VAR_STRING ex_VAR_ISCOMMAND).
  apply (reach_release _ _ _ ex_reach_mid 1%N).
  - apply ex_reach_mid_reachable.
  - exists (ex_obj "libvlc" ex_root_vars 2 NULL 0).
    split; [by vm_compute|]. by vm_compute.
  - by vm_compute.
Qed.

Lemma release_destroys_chain_witness :
  ∃ s', vlc_object_release 2 2%N ex_orphan_state = Done tt s' ∧
        tree_list s' = [] ∧
        heap s' !! 2%N = None ∧ heap s' !! 1%N = None.
Proof.
  assert (owned ex_orphan_state 2%N) as Hown.
  { exists (ex_obj "mid" [] 1 1%N 8). split; by vm_compute. }
  assert (size (heap ex_orphan_state) ≤ 2) as Hsize by (vm_compute; lia).
  destruct (release_destroys_chain 2 ex_orphan_state 2%N ex_orphan_inv
              Hown Hsize) as (s' & Hrun & Hlist & Hheap).
  exists s'. split; [exact Hrun|].
  pose proof (Hheap 2%N) as H2. pose proof (Hheap 1%N) as H1.
  vm_compute in Hlist. vm_compute in H1. vm_compute in H2.
  by repeat split.
Defined.

(** ** Destruction happens once *)

(** The release of an owned reference returns; the objects of the chain it
    destroys are gone and the events of their destruction are in the
    trace; every other object is still allocated. *)
Lemma release_destroys_once fuel :
  ∀ s obj, tree_inv s → owned s obj → size (heap s) ≤ fuel →
    ∃ s' evs, vlc_object_release fuel obj s = Done tt s' ∧
      trace s' = trace s ++ evs ∧
      ∀ p priv, heap s !! p = Some priv →
        if decide (p ∈ released fuel (heap s) obj)
        then heap s' !! p = None ∧
             ∃ pre post, evs = pre ++ destroy_events p priv ++ post
        else is_Some (heap s' !! p).
Proof.
  induction fuel as [|fuel IH]; intros s obj Hinv (o & Ho & Hown) Hsize.
  { assert (size (heap s) ≠ 0); [|lia].
    apply map_size_ne_0_lookup. by exists obj, o. }
  destruct (inv_refs s Hinv obj o Ho) as [[Hr1 Hrm] Hcc].
  cbn [released]. rewrite Ho.
  destruct (decide (1 < refs o)%Z) as [Hgt|Hle].
  { rewrite (release_fast s obj o fuel Ho Hgt).
    assert ((1 <? refs o)%Z = true) as -> by by apply Z.ltb_lt.
    eexists _, [EvCasDec obj (refs o)]. split; [done|]. split; [done|].
    intros p priv Hp.
    destruct (decide (p ∈ [])) as [Hin|_]; [by apply elem_of_nil in Hin|].
    simpl. destruct (decide (p = obj)) as [->|Hne].
    - rewrite lookup_insert_eq. by eexists.
    - rewrite lookup_insert_ne by done. by eexists. }
  assert ((1 <? refs o)%Z = false) as -> by (apply Z.ltb_ge; lia).
  assert (refs o = 1%Z) as Hone by lia.
  assert (children_count (heap s) obj = 0) as Hz by lia.
  pose proof (tree_inv_no_children s obj Hinv Hz) as Hnc.
  pose proof (inv_resources s Hinv obj o Ho) as Hres.
  pose proof (inv_lock s Hinv) as Hlk.
  destruct (decide (parent o = NULL)) as [Hp|Hp].
  - assert (obj ≠ NULL) as Hon.
    { intros ->. pose proof (inv_null s Hinv). congruence. }
    rewrite (release_last_root s obj o fuel Ho Hone Hp Hon Hlk Hres Hnc).
    rewrite Hp, N.eqb_refl.
    eexists _, _. split; [done|]. split; [done|].
    intros p priv Hpp. destruct (decide (p ∈ [obj])) as [Hin|Hnin].
    + apply list_elem_of_singleton in Hin as ->.
      assert (priv = o) as -> by congruence.
      split; [simpl; apply lookup_delete_eq|].
      exists [EvFetchSub obj 1; EvMutexLock; EvMutexUnlock], [].
      by rewrite app_nil_r.
    + simpl. rewrite lookup_delete_ne; [by eexists|].
      intros ->. apply Hnin. left.
  - rewrite (release_last_child s obj o fuel Ho Hone Hp Hlk Hres Hnc).
    assert ((parent o =? NULL)%N = false) as -> by by apply N.eqb_neq.
    destruct (inv_parent s Hinv obj o Ho Hp) as [po Hpo].
    assert (∀ c oc, heap s !! c = Some oc → parent oc ≠ obj) as Hnoc.
    { intros c oc Hoc. by apply (children_count_zero _ _ _ _ Hz Hoc). }
    assert (parent o ≠ obj) as Hne by by apply (Hnoc obj o).
    destruct (IH (after_last_release obj o s) (parent o))
      as (s' & evs1 & Hrun & Htr & Hall).
    + apply (tree_inv_delete s obj o); try done.
      intros c Hc. apply list_elem_of_filter in Hc as [Hc1 Hc2]. done.
    + exists po. simpl. split; [by rewrite lookup_delete_ne|].
      destruct (inv_refs s Hinv (parent o) po Hpo) as [_ Hccp].
      rewrite (children_count_delete_child (heap s) obj o Ho) in Hccp. lia.
    + simpl. rewrite map_size_delete_Some by by exists o. lia.
    + change (heap (after_last_release obj o s))
        with (delete obj (heap s)) in Hall.
      rewrite (released_delete fuel (heap s) obj (parent o) Hnoc Hne) in Hall.
      exists s',
        (([EvMutexLock; EvFetchSub obj 1; EvListRemove obj; EvMutexUnlock;
           EvMutexLock; EvMutexUnlock] ++ destroy_events obj o) ++ evs1).
      split; [done|]. split.
      { rewrite Htr.
        change (trace (after_last_release obj o s))
          with (trace s ++
                ([EvMutexLock; EvFetchSub obj 1; EvListRemove obj;
                  EvMutexUnlock; EvMutexLock; EvMutexUnlock] ++
                 destroy_events obj o)).
        by rewrite <- app_assoc. }
      intros p priv Hpp. destruct (decide (p = obj)) as [->|Hpo'].
      * destruct (decide (obj ∈ obj :: released fuel (heap s) (parent o)))
          as [_|Hx]; [|exfalso; apply Hx; left].
        assert (priv = o) as -> by congruence. split.
        -- destruct (steps_vlc_object_release fuel (parent o)
                       (after_last_release obj o s)) as (evs & _ & Hfree).
           rewrite Hrun in Hfree. apply (Hfree obj). simpl.
           apply lookup_delete_eq.
        -- exists [EvMutexLock; EvFetchSub obj 1; EvListRemove obj;
                   EvMutexUnlock; EvMutexLock; EvMutexUnlock], evs1.
           by rewrite <- app_assoc.
      * specialize (Hall p priv). rewrite lookup_delete_ne in Hall by done.
        specialize (Hall Hpp).
        destruct (decide (p ∈ released fuel (heap s) (parent o)))
          as [Hin|Hnin];
          destruct (decide (p ∈ obj :: released fuel (heap s) (parent o)))
            as [Hin'|Hnin']; try done.
        -- destruct Hall as (Hnone & pre & post & Hevs). split; [done|].
           exists (([EvMutexLock; EvFetchSub obj 1; EvListRemove obj;
                     EvMutexUnlock; EvMutexLock; EvMutexUnlock] ++
                    destroy_events obj o) ++ pre), post.
           rewrite Hevs. by rewrite <- !app_assoc.
        -- exfalso. apply Hnin'. by right.
        -- exfalso. apply elem_of_cons in Hin' as [?|?]; done.
Qed.

(** C9: the destruction of an allocated object performs, in this order:
    the assertion that no resource is attached; the teardown hook when one
    is set; for a parentless object the removal of the callbacks of "vars"
    and "tree"; the destruction of all variables; the destruction of the
    variable condition and lock; the free of the block.  And in a state
    that satisfies the invariant, the release of a reference that the
    caller owns returns, and its trace holds the destruction of each
    object of the chain it destroys, in that order of events, with the
    block freed once; an object that is not on the chain is not destroyed
    and stays allocated. *)
Theorem destroy_sequence_once s p_this priv fuel obj :
  heap s !! p_this = Some priv →
  vlc_object_destroy p_this s =
    (if (resources priv =? NULL)%N
     then Done tt (add_trace (destroy_events p_this priv)
                     (set_heap (delete p_this (heap s)) s))
     else Abort AssertionFailed s)
  ∧ (tree_inv s → owned s obj → size (heap s) ≤ fuel →
     ∃ s' evs,
       vlc_object_release fuel obj s = Done tt s' ∧
       trace s' = trace s ++ evs ∧
       if decide (p_this ∈ released fuel (heap s) obj)
       then heap s' !! p_this = None ∧ free_count p_this evs = 1 ∧
            ∃ pre post, evs = pre ++ destroy_events p_this priv ++ post
       else is_Some (heap s' !! p_this) ∧ free_count p_this evs = 0).
Proof.
  intros H. split.
  - destruct (resources priv =? NULL)%N eqn:E.
    + apply N.eqb_eq in E. exact (vlc_object_destroy_Some s p_this priv H E).
    + apply N.eqb_neq in E.
      exact (vlc_object_destroy_resources s p_this priv H E).
  - intros Hinv Hown Hsize.
    destruct (release_destroys_once fuel s obj Hinv Hown Hsize)
      as (s' & evs & Hrun & Htr & Hall).
    exists s', evs. split; [done|]. split; [done|].
    destruct (steps_vlc_object_release fuel obj s) as (evs' & Htr' & Hc).
    rewrite Hrun in Htr', Hc. simpl in Htr', Hc.
    assert (evs' = evs) as -> by (apply (app_inv_head (trace s)); congruence).
    specialize (Hall p_this priv H). destruct (Hc p_this) as [Hcount _].
    rewrite H in Hcount.
    destruct (decide (p_this ∈ released fuel (heap s) obj)).
    + destruct Hall as [Hnone Hseq]. rewrite Hnone in Hcount. done.
    + destruct Hall as [o' Ho']. rewrite Ho' in Hcount. split; [by eexists|done].
Qed.

Lemma destroy_sequence_once_witness :
  heap ex_orphan_state !! 1%N = Some (ex_obj "libvlc" ex_root_vars 1 NULL 0) ∧
  ∃ s' evs,
    vlc_object_release 2 2%N ex_orphan_state = Done tt s' ∧
    trace s' = trace ex_orphan_state ++ evs ∧
    heap s' !! 1%N = None ∧ free_count 1%N evs = 1 ∧
    ∃ pre post,
      evs = pre ++ [EvSaveCancel;
                    EvVarDelCallback 1%N "vars" VarsCommand_cb NULL;
                    EvVarDelCallback 1%N "tree" TreeCommand_cb NULL;
                    EvVarDestroyAll 1%N; EvRestoreCancel;
                    EvVarWaitDestroy 1%N; EvVarLockDestroy 1%N;
                    EvFree 1%N] ++ post.
Proof.
  assert (heap ex_orphan_state !! 1%N
          = Some (ex_obj "libvlc" ex_root_vars 1 NULL 0)) as H
    by by vm_compute.
  split; [exact H|].
  assert (owned ex_orphan_state 2%N) as Hown.
  { exists (ex_obj "mid" [] 1 1%N 8). split; by vm_compute. }
  assert (size (heap ex_orphan_state) ≤ 2) as Hsize by (vm_compute; lia).
  destruct (proj2 (destroy_sequence_once ex_orphan_state 1%N
                     (ex_obj "libvlc" ex_root_vars 1 NULL 0) 2 2%N H)
              ex_orphan_inv Hown Hsize) as (s' & evs & Hrun & Htr & Hif).
  exists s', evs. split; [exact Hrun|]. split; [exact Htr|].
  vm_compute in Hif. exact Hif.
Defined.
